(** * Sheet-music clef conversion: note model, clef transposition,
      timing normalisation, heuristic detection, preprocessing, progress,
      music and file utilities, rendering

    Shallow embedding of
      - [src/core/clef_converter.py]   (class [ClefConverter])
      - [src/core/midi_converter.py]   (class [MIDIConverter])
      - [src/core/omr_engine.py]       (class [OMREngine])
      - [src/core/image_preprocessor.py] (class [ImagePreprocessor])
      - [src/core/converter.py]        (classes [ConversionProgress], [ClefConverter])
      - [src/core/score_renderer.py]   (class [ScoreRenderer])
      - [src/utils/music_utils.py], [src/utils/file_utils.py]

    Conventions.
      - Python [int] is [Z]; Python [str] is [string]; a [dict] is a [gmap].
      - Python [float] is the binary64 format, [Float64.float]: the
        operations of [SpecFloat] at precision 53, which round to the nearest
        float (ties to even) and have signed zeros, infinities and NaN.  The
        code that compares, rounds or truncates times computes on these
        floats: the timing functions and the tick conversion of the MIDI
        converter, the tolerance test of [validate_conversion], the timing
        helpers of [music_utils.py].
      - Where a time is only stored and copied (the clef converter), and for
        the aspect ratios, pixel coordinates and candidate start times of the
        preprocessor, the renderer and the heuristic detector, a float is
        the rational [Q] it stands for.
      - An exception is a value of a sum type; logging is a list of records. *)

From Stdlib Require Import ZArith QArith Qround Lia Lqa Ascii.
From Stdlib Require Import SpecFloat.
From stdpp Require Import base option list sorting gmap strings.

Local Open Scope Z_scope.

(** ** Notes *)

(** Modelled from the spec: the class [Note] of [src/models/note.py], which is
    imported by every core module but is not among the sources.  Section 3 of
    the specification lists its fields; the keyword arguments used by the
    callers give their Python names. *)
Record Note : Type := mkNote {
  pitch          : Z;
  start_time     : Q;
  duration       : Q;
  velocity       : Z;
  staff_position : Z;
  accidental     : option string;
  tie            : bool;
  dot            : bool;
}.

(** Modelled from the spec: the values the constructor of [Note] gives to the
    keyword arguments a caller leaves out.  They are declared in the missing
    [src/models/note.py], so they are kept abstract. *)
Class NoteDefaults : Type := {
  default_velocity       : Z;
  default_staff_position : Z;
  default_accidental     : option string;
  default_tie            : bool;
  default_dot            : bool;
}.

(** Modelled from the spec: [Note(pitch=, start_time=, duration=, ...)], the
    constructor call.  The three leading fields are passed by every caller; an
    optional keyword argument is [None] here when the caller omits it. *)
Definition Note_init `{NoteDefaults} (p : Z) (st dur : Q)
    (vel : option Z) (pos : option Z) (acc : option (option string))
    (ti : option bool) (dt : option bool) : Note :=
  {| pitch := p;
     start_time := st;
     duration := dur;
     velocity := default default_velocity vel;
     staff_position := default default_staff_position pos;
     accidental := default default_accidental acc;
     tie := default default_tie ti;
     dot := default default_dot dt |}.

(** Attribute assignments [note.staff_position = v] and
    [note.start_time = v]. *)
Definition set_staff_position (v : Z) (n : Note) : Note :=
  {| pitch := pitch n; start_time := start_time n; duration := duration n;
     velocity := velocity n; staff_position := v;
     accidental := accidental n; tie := tie n; dot := dot n |}.

Definition set_start_time (v : Q) (n : Note) : Note :=
  {| pitch := pitch n; start_time := v; duration := duration n;
     velocity := velocity n; staff_position := staff_position n;
     accidental := accidental n; tie := tie n; dot := dot n |}.

(** ** Python arithmetic on numbers *)

Definition Qltb (a b : Q) : bool := negb (Qle_bool b a).

(** The built-in [round(x)] with one argument: the nearest integer, a value
    half-way between two integers going to the even one. *)
Definition py_round (x : Q) : Z :=
  let f := Qfloor x in
  match (x - inject_Z f ?= 1 # 2)%Q with
  | Lt => f
  | Gt => f + 1
  | Eq => if Z.even f then f else f + 1
  end.

(** [int(x)] on a float: truncation towards zero. *)
Definition py_int (x : Q) : Z := Z.quot (Qnum x) (Z.pos (Qden x)).

(** Exceptions the modelled code can raise on well-typed input. *)
Inductive PyExn : Type :=
  | ZeroDivisionError
  | IndexError
  | ValueError
  | LibraryError (code : nat).   (* raised inside cv2, PIL or numpy *)

Inductive result (E A : Type) : Type :=
  | Ok (a : A)
  | Raise (e : E).
Arguments Ok {E A} a.
Arguments Raise {E A} e.

#[global] Instance result_ret {E} : MRet (result E) := fun A a => Ok a.

#[global] Instance result_bind {E} : MBind (result E) := fun A B k m =>
  match m with
  | Ok a => k a
  | Raise e => Raise e
  end.

(** A computation that returns a value or raises a Python exception. *)
Abbreviation raises := (result PyExn).

(** [a / b] on numbers held as rationals. *)
Definition py_truediv (a b : Q) : result PyExn Q :=
  if Qeq_bool b 0 then Raise ZeroDivisionError else Ok (a / b)%Q.

(** A [for] loop whose body may raise: the first exception ends the loop. *)
Fixpoint for_each {E A S} (body : S -> A -> result E S) (st : S) (l : list A)
    : result E S :=
  match l with
  | [] => Ok st
  | x :: l' => st' ← body st x; for_each body st' l'
  end.

(** ** Python floats *)

(** A Python [float] is an IEEE 754 binary64 number.  [spec_float] is the
    Standard Library's specification of these numbers and of their
    operations, which round to the nearest float, a tie going to the even
    mantissa; binary64 has 53 bits of precision and infinities at exponent
    1024.  The two zeros differ in sign only; no operation below tells them
    apart. *)
Module Float64.

Definition float : Type := spec_float.
Definition prec : Z := 53.
Definition emax : Z := 1024.

(** [x + y], [x - y], [x * y] and [abs(x)]; [div] is the IEEE quotient, which
    Python computes after it has checked the divisor (see [truediv]). *)
Definition add (x y : float) : float := SFadd prec emax x y.
Definition sub (x y : float) : float := SFsub prec emax x y.
Definition mul (x y : float) : float := SFmul prec emax x y.
Definition div (x y : float) : float := SFdiv prec emax x y.
Definition abs (x : float) : float := SFabs x.

(** [x < y] and [x <= y]; [x > y] is [ltb y x].  A comparison with a NaN is
    false. *)
Definition ltb (x y : float) : bool := SFltb x y.
Definition leb (x y : float) : bool := SFleb x y.

Definition is_nan (x : float) : bool :=
  match x with S754_nan => true | _ => false end.

Definition is_zero (x : float) : bool :=
  match x with S754_zero _ => true | _ => false end.

(** Neither an infinity nor a NaN. *)
Definition is_finite (x : float) : bool :=
  match x with S754_zero _ | S754_finite _ _ _ => true | _ => false end.

Definition zero : float := S754_zero false.

(** The rational number a finite float stands for ([0] for the others). *)
Definition value (x : float) : Q :=
  match x with
  | S754_finite s m e =>
      match e with
      | Zneg p => Qmake (cond_Zopp s (Z.pos m)) (2 ^ p)
      | _ => inject_Z (cond_Zopp s (Z.pos m) * 2 ^ e)
      end
  | _ => 0%Q
  end.

(** The float nearest to an integer, and to a rational: the value of a
    literal such as [0.1], and what [float(n)] gives for an integer in
    range. *)
Definition of_Z (z : Z) : float := binary_normalize prec emax z 0 false.

Definition of_Q (q : Q) : float :=
  match Qnum q with
  | Z0 => zero
  | Z.pos n => div (S754_finite false n 0) (S754_finite false (Qden q) 0)
  | Z.neg n => div (S754_finite true n 0) (S754_finite false (Qden q) 0)
  end.

(** The exceptions of float arithmetic. *)
Inductive Exn : Type := ZeroDivisionError | OverflowError | ValueError.

(** An [int] operand of a float operation is converted first; an integer too
    large for a float raises [OverflowError]. *)
Definition of_int (z : Z) : result Exn float :=
  let x := of_Z z in
  if is_finite x then Ok x else Raise OverflowError.

(** [x / y] on floats. *)
Definition truediv (x y : float) : result Exn float :=
  if is_zero y then Raise ZeroDivisionError else Ok (div x y).

(** [round(x)] and [int(x)]: the integer nearest to the value of [x] (ties to
    even), and the value truncated towards zero; an infinity raises
    [OverflowError], a NaN [ValueError]. *)
Definition round (x : float) : result Exn Z :=
  match x with
  | S754_nan => Raise ValueError
  | S754_infinity _ => Raise OverflowError
  | _ => Ok (py_round (value x))
  end.

Definition int (x : float) : result Exn Z :=
  match x with
  | S754_nan => Raise ValueError
  | S754_infinity _ => Raise OverflowError
  | _ => Ok (py_int (value x))
  end.

(** [min(a, b)] returns [a] unless [b < a]; [max(a, b)] returns [a] unless
    [b > a]. *)
Definition min (a b : float) : float := if ltb b a then b else a.
Definition max (a b : float) : float := if ltb a b then b else a.

End Float64.

(** ** Notes with float times *)

(** Modelled from the spec: the class [Note] again, with [start_time] and
    [duration] held as the floats they are in Python.  The functions that
    compute new times work on these notes; where times are only copied,
    [Note] above carries them as rationals. *)
Module Note64.

Record t : Type := mk {
  pitch          : Z;
  start_time     : Float64.float;
  duration       : Float64.float;
  velocity       : Z;
  staff_position : Z;
  accidental     : option string;
  tie            : bool;
  dot            : bool;
}.

(** Modelled from the spec: the constructor call, as [Note_init]. *)
Definition init `{NoteDefaults} (p : Z) (st dur : Float64.float)
    (vel : option Z) (pos : option Z) (acc : option (option string))
    (ti : option bool) (dt : option bool) : t :=
  {| pitch := p;
     start_time := st;
     duration := dur;
     velocity := default default_velocity vel;
     staff_position := default default_staff_position pos;
     accidental := default default_accidental acc;
     tie := default default_tie ti;
     dot := default default_dot dt |}.

(** Modelled from the spec: the property [Note.end_time], a float sum. *)
Definition end_time (n : t) : Float64.float :=
  Float64.add (start_time n) (duration n).

(** Attribute assignments [note.start_time = v] and [note.duration = v]. *)
Definition set_start_time (v : Float64.float) (n : t) : t :=
  {| pitch := pitch n; start_time := v; duration := duration n;
     velocity := velocity n; staff_position := staff_position n;
     accidental := accidental n; tie := tie n; dot := dot n |}.

Definition set_duration (v : Float64.float) (n : t) : t :=
  {| pitch := pitch n; start_time := start_time n; duration := v;
     velocity := velocity n; staff_position := staff_position n;
     accidental := accidental n; tie := tie n; dot := dot n |}.

End Note64.

(** ** Recognition results *)

(** Modelled from the spec: an element of [RecognitionResult.measures]
    ([src/models/measure.py] is not among the sources); the converters pass
    the list on without looking into it. *)
Inductive Measure : Type := OpaqueMeasure (id : nat).

(** Modelled from the spec: the class [ScoreMetadata] of
    [src/models/score_metadata.py], which is not among the sources; the fields
    are the keyword arguments of the constructor call in
    [convert_recognition_result]. *)
Record ScoreMetadata : Type := mkScoreMetadata {
  time_signature : Z * Z;
  key_signature : string;
  tempo : Q;
  clef_type : string;
  title : string;
  composer : string;
}.

(** Modelled from the spec: the class [RecognitionResult] of
    [src/models/recognition_result.py], which is not among the sources; the
    fields are the keyword arguments of the constructor call in
    [convert_recognition_result].  A result without metadata has [None]. *)
Record RecognitionResult : Type := mkRecognitionResult {
  notes : list Note;
  metadata : option ScoreMetadata;
  measures : list Measure;
  confidence : Q;
  processing_time : Q;
  image_path : string;
  errors : list string;
  warnings : list string;
}.

(** Modelled from the spec: [RecognitionResult.add_warning], which appends
    the message to [warnings] (section 4.4: "a warning appended"). *)
Definition add_warning (message : string) (r : RecognitionResult)
    : RecognitionResult :=
  {| notes := notes r; metadata := metadata r; measures := measures r;
     confidence := confidence r; processing_time := processing_time r;
     image_path := image_path r; errors := errors r;
     warnings := warnings r ++ [message] |}.

(** ** Python dictionaries *)

(** A dict display [{k1: v1, k2: v2, ...}]: entries are stored left to right,
    a later entry for the same key replaces an earlier one. *)
Definition py_dict {K V} `{Countable K} (items : list (K * V)) : gmap K V :=
  foldl (fun m kv => <[kv.1 := kv.2]> m) ∅ items.

(** [d.items()] on a dict display without repeated keys, in insertion order. *)
Definition py_items {K V} (items : list (K * V)) : list (K * V) := items.

(** ** [ClefConverter] of [clef_converter.py] *)

Module ClefConverter.

Definition ALTO_TO_TREBLE_OFFSET : Z := -6.

(** The display under the key ['alto_to_treble']. *)
Definition alto_to_treble_items : list (Z * Z) :=
  [ (-10, -16); (-9, -15); (-8, -14); (-7, -13); (-6, -12); (-5, -11);
    (-4, -10); (-3, -9); (-2, -8); (-1, -7); (0, -6); (1, -5);
    (2, -4); (3, -3); (4, -2); (5, -1); (6, 0); (7, 1);
    (8, 2); (9, 3); (10, 4); (11, 5); (12, 6); (13, 7);
    (14, 8); (15, 9); (16, 10) ].

(** The second display, the one the comprehension under ['treble_to_alto']
    iterates over. *)
Definition reverse_source_items : list (Z * Z) :=
  [ (-10, -16); (-9, -15); (-8, -14); (-7, -13); (-6, -12); (-5, -11);
    (-4, -10); (-3, -9); (-2, -8); (-1, -7); (0, -6); (1, -5);
    (2, -4); (3, -3); (4, -2); (5, -1); (6, 0); (7, 1);
    (8, 2); (9, 3); (10, 4); (11, 5); (12, 6); (13, 7);
    (14, 8); (15, 9); (16, 10) ].

(** [{v: k for k, v in {...}.items()}] *)
Definition treble_to_alto_map : gmap Z Z :=
  py_dict (map (fun kv => (kv.2, kv.1)) (py_items reverse_source_items)).

Definition alto_to_treble_map : gmap Z Z := py_dict alto_to_treble_items.

Definition CLEF_POSITION_MAP : gmap string (gmap Z Z) :=
  py_dict [ ("alto_to_treble"%string, alto_to_treble_map);
            ("treble_to_alto"%string, treble_to_alto_map) ].

(** [_convert_staff_position]; the warning logged on the fall-through path is
    not part of the returned value. *)
Definition _convert_staff_position (position : Z) (from_clef to_clef : string)
    : Z :=
  let conversion_key := (from_clef +:+ "_to_" +:+ to_clef)%string in
  match CLEF_POSITION_MAP !! conversion_key with
  | Some position_map =>
      match position_map !! position with
      | Some v => v
      | None =>
          if bool_decide (from_clef = "alto"%string ∧ to_clef = "treble"%string)
          then position + ALTO_TO_TREBLE_OFFSET
          else if bool_decide (from_clef = "treble"%string ∧ to_clef = "alto"%string)
          then position - ALTO_TO_TREBLE_OFFSET
          else position
      end
  | None => position
  end.

(** The two displays of [MIDI_TO_STAFF_POSITION]. *)
Definition midi_alto_items : list (Z * Z) :=
  [ (48, -8); (49, -7); (50, -6); (51, -5); (52, -4); (53, -3); (54, -2);
    (55, -1); (56, 0); (57, 1); (58, 2); (59, 3); (60, 4); (61, 5); (62, 6);
    (63, 7); (64, 8); (65, 9); (66, 10); (67, 11); (68, 12); (69, 13);
    (70, 14); (71, 15); (72, 16) ].

Definition midi_treble_items : list (Z * Z) :=
  [ (48, -14); (49, -13); (50, -12); (51, -11); (52, -10); (53, -9);
    (54, -8); (55, -7); (56, -6); (57, -5); (58, -4); (59, -3); (60, -2);
    (61, -1); (62, 0); (63, 1); (64, 2); (65, 3); (66, 4); (67, 5); (68, 6);
    (69, 7); (70, 8); (71, 9); (72, 10) ].

Definition MIDI_TO_STAFF_POSITION : gmap string (gmap Z Z) :=
  py_dict [ ("alto"%string, py_dict midi_alto_items);
            ("treble"%string, py_dict midi_treble_items) ].

(** [calculate_staff_position_from_pitch] *)
Definition calculate_staff_position_from_pitch (pitch : Z) (clef : string)
    : Z :=
  match MIDI_TO_STAFF_POSITION !! clef with
  | Some position_map =>
      match position_map !! pitch with
      | Some v => v
      | None =>
          let extend (base_pitch base_position : Z) : Z :=
            let position_offset := (inject_Z (pitch - base_pitch) * (1 # 2))%Q in
            py_int (inject_Z base_position + position_offset) in
          if bool_decide (clef = "alto"%string) then extend 60 4
          else if bool_decide (clef = "treble"%string) then extend 64 2
          else 0
      end
  | None => 0
  end.

(** [handle_ledger_lines]; [//] is floor division. *)
Definition handle_ledger_lines (position : Z) (clef : string) : Z * Z :=
  let adjusted_position := position in
  let ledger_lines :=
    if bool_decide (clef = "treble"%string) then
      if bool_decide (position < 2) then (2 - position + 1) `div` 2
      else if bool_decide (10 < position) then (position - 10 + 1) `div` 2
      else 0
    else if bool_decide (clef = "alto"%string) then
      if bool_decide (position < 0) then (0 - position + 1) `div` 2
      else if bool_decide (8 < position) then (position - 8 + 1) `div` 2
      else 0
    else 0 in
  (adjusted_position, ledger_lines).

(** The tolerance [0.001] of [validate_conversion], and its test
    [abs(a - b) > 0.001] on two times: a float difference, its absolute
    value and a float comparison.  The time field [q] of a note is the float
    [Float64.of_Q q] there. *)
Definition tolerance : Float64.float := Float64.of_Q (1 # 1000).

Definition exceeds_tolerance (a b : Q) : bool :=
  Float64.ltb tolerance
    (Float64.abs (Float64.sub (Float64.of_Q a) (Float64.of_Q b))).

(** The loop of [validate_conversion] over [zip(original, converted)]: the
    first discrepancy ends it with [False]. *)
Fixpoint validate_pairs (pairs : list (Note * Note)) : bool :=
  match pairs with
  | [] => true
  | (orig, conv) :: pairs' =>
      if bool_decide (pitch orig ≠ pitch conv) then false
      else if exceeds_tolerance (start_time orig) (start_time conv)
      then false
      else if exceeds_tolerance (duration orig) (duration conv)
      then false
      else validate_pairs pairs'
  end.

(** [validate_conversion] *)
Definition validate_conversion (original converted : list Note) : bool :=
  if bool_decide (length original ≠ length converted) then false
  else validate_pairs (zip original converted).

(** The dict returned by [get_conversion_info]. *)
Record ConversionInfo : Type := mkConversionInfo {
  info_from_clef : string;
  info_to_clef : string;
  info_position_offset : Z;
  info_supported : bool;
  info_description : string;
}.

(** [get_conversion_info] *)
Definition get_conversion_info (from_clef to_clef : string) : ConversionInfo :=
  {| info_from_clef := from_clef;
     info_to_clef := to_clef;
     info_position_offset :=
       if bool_decide (from_clef = "alto"%string ∧ to_clef = "treble"%string)
       then ALTO_TO_TREBLE_OFFSET else - ALTO_TO_TREBLE_OFFSET;
     info_supported :=
       bool_decide (is_Some (CLEF_POSITION_MAP
                               !! (from_clef +:+ "_to_" +:+ to_clef)%string));
     info_description :=
       ("将" +:+ from_clef +:+ "谱号转换为" +:+ to_clef +:+ "谱号")%string |}.

Section with_defaults.
Context `{NoteDefaults}.

(** The body shared by the two loops: a new [Note] built from seven fields of
    [note], whose [staff_position] is then assigned. *)
Definition convert_note (from_clef to_clef : string) (note : Note) : Note :=
  let converted_note :=
    Note_init (pitch note) (start_time note) (duration note)
              (Some (velocity note)) None (Some (accidental note))
              (Some (tie note)) (Some (dot note)) in
  set_staff_position
    (_convert_staff_position (staff_position note) from_clef to_clef)
    converted_note.

(** [convert_alto_to_treble]: the loop appends one converted note per input
    note. *)
Definition convert_alto_to_treble (notes : list Note) : list Note :=
  foldl (fun converted_notes note =>
           converted_notes ++ [convert_note "alto" "treble" note]) [] notes.

(** [convert_treble_to_alto] *)
Definition convert_treble_to_alto (notes : list Note) : list Note :=
  foldl (fun converted_notes note =>
           converted_notes ++ [convert_note "treble" "alto" note]) [] notes.

(** [convert_recognition_result]; the [except] block logs and raises again. *)
Definition convert_recognition_result (result : RecognitionResult)
    (target_clef : string) : raises RecognitionResult :=
  match metadata result with
  | None => Raise ValueError
  | Some md =>
      let source_clef := clef_type md in
      if bool_decide (source_clef = target_clef) then Ok result
      else
        let converted :=
          if bool_decide (source_clef = "alto"%string
                          ∧ target_clef = "treble"%string)
          then Some (convert_alto_to_treble (notes result))
          else if bool_decide (source_clef = "treble"%string
                               ∧ target_clef = "alto"%string)
          then Some (convert_treble_to_alto (notes result))
          else None in
        match converted with
        | None => Raise ValueError
        | Some converted_notes =>
            let new_metadata :=
              {| time_signature := time_signature md;
                 key_signature := key_signature md;
                 tempo := tempo md;
                 clef_type := target_clef;
                 title := title md;
                 composer := composer md |} in
            let converted_result :=
              {| notes := converted_notes;
                 metadata := Some new_metadata;
                 measures := measures result;
                 confidence := confidence result;
                 processing_time := processing_time result;
                 image_path := image_path result;
                 errors := errors result;
                 warnings := warnings result |} in
            Ok (add_warning
                   ("谱号已从" +:+ source_clef +:+ "转换为" +:+ target_clef)%string
                   converted_result)
        end
  end.

End with_defaults.

End ClefConverter.

(** ** [MIDIConverter] of [midi_converter.py] *)

(** The methods of [MIDIConverter] that compute with times; they work on
    notes with float times. *)
Module MIDIConverter.

(** [enumerate(l)] *)
Definition enumerate {A} (l : list A) : list (nat * A) :=
  zip (seq 0 (length l)) l.

(** [sorted(notes, key=lambda n: n.start_time)]: a stable sort that compares
    keys with [<] only.  Insertion from the right is such a sort; on keys
    without a NaN, where [<] is a strict weak order, every stable sort gives
    the same list. *)
Fixpoint insert_by_start (x : Note64.t) (l : list Note64.t)
    : list Note64.t :=
  match l with
  | [] => [x]
  | y :: l' =>
      if Float64.ltb (Note64.start_time y) (Note64.start_time x)
      then y :: insert_by_start x l'
      else x :: y :: l'
  end.

Fixpoint sorted_by_start (notes : list Note64.t) : list Note64.t :=
  match notes with
  | [] => []
  | x :: l => insert_by_start x (sorted_by_start l)
  end.

(** [_seconds_to_ticks]; [ticks_per_beat] is the attribute that [__init__]
    sets, [tempo] is an [int] as the signature says. *)
Definition _seconds_to_ticks (ticks_per_beat : Z) (seconds : Float64.float)
    (tempo : Z) : result Float64.Exn Z :=
  tempo_float ← Float64.of_int tempo;
  beats ← Float64.truediv (Float64.mul seconds tempo_float) (Float64.of_Z 60);
  ticks_per_beat_float ← Float64.of_int ticks_per_beat;
  ticks ← Float64.int (Float64.mul beats ticks_per_beat_float);
  Ok (Z.max 0 ticks).

Inductive EventType : Type := note_on | note_off.

(** The dicts built by [_notes_to_midi_events]. *)
Record MidiEvent : Type := mkEvent {
  ev_time : Float64.float;
  ev_type : EventType;
  ev_note : Z;
  ev_velocity : Z;
}.

(** [_notes_to_midi_events]: a note-on and a note-off event per note. *)
Definition _notes_to_midi_events (notes : list Note64.t) : list MidiEvent :=
  foldl (fun events note =>
           (events ++ [mkEvent (Note64.start_time note) note_on
                               (Note64.pitch note) (Note64.velocity note)])
           ++ [mkEvent (Note64.end_time note) note_off
                       (Note64.pitch note) 0])
        [] notes.

(** [midi_events.sort(key=lambda x: x['time'])]: stable, keys compared with
    [<] only. *)
Fixpoint insert_by_time (x : MidiEvent) (l : list MidiEvent)
    : list MidiEvent :=
  match l with
  | [] => [x]
  | y :: l' =>
      if Float64.ltb (ev_time y) (ev_time x)
      then y :: insert_by_time x l'
      else x :: y :: l'
  end.

Fixpoint sorted_by_time (events : list MidiEvent) : list MidiEvent :=
  match events with
  | [] => []
  | x :: l => insert_by_time x (sorted_by_time l)
  end.

(** The arguments of a [mido.Message('note_on' | 'note_off', ...)] call. *)
Record NoteMessage : Type := mkMessage {
  msg_type : EventType;
  msg_channel : Z;
  msg_note : Z;
  msg_velocity : Z;
  msg_time : Z;
}.

Section with_mido.
(** The check [mido.Message] makes on its arguments; it raises [ValueError]
    when the check fails. *)
Context (message_ok : NoteMessage -> bool).

Definition Message (m : NoteMessage) : result Float64.Exn NoteMessage :=
  if message_ok m then Ok m else Raise Float64.ValueError.

(** The body of the loop of [notes_to_midi] over the sorted events, on the
    pair of [current_time] and the note messages of the track. *)
Definition track_body (ticks_per_beat : Z) (tempo : Z)
    (st : Float64.float * list NoteMessage) (event : MidiEvent)
    : result Float64.Exn (Float64.float * list NoteMessage) :=
  let '(current_time, track) := st in
  let delta_time := Float64.sub (ev_time event) current_time in
  delta_ticks ← _seconds_to_ticks ticks_per_beat delta_time tempo;
  msg ← Message
          match ev_type event with
          | note_on =>
              mkMessage note_on 0 (ev_note event) (ev_velocity event)
                        delta_ticks
          | note_off => mkMessage note_off 0 (ev_note event) 0 delta_ticks
          end;
  Ok (ev_time event, track ++ [msg]).

(** The note messages [notes_to_midi] appends to the track after the
    metadata: events, sort, one message with a delta time per event.
    [current_time] starts as the integer 0, which enters the first
    subtraction as the float zero. *)
Definition notes_to_midi_track (ticks_per_beat : Z) (notes : list Note64.t)
    (tempo : Z) : result Float64.Exn (list NoteMessage) :=
  let midi_events := sorted_by_time (_notes_to_midi_events notes) in
  st ← for_each (track_body ticks_per_beat tempo) (Float64.zero, [])
                midi_events;
  Ok st.2.

End with_mido.

Section with_defaults.
Context `{NoteDefaults}.

(** The body of the loop of [calculate_timing], for index [i] and element
    [note], with [adjusted_notes] as built so far. *)
Definition timing_body (sorted_notes : list Note64.t)
    (adjusted_notes : list Note64.t) (i : nat) (note : Note64.t)
    : list Note64.t :=
  let adjusted_note :=
    Note64.init (Note64.pitch note) (Note64.start_time note)
                (Note64.duration note)
                (Some (Note64.velocity note))
                (Some (Note64.staff_position note))
                (Some (Note64.accidental note)) None None in
  (* if i > 0: prev_note = adjusted_notes[-1] ...
     ([adjusted_notes] holds [i] notes there, so the lookup succeeds) *)
  let adjusted_note :=
    if bool_decide (0 < i)%nat then
      match last adjusted_notes with
      | Some prev_note =>
          if Float64.ltb (Note64.start_time adjusted_note)
                         (Note64.end_time prev_note)
          then Note64.set_start_time (Note64.end_time prev_note)
                                     adjusted_note
          else adjusted_note
      | None => adjusted_note
      end
    else adjusted_note in
  (* if i < len(sorted_notes) - 1: next_note = sorted_notes[i + 1] ... *)
  let adjusted_note :=
    if bool_decide (Z.of_nat i < Z.of_nat (length sorted_notes) - 1) then
      match sorted_notes !! (i + 1)%nat with
      | Some next_note =>
          (* adjusted_note.end_time > next_note.start_time *)
          if Float64.ltb (Note64.start_time next_note)
                         (Note64.end_time adjusted_note) then
            let max_duration :=
              Float64.sub (Note64.start_time next_note)
                          (Note64.start_time adjusted_note) in
            (* max_duration > 0 *)
            if Float64.ltb Float64.zero max_duration
            then Note64.set_duration
                   (Float64.min (Note64.duration adjusted_note) max_duration)
                   adjusted_note
            else Note64.set_duration (Float64.of_Q (1 # 10)) adjusted_note
          else adjusted_note
      | None => adjusted_note
      end
    else adjusted_note in
  adjusted_notes ++ [adjusted_note].

(** [calculate_timing] *)
Definition calculate_timing (notes : list Note64.t) : list Note64.t :=
  match notes with
  | [] => notes
  | _ =>
      let sorted_notes := sorted_by_start notes in
      foldl (fun adjusted_notes '(i, note) =>
               timing_body sorted_notes adjusted_notes i note)
            [] (enumerate sorted_notes)
  end.

(** The body of the loop of [quantize_timing].  The integer [round] returns
    is the value of a float, so its conversion for the product is exact. *)
Definition quantize_body (resolution : Float64.float)
    (quantized_notes : list Note64.t) (note : Note64.t)
    : result Float64.Exn (list Note64.t) :=
  qs ← Float64.truediv (Note64.start_time note) resolution;
  ks ← Float64.round qs;
  let quantized_start := Float64.mul (Float64.of_Z ks) resolution in
  qd ← Float64.truediv (Note64.duration note) resolution;
  kd ← Float64.round qd;
  let quantized_duration :=
    Float64.max resolution (Float64.mul (Float64.of_Z kd) resolution) in
  let quantized_note :=
    Note64.init (Note64.pitch note) quantized_start quantized_duration
                (Some (Note64.velocity note))
                (Some (Note64.staff_position note))
                (Some (Note64.accidental note)) None None in
  Ok (quantized_notes ++ [quantized_note]).

(** [quantize_timing(notes, resolution)] *)
Definition quantize_timing (notes : list Note64.t)
    (resolution : Float64.float) : result Float64.Exn (list Note64.t) :=
  for_each (quantize_body resolution) [] notes.

(** [quantize_timing(notes)], with the default [resolution=0.125]. *)
Definition quantize_timing_default (notes : list Note64.t)
    : result Float64.Exn (list Note64.t) :=
  quantize_timing notes (Float64.of_Q (125 # 1000)).

End with_defaults.

End MIDIConverter.

(** ** [OMREngine] of [omr_engine.py] *)

Module OMREngine.

(** What [cv2.contourArea] and [cv2.boundingRect] report for one contour. *)
Record Contour : Type := mkContour {
  c_area : Q;
  c_x : Z;
  c_y : Z;
  c_w : Z;
  c_h : Z;
}.

(** [min(l)] on a list of integers, [None] for the empty list. *)
Fixpoint list_min (l : list Z) : option Z :=
  match l with
  | [] => None
  | x :: l' =>
      match list_min l' with
      | None => Some x
      | Some m => Some (if bool_decide (m < x) then m else x)
      end
  end.

(** [l.index(v)]: the first index holding [v]. *)
Fixpoint list_index (v : Z) (l : list Z) : option nat :=
  match l with
  | [] => None
  | x :: l' => if bool_decide (x = v) then Some 0%nat
               else S <$> list_index v l'
  end.

(** [_calculate_staff_position].  [staff_position] is a Python number that
    becomes a float once a half is added; [int(staff_position * 2)] truncates
    it. *)
Definition _calculate_staff_position (y : Z) (staff_lines : list Z)
    : result PyExn Z :=
  if bool_decide (staff_lines = [] ∨ (length staff_lines < 5)%nat)
  then Ok 0
  else
    let distances := map (fun line => Z.abs (y - line)) staff_lines in
    match list_min distances with
    | None => Raise ValueError
    | Some m =>
        match list_index m distances with
        | None => Raise ValueError
        | Some closest_line_idx =>
            let staff_position : Q := inject_Z (Z.of_nat closest_line_idx - 2) in
            match distances !! closest_line_idx, staff_lines !! closest_line_idx with
            | Some d, Some line =>
                let staff_position :=
                  if bool_decide (5 < d) then
                    if bool_decide (y < line)
                    then (staff_position + (1 # 2))%Q
                    else (staff_position - (1 # 2))%Q
                  else staff_position in
                Ok (py_int (staff_position * 2))
            | _, _ => Raise IndexError
            end
        end
    end.

(** [np.max(l)] on a one-dimensional array of integers, [None] for the empty
    array (where numpy raises [ValueError]). *)
Fixpoint list_max (l : list Z) : option Z :=
  match l with
  | [] => None
  | x :: l' =>
      match list_max l' with
      | None => Some x
      | Some m => Some (Z.max x m)
      end
  end.

(** The test of the peak loop of [detect_staff_lines] at row [i]. *)
Definition is_peak (horizontal_projection : list Z) (threshold : Q) (i : nat)
    : bool :=
  match horizontal_projection !! i, horizontal_projection !! (i - 1)%nat,
        horizontal_projection !! (i + 1)%nat with
  | Some v, Some above, Some below =>
      Qltb threshold (inject_Z v) && bool_decide (above < v)
      && bool_decide (below < v)
  | _, _, _ => false
  end.

(** The peak loop of [detect_staff_lines]: [for i in range(1, height - 1)]. *)
Definition staff_line_peaks (horizontal_projection : list Z)
    : raises (list Z) :=
  match list_max horizontal_projection with
  | None => Raise ValueError
  | Some m =>
      let height := length horizontal_projection in
      let threshold := (inject_Z m * (3 # 10))%Q in
      Ok (foldl (fun staff_lines i =>
                   if is_peak horizontal_projection threshold i
                   then staff_lines ++ [Z.of_nat i] else staff_lines)
                [] (seq 1 (height - 2)))
  end.

(** The second loop of [detect_staff_lines]: a line is kept when nothing is
    kept yet or when it lies more than 10 rows after the last kept line. *)
Definition filter_adjacent (staff_lines : list Z) : list Z :=
  foldl (fun filtered_lines line =>
           match last filtered_lines with
           | None => filtered_lines ++ [line]
           | Some kept =>
               if bool_decide (10 < line - kept)
               then filtered_lines ++ [line] else filtered_lines
           end)
        [] staff_lines.

(** [detect_staff_lines].  [horizontal_projection] is the outcome of the
    grey-scale conversion and of [np.sum(gray < 128, axis=1)]: the number of
    dark pixels of each row.  An exception gives the empty list. *)
Definition detect_staff_lines (horizontal_projection : raises (list Z))
    : list Z :=
  match projection ← horizontal_projection; staff_line_peaks projection with
  | Ok staff_lines => filter_adjacent staff_lines
  | Raise _ => []
  end.

(** The loop of [detect_clef] over the contours of the left quarter of the
    image; the first contour that decides ends it. *)
Fixpoint detect_clef_loop (contours : list Contour) : raises string :=
  match contours with
  | [] => Ok "alto"%string
  | contour :: contours' =>
      if Qltb 500 (c_area contour) then
        aspect_ratio ← py_truediv (inject_Z (c_h contour))
                                  (inject_Z (c_w contour));
        if Qltb 2 aspect_ratio then Ok "treble"%string
        else if Qltb 1 aspect_ratio && Qltb aspect_ratio 2
        then Ok "alto"%string
        else if Qltb aspect_ratio 1 then Ok "bass"%string
        else detect_clef_loop contours'
      else detect_clef_loop contours'
  end.

(** [detect_clef].  [found] is the outcome of the thresholding of the left
    quarter and of [cv2.findContours]; an exception gives ["alto"]. *)
Definition detect_clef (found : raises (list Contour)) : string :=
  match contours ← found; detect_clef_loop contours with
  | Ok clef => clef
  | Raise _ => "alto"%string
  end.

(** [_staff_position_to_pitch] *)
Definition _staff_position_to_pitch (position : Z) (clef : string) : Z :=
  if bool_decide (clef = "alto"%string) then
    let base_pitch := 60 in
    Z.max 21 (Z.min 108 (base_pitch + position))
  else if bool_decide (clef = "treble"%string) then
    let base_pitch := 67 in
    Z.max 21 (Z.min 108 (base_pitch + position))
  else if bool_decide (clef = "bass"%string) then
    let base_pitch := 53 in
    Z.max 21 (Z.min 108 (base_pitch + position))
  else 60.

Section with_defaults.
Context `{NoteDefaults}.

(** The body of the loop of [detect_notes_basic] for one contour;
    [image_width] is [image.shape[1]]. *)
Definition detect_body (image_width : Z) (staff_lines : list Z)
    (notes : list Note) (contour : Contour) : result PyExn (list Note) :=
  let area := c_area contour in
  if Qltb 50 area && Qltb area 1000 then
    let center_y := c_y contour + c_h contour `div` 2 in
    staff_position ← _calculate_staff_position center_y staff_lines;
    let pitch := _staff_position_to_pitch staff_position "alto" in
    t ← py_truediv (inject_Z (c_x contour)) (inject_Z image_width);
    let start_time := (t * 4)%Q in
    let note :=
      Note_init pitch start_time (1 # 2) None (Some staff_position)
                None None None in
    Ok (notes ++ [note])
  else Ok notes.

(** [detect_notes_basic].  [found] is the outcome of the grey-scale
    conversion, the thresholding and [cv2.findContours]; any exception inside
    the [try] block is logged and turned into the empty list. *)
Definition detect_notes_basic (found : result PyExn (list Contour))
    (image_width : Z) (staff_lines : list Z) : list Note :=
  match contours ← found;
        for_each (detect_body image_width staff_lines) [] contours with
  | Ok notes => notes
  | Raise _ => []
  end.

End with_defaults.

End OMREngine.

(** ** Logging and the [try]/[except] blocks of the pipeline stages *)

Inductive LogLevel : Type := INFO | WARNING | ERROR.

(** One constructor per [logger] call of [image_preprocessor.py]; the
    formatted text carries [str(e)] where the constructor carries [e]. *)
Inductive LogMessage : Type :=
  | MsgPreprocessStart        (* "开始预处理图像: ..." *)
  | MsgPreprocessDone         (* "图像预处理完成" *)
  | MsgResized                (* "图像尺寸调整: ..." *)
  | MsgResizeFailed (e : PyExn)     (* "调整图像尺寸失败: ..." *)
  | MsgEnhanced               (* "图像增强完成" *)
  | MsgEnhanceFailed (e : PyExn)    (* "图像增强失败: ..." *)
  | MsgRotated                (* "图像旋转: ..." *)
  | MsgNoRotation             (* "无需旋转" *)
  | MsgRotateFailed (e : PyExn)     (* "自动旋转失败: ..." *)
  | MsgBinarized              (* "图像二值化完成" *)
  | MsgBinarizeFailed (e : PyExn)   (* "图像二值化失败: ..." *)
  | MsgCropped                (* "裁剪五线谱区域: ..." *)
  | MsgNoStaffArea            (* "未找到明显的五线谱区域，返回原图" *)
  | MsgCropFailed (e : PyExn).      (* "裁剪五线谱区域失败: ..." *)

Record LogRecord : Type := mkLog {
  log_level : LogLevel;
  log_message : LogMessage;
}.

(** A computation that appends to the log and returns or raises; the log
    written before an exception is kept. *)
Definition Logged (A : Type) : Type :=
  list LogRecord -> result PyExn A * list LogRecord.

#[global] Instance Logged_ret : MRet Logged := fun A a log => (Ok a, log).

#[global] Instance Logged_bind : MBind Logged := fun A B k m log =>
  match m log with
  | (Ok a, log') => k a log'
  | (Raise e, log') => (Raise e, log')
  end.

Definition lift {A} (r : result PyExn A) : Logged A := fun log => (r, log).

Definition logger (lvl : LogLevel) (msg : LogMessage) : Logged unit :=
  fun log => (Ok tt, log ++ [mkLog lvl msg]).

Definition raise {A} (e : PyExn) : Logged A := fun log => (Raise e, log).

(** [try: body  except Exception as e: handler(e)] *)
Definition try_except {A} (body : Logged A) (handler : PyExn -> Logged A)
    : Logged A :=
  fun log =>
    match body log with
    | (Ok a, log') => (Ok a, log')
    | (Raise e, log') => handler e log'
    end.

(** ** [ImagePreprocessor] of [image_preprocessor.py] *)

Inductive MorphOp : Type := MORPH_CLOSE | MORPH_OPEN.

(** The image library under the preprocessor: arrays and the calls into cv2,
    PIL and numpy, each of which returns or raises.  The calls carry the
    constants the source passes. *)
Class ImageLibrary : Type := {
  Image : Type;
  ImagePath : Type;
  (** [image.shape[:2]], as (height, width) *)
  shape : Image -> Z * Z;
  (** [len(image.shape) == 3] *)
  has_channels : Image -> bool;
  (** [validate_image(image_path)] and [load_image(image_path)] *)
  validate_image : ImagePath -> bool;
  load_image : ImagePath -> result PyExn Image;
  (** [cv2.resize(image, (w, h), interpolation=cv2.INTER_CUBIC)] *)
  cv_resize : Image -> Z -> Z -> result PyExn Image;
  (** [ImageEnhance.Contrast(img).enhance(f)] and [Sharpness], between the
      two colour conversions *)
  enhance_contrast : Q -> Image -> result PyExn Image;
  enhance_sharpness : Q -> Image -> result PyExn Image;
  (** [cv2.bilateralFilter(image, d, sigmaColor, sigmaSpace)] *)
  bilateralFilter : Image -> Z -> Z -> Z -> result PyExn Image;
  (** the [try] block of [auto_rotate] up to its [return]: the rotated image
      when the median line angle exceeds one degree, nothing otherwise *)
  find_rotation : Image -> result PyExn (option Image);
  (** [cv2.cvtColor(image, cv2.COLOR_BGR2GRAY)] and [image.copy()] *)
  cvtColor_gray : Image -> result PyExn Image;
  array_copy : Image -> result PyExn Image;
  (** [cv2.adaptiveThreshold(gray, maxValue, GAUSSIAN_C, THRESH_BINARY,
      blockSize, C)] *)
  adaptiveThreshold : Image -> Z -> Z -> Z -> result PyExn Image;
  (** [cv2.morphologyEx(image, op, np.ones((kh, kw), np.uint8))] *)
  morphologyEx : Image -> MorphOp -> Z * Z -> result PyExn Image;
  (** the [try] block of [crop_staff_area] up to its [return]: the cropped
      image when a staff band and its columns are found, nothing otherwise *)
  find_staff_area : Image -> result PyExn (option Image);
}.

Module ImagePreprocessor.

Section with_library.
Context `{ImageLibrary}.

(** The [try] block of [resize_image]. *)
Definition resize_image_try (image : Image) (target_width : option Z)
    : Logged Image :=
  let '(height, width) := shape image in
  let target_width :=
    match target_width with
    | None => Z.min 2048 width
    | Some w => w
    end in
  if bool_decide (width ≠ target_width) then
    r ← lift (py_truediv (inject_Z (height * target_width)) (inject_Z width));
    let target_height := py_int r in
    resized ← lift (cv_resize image target_width target_height);
    _ ← logger INFO MsgResized;
    mret resized
  else mret image.

(** [resize_image] *)
Definition resize_image (image : Image) (target_width : option Z)
    : Logged Image :=
  try_except (resize_image_try image target_width)
    (fun e => _ ← logger ERROR (MsgResizeFailed e); mret image).

(** The [try] block of [enhance_image]. *)
Definition enhance_image_try (image : Image) : Logged Image :=
  pil_image ← lift (enhance_contrast (12 # 10) image);
  pil_image ← lift (enhance_sharpness (11 # 10) pil_image);
  enhanced ← lift (bilateralFilter pil_image 9 75 75);
  _ ← logger INFO MsgEnhanced;
  mret enhanced.

(** [enhance_image] *)
Definition enhance_image (image : Image) : Logged Image :=
  try_except (enhance_image_try image)
    (fun e => _ ← logger ERROR (MsgEnhanceFailed e); mret image).

(** The [try] block of [auto_rotate]. *)
Definition auto_rotate_try (image : Image) : Logged Image :=
  found ← lift (find_rotation image);
  match found with
  | Some rotated => _ ← logger INFO MsgRotated; mret rotated
  | None => _ ← logger INFO MsgNoRotation; mret image
  end.

(** [auto_rotate] *)
Definition auto_rotate (image : Image) : Logged Image :=
  try_except (auto_rotate_try image)
    (fun e => _ ← logger ERROR (MsgRotateFailed e); mret image).

(** The [try] block of [binarize]. *)
Definition binarize_try (image : Image) : Logged Image :=
  gray ← lift (if has_channels image then cvtColor_gray image
               else array_copy image);
  binary ← lift (adaptiveThreshold gray 255 11 2);
  let kernel := (2, 2) in
  binary ← lift (morphologyEx binary MORPH_CLOSE kernel);
  binary ← lift (morphologyEx binary MORPH_OPEN kernel);
  _ ← logger INFO MsgBinarized;
  mret binary.

(** [binarize]: the handler logs and re-raises. *)
Definition binarize (image : Image) : Logged Image :=
  try_except (binarize_try image)
    (fun e => _ ← logger ERROR (MsgBinarizeFailed e); raise e).

(** The [try] block of [crop_staff_area]. *)
Definition crop_staff_area_try (image : Image) : Logged Image :=
  found ← lift (find_staff_area image);
  match found with
  | Some cropped => _ ← logger INFO MsgCropped; mret cropped
  | None => _ ← logger INFO MsgNoStaffArea; mret image
  end.

(** [crop_staff_area] *)
Definition crop_staff_area (image : Image) : Logged Image :=
  try_except (crop_staff_area_try image)
    (fun e => _ ← logger ERROR (MsgCropFailed e); mret image).

(** [preprocess] *)
Definition preprocess (image_path : ImagePath) (high_quality : bool)
    : Logged Image :=
  _ ← logger INFO MsgPreprocessStart;
  if negb (validate_image image_path) then raise ValueError
  else
    image ← lift (load_image image_path);
    image ← (if high_quality
             then resize_image image (Some 2048)
             else resize_image image (Some 1024));
    image ← enhance_image image;
    image ← auto_rotate image;
    image ← crop_staff_area image;
    _ ← logger INFO MsgPreprocessDone;
    mret image.

End with_library.

End ImagePreprocessor.

(** ** [ConversionProgress] and the pipeline of [converter.py] *)

Module Converter.

(** The six operation names passed to [next_step]. *)
Inductive Operation : Type :=
  | OpValidate      (* "验证输入文件" *)
  | OpPreprocess    (* "图像预处理" *)
  | OpRecognize     (* "音乐识别" *)
  | OpClefConvert   (* "谱号转换" *)
  | OpOutput        (* "生成输出文件" *)
  | OpDone.         (* "转换完成" *)

#[global] Instance Operation_eq_dec : EqDecision Operation :=
  ltac:(solve_decision).

(** A callable registered as progress observer: one supplied by the caller,
    or the function object [file_progress_callback] that iteration [k] of the
    loop of [convert_batch] defines. *)
Inductive Callback : Type :=
  | UserCallback (id : nat)
  | FileProgressCallback (k : nat).

#[global] Instance Callback_eq_dec : EqDecision Callback :=
  ltac:(solve_decision).

(** The dict built by [_notify_callbacks]. *)
Record ProgressData : Type := mkProgressData {
  pd_step : Z;
  pd_total : Z;
  pd_operation : option Operation;
  pd_percentage : Q;
  pd_elapsed_time : Q;
}.

(** The dict built by [file_progress_callback]. *)
Record OverallData : Type := mkOverallData {
  od_file_index : Z;
  od_total_files : Z;
  od_current_file : nat;
  od_file_progress : Q;
  od_total_progress : Q;
  od_operation : option Operation;
}.

(** One invocation of a callable, with its argument. *)
Inductive Call : Type :=
  | CallProgress (callee : Callback) (data : ProgressData)
  | CallOverall (callee : Callback) (data : OverallData).

Definition callee_of (c : Call) : Callback :=
  match c with
  | CallProgress f _ => f
  | CallOverall f _ => f
  end.

(** [ConversionProgress] *)
Record ConversionProgress : Type := mkProgress {
  total_steps : Z;
  current_step : Z;
  current_operation : option Operation;   (* [""] is [None] *)
  start_time : option Q;
  callbacks : list Callback;
}.

(** The variables of the frame of [convert_batch] that the closure
    [file_progress_callback] reads when it is called. *)
Record BatchFrame : Type := mkFrame {
  bf_i : nat;
  bf_input_file : nat;
  bf_len_input_files : nat;
  bf_progress_callback : option Callback;
}.

(** One pipeline instance together with what it can observe and affect:
    its progress tracker, the clock, the running batch frame if any, and the
    calls made to observers so far. *)
Record Pipeline : Type := mkPipeline {
  progress : ConversionProgress;
  now : Q;
  frame : option BatchFrame;
  calls : list Call;
}.

(** [ConversionProgress.__init__] *)
Definition ConversionProgress_init : ConversionProgress :=
  {| total_steps := 0; current_step := 0; current_operation := None;
     start_time := None; callbacks := [] |}.

Definition with_progress (f : ConversionProgress -> ConversionProgress)
    (p : Pipeline) : Pipeline :=
  {| progress := f (progress p); now := now p; frame := frame p;
     calls := calls p |}.

(** [set_total_steps] *)
Definition set_total_steps (total : Z) (p : Pipeline) : Pipeline :=
  with_progress (fun pr =>
    {| total_steps := total; current_step := 0;
       current_operation := current_operation pr;
       start_time := Some (now p); callbacks := callbacks pr |}) p.

(** [add_callback] *)
Definition add_callback (callback : Callback) (p : Pipeline) : Pipeline :=
  with_progress (fun pr =>
    {| total_steps := total_steps pr; current_step := current_step pr;
       current_operation := current_operation pr;
       start_time := start_time pr;
       callbacks := callbacks pr ++ [callback] |}) p.

Definition record_call (c : Call) (p : Pipeline) : Pipeline :=
  {| progress := progress p; now := now p; frame := frame p;
     calls := calls p ++ [c] |}.

(** Calling a registered callable with [progress_data].  A caller-supplied
    observer only receives the data (an exception it raises is caught and
    logged).  [file_progress_callback] reads [i], [input_file] and
    [progress_callback] from the frame of [convert_batch] at the time of the
    call and forwards [overall_data]. *)
Definition invoke (callback : Callback) (progress_data : ProgressData)
    (p : Pipeline) : Pipeline :=
  let p := record_call (CallProgress callback progress_data) p in
  match callback with
  | UserCallback _ => p
  | FileProgressCallback _ =>
      match frame p with
      | Some fr =>
          let file_progress := (pd_percentage progress_data / 100)%Q in
          let total_progress :=
            ((inject_Z (Z.of_nat (bf_i fr)) + file_progress)
             / inject_Z (Z.of_nat (bf_len_input_files fr)) * 100)%Q in
          let overall_data :=
            {| od_file_index := Z.of_nat (bf_i fr) + 1;
               od_total_files := Z.of_nat (bf_len_input_files fr);
               od_current_file := bf_input_file fr;
               od_file_progress := pd_percentage progress_data;
               od_total_progress := total_progress;
               od_operation := pd_operation progress_data |} in
          match bf_progress_callback fr with
          | Some user => record_call (CallOverall user overall_data) p
          | None => p
          end
      | None => p
      end
  end.

(** [time.time() - self.start_time if self.start_time else 0]: the test is
    false for [None] and for [0.0]. *)
Definition elapsed_if_started (p : Pipeline) : Q :=
  match start_time (progress p) with
  | Some t0 => if Qeq_bool t0 0 then 0%Q else (now p - t0)%Q
  | None => 0%Q
  end.

(** [_notify_callbacks] *)
Definition _notify_callbacks (p : Pipeline) : Pipeline :=
  let pr := progress p in
  let progress_data :=
    {| pd_step := current_step pr;
       pd_total := total_steps pr;
       pd_operation := current_operation pr;
       pd_percentage :=
         if bool_decide (0 < total_steps pr)
         then (inject_Z (current_step pr) / inject_Z (total_steps pr) * 100)%Q
         else 0%Q;
       pd_elapsed_time := elapsed_if_started p |} in
  foldl (fun p callback => invoke callback progress_data p) p (callbacks pr).

(** [next_step] *)
Definition next_step (operation : Operation) (p : Pipeline) : Pipeline :=
  _notify_callbacks
    (with_progress (fun pr =>
       {| total_steps := total_steps pr;
          current_step := current_step pr + 1;
          current_operation := Some operation;
          start_time := start_time pr; callbacks := callbacks pr |}) p).

(** What the world outside the progress tracker does during one run of
    [convert_single]: the stage whose work raises, if any, the seconds each
    stage takes, and the number of notes of a completed run. *)
Record RunScript : Type := mkScript {
  fails_in : option Operation;
  stage_seconds : Q;
  notes_count : Z;
}.

(** The result dicts of [convert_single]. *)
Record SingleResult : Type := mkSingleResult {
  success : bool;
  processing_time : Q;
  result_notes_count : option Z;
}.

Definition advance_clock (dt : Q) (p : Pipeline) : Pipeline :=
  {| progress := progress p; now := (now p + dt)%Q; frame := frame p;
     calls := calls p |}.

(** [time.time() - self.progress.start_time] of the success branch, where
    [start_time] has been set. *)
Definition elapsed (p : Pipeline) : Q :=
  match start_time (progress p) with
  | Some t0 => (now p - t0)%Q
  | None => 0%Q
  end.

(** The numbered steps of [convert_single]: [next_step(op)], then the work of
    the stage.  The first stage that raises ends the run in the [except]
    branch; nothing after [next_step("转换完成")] can raise. *)
Fixpoint run_stages (script : RunScript) (ops : list Operation) (p : Pipeline)
    : Pipeline * SingleResult :=
  match ops with
  | [] =>
      (p, {| success := true; processing_time := elapsed p;
             result_notes_count := Some (notes_count script) |})
  | op :: ops' =>
      let p' := advance_clock (stage_seconds script) (next_step op p) in
      if bool_decide (fails_in script = Some op ∧ op ≠ OpDone)
      then (p', {| success := false;
                   processing_time := elapsed_if_started p';
                   result_notes_count := None |})
      else run_stages script ops' p'
  end.

(** [convert_single].  The pipeline state reached is kept whether the run
    completes or fails. *)
Definition convert_single (script : RunScript)
    (progress_callback : option Callback) (p : Pipeline)
    : Pipeline * SingleResult :=
  let p :=
    match progress_callback with
    | Some cb => add_callback cb p
    | None => p
    end in
  let p := set_total_steps 6 p in
  run_stages script
    [OpValidate; OpPreprocess; OpRecognize; OpClefConvert; OpOutput; OpDone] p.

(** The loop of [convert_batch] over the input files found ([input_files] is
    not empty there); file [i] is described by the [i]-th script. *)
Definition batch_body (len_input_files : nat)
    (progress_callback : option Callback)
    (st : Pipeline * list SingleResult) (item : nat * RunScript)
    : Pipeline * list SingleResult :=
  let '(p, results) := st in
  let '(i, input_file) := item in
  let p :=
    {| progress := progress p; now := now p;
       frame := Some {| bf_i := i; bf_input_file := i;
                        bf_len_input_files := len_input_files;
                        bf_progress_callback := progress_callback |};
       calls := calls p |} in
  let file_progress_callback := FileProgressCallback i in
  let '(p, result) :=
    convert_single input_file (Some file_progress_callback) p in
  (p, results ++ [result]).

Definition convert_batch (input_files : list RunScript)
    (progress_callback : option Callback) (p : Pipeline)
    : Pipeline * list SingleResult :=
  foldl (batch_body (length input_files) progress_callback) (p, [])
        (MIDIConverter.enumerate input_files).

(** The dict returned by [convert_batch]. *)
Record BatchResult : Type := mkBatchResult {
  batch_success : bool;
  total_files : Z;
  successful_count : Z;
  failed_count : Z;
  results : list SingleResult;
  total_processing_time : Q;
  total_notes : Z;
}.

(** The loop of [convert_batch] with its two counters. *)
Definition batch_counting_body (len_input_files : nat)
    (progress_callback : option Callback)
    (st : Pipeline * list SingleResult * (Z * Z)) (item : nat * RunScript)
    : Pipeline * list SingleResult * (Z * Z) :=
  let '(p, results, (successful_count, failed_count)) := st in
  let '(i, input_file) := item in
  let p :=
    {| progress := progress p; now := now p;
       frame := Some {| bf_i := i; bf_input_file := i;
                        bf_len_input_files := len_input_files;
                        bf_progress_callback := progress_callback |};
       calls := calls p |} in
  let file_progress_callback := FileProgressCallback i in
  let '(p, result) :=
    convert_single input_file (Some file_progress_callback) p in
  let results := results ++ [result] in
  if success result
  then (p, results, (successful_count + 1, failed_count))
  else (p, results, (successful_count, failed_count + 1)).

(** [sum(...)] over floats and over integers: from 0, left to right. *)
Definition py_sum_Q (l : list Q) : Q := foldl Qplus 0%Q l.
Definition py_sum_Z (l : list Z) : Z := foldl Z.add 0 l.

(** [convert_batch] with the dict it returns.  An empty list of input files
    raises [ValueError] before the loop, which the [except] block turns into
    the failure dict. *)
Definition convert_batch_summary (input_files : list RunScript)
    (progress_callback : option Callback) (p : Pipeline)
    : Pipeline * BatchResult :=
  match input_files with
  | [] =>
      (p, {| batch_success := false; total_files := 0;
             successful_count := 0; failed_count := 0; results := [];
             total_processing_time := 0; total_notes := 0 |})
  | _ =>
      let '(p, results, (successful_count, failed_count)) :=
        foldl (batch_counting_body (length input_files) progress_callback)
              (p, [], (0, 0)) (MIDIConverter.enumerate input_files) in
      let total_processing_time :=
        py_sum_Q (map processing_time results) in
      let total_notes :=
        py_sum_Z (map (fun r => default 0 (result_notes_count r))
                      (List.filter success results)) in
      (p, {| batch_success := bool_decide (0 < successful_count);
             total_files := Z.of_nat (length input_files);
             successful_count := successful_count;
             failed_count := failed_count;
             results := results;
             total_processing_time := total_processing_time;
             total_notes := total_notes |})
  end.

(** [ClefConverter.__init__]: a new pipeline owns a new progress tracker. *)
Definition Pipeline_init (t : Q) : Pipeline :=
  {| progress := ConversionProgress_init; now := t; frame := None;
     calls := [] |}.

(** What stays fixed between two pipeline states, and the calls added. *)
Definition extends (p p' : Pipeline) (added : list Call) : Prop :=
  callbacks (progress p') = callbacks (progress p)
  ∧ total_steps (progress p') = total_steps (progress p)
  ∧ start_time (progress p') = start_time (progress p)
  ∧ frame p' = frame p
  ∧ calls p' = calls p ++ added.

End Converter.

(** ** [music_utils.py] *)

Module MusicUtils.

(** The [clef_offsets] display, written out with the same items in
    [calculate_staff_position] and in [convert_clef_position]. *)
Definition clef_offsets : gmap string Z :=
  py_dict [ ("treble"%string, -6); ("alto"%string, 0); ("bass"%string, 6);
            ("tenor"%string, 2); ("soprano"%string, -8);
            ("mezzo"%string, -4); ("baritone"%string, 4) ].

Definition scale_pattern : list Z := [2; 2; 1; 2; 2; 2; 1].

(** The [while remaining_semitones > 0] loop of [calculate_staff_position]
    on [position] and [remaining_semitones].  Inside the [try] block an
    exception is [None]; [position % 7] is Python's modulo, which [`mod`]
    agrees with for the positive divisor.  An iteration that does not
    [break] takes at least one semitone off, so [fuel] bounds the number of
    iterations and [remaining_semitones] iterations always suffice. *)
Fixpoint staff_loop (fuel : nat) (direction position remaining_semitones : Z)
    : option Z :=
  match fuel with
  | O => Some position
  | S fuel' =>
      if bool_decide (0 < remaining_semitones) then
        step_size ← scale_pattern !! Z.to_nat (position `mod` 7);
        if bool_decide (step_size ≤ remaining_semitones)
        then staff_loop fuel' direction (position + direction)
                        (remaining_semitones - step_size)
        else Some position
      else Some position
  end.

(** [calculate_staff_position]; the warning logged for an unknown clef is
    not part of the returned value. *)
Definition calculate_staff_position (midi_pitch : Z) (clef_type : string)
    : Z :=
  let try_block : option Z :=
    let clef_type :=
      if bool_decide (is_Some (clef_offsets !! clef_type)) then clef_type
      else "treble"%string in
    let semitones_from_c4 := midi_pitch - 60 in
    let remaining_semitones := Z.abs semitones_from_c4 in
    let direction := if bool_decide (0 ≤ semitones_from_c4) then 1 else -1 in
    position ← staff_loop (Z.to_nat remaining_semitones) direction 0
                          remaining_semitones;
    offset ← clef_offsets !! clef_type;
    let final_position := position + offset in
    Some final_position in
  match try_block with
  | Some final_position => final_position
  | None => 0
  end.

(** [convert_clef_position]; the records it logs are not part of the
    returned value. *)
Definition convert_clef_position (staff_position : Z)
    (from_clef to_clef : string) : Z :=
  let try_block : option Z :=
    if bool_decide (¬ is_Some (clef_offsets !! from_clef)
                    ∨ ¬ is_Some (clef_offsets !! to_clef))
    then Some staff_position
    else
      from_offset ← clef_offsets !! from_clef;
      let relative_position := staff_position - from_offset in
      to_offset ← clef_offsets !! to_clef;
      let new_position := relative_position + to_offset in
      Some new_position in
  match try_block with
  | Some position => position
  | None => staff_position
  end.

(** [calculate_beat_duration(tempo: int, beat_unit: int)]: any exception, a
    division by zero among them, ends in the [except] clause, which returns
    0.5. *)
Definition calculate_beat_duration (tempo beat_unit : Z) : Float64.float :=
  let try_block : result Float64.Exn Float64.float :=
    tempo_float ← Float64.of_int tempo;
    quarter_note_duration ← Float64.truediv (Float64.of_Z 60) tempo_float;
    beat_unit_float ← Float64.of_int beat_unit;
    ratio ← Float64.truediv (Float64.of_Z 4) beat_unit_float;
    let beat_duration := Float64.mul quarter_note_duration ratio in
    Ok beat_duration in
  match try_block with
  | Ok beat_duration => beat_duration
  | Raise _ => Float64.of_Q (1 # 2)
  end.

(** [quantize_timing(timing: float, beat_duration: float, subdivision: int)]
    of [music_utils.py]: any exception ends in the [except] clause, which
    returns the timing as it came.  The integer [round] returns is the value
    of a float, so its conversion for the product is exact. *)
Definition quantize_timing (timing beat_duration : Float64.float)
    (subdivision : Z) : Float64.float :=
  let try_block : result Float64.Exn Float64.float :=
    subdivision_float ← Float64.of_int subdivision;
    min_unit ← Float64.truediv beat_duration subdivision_float;
    ratio ← Float64.truediv timing min_unit;
    k ← Float64.round ratio;
    let quantized := Float64.mul (Float64.of_Z k) min_unit in
    Ok quantized in
  match try_block with
  | Ok quantized => quantized
  | Raise _ => timing
  end.

(** The keys of [TIME_SIGNATURES]. *)
Definition TIME_SIGNATURES_keys : list (Z * Z) :=
  [ (4, 4); (3, 4); (2, 4); (6, 8); (9, 8); (12, 8); (2, 2); (3, 2) ].

(** [validate_time_signature]; [&] on Python integers is [Z.land]. *)
Definition validate_time_signature (numerator denominator : Z) : bool :=
  if bool_decide (denominator ≤ 0)
     || bool_decide (Z.land denominator (denominator - 1) ≠ 0)
  then false
  else if bool_decide (numerator ≤ 0) then false
  else bool_decide ((numerator, denominator) ∈ TIME_SIGNATURES_keys) || true.

End MusicUtils.

(** ** [file_utils.py] *)

Module FileUtils.

(** A [str] as the list of its characters.  The characters
    [get_safe_filename] compares with are all ASCII, so on the bytes of a
    UTF-8 encoded name the model does what the source does on the name. *)
Definition str : Type := list ascii.

(** [s.replace(old, new)] for one-character [old] and [new]. *)
Definition replace (old new : ascii) (s : str) : str :=
  map (fun c => if bool_decide (c = old) then new else c) s.

(** [s.lstrip(chars)] and [s.rstrip(chars)]: leading (trailing) characters
    that occur in [chars] are removed. *)
Fixpoint lstrip (chars : list ascii) (s : str) : str :=
  match s with
  | [] => []
  | c :: s' => if bool_decide (c ∈ chars) then lstrip chars s' else s
  end.

Fixpoint rstrip (chars : list ascii) (s : str) : str :=
  match s with
  | [] => []
  | c :: s' =>
      match rstrip chars s' with
      | [] => if bool_decide (c ∈ chars) then [] else [c]
      | kept => c :: kept
      end
  end.

(** [s.strip(chars)] *)
Definition strip (chars : list ascii) (s : str) : str :=
  rstrip chars (lstrip chars s).

(** The characters of the literal [unsafe_chars]: less-than, greater-than,
    colon, double quote (code 34), slash, backslash, bar, question mark and
    star. *)
Definition unsafe_chars : list ascii :=
  [ "<"; ">"; ":"; "034"; "/"; "\"; "|"; "?"; "*" ]%char.

Definition get_safe_filename (filename : str) : str :=
  let safe_filename :=
    foldl (fun safe_filename char => replace char "_"%char safe_filename)
          filename unsafe_chars in
  let safe_filename := strip [" "; "."]%char safe_filename in
  if bool_decide (safe_filename = [])
  then String.list_ascii_of_string "untitled"
  else safe_filename.

End FileUtils.

(** ** [ScoreRenderer] of [score_renderer.py] *)

Module ScoreRenderer.

(** The attributes of a renderer that the drawing code reads. *)
Record ScoreRenderer : Type := {
  width : Z;
  height : Z;
  dpi : Z;
  staff_line_spacing : Z;
  staff_height : Z;
}.

(** [ScoreRenderer.__init__], without the probing for music21 and
    LilyPond. *)
Definition ScoreRenderer_init (width height dpi : Z) : ScoreRenderer :=
  let staff_line_spacing := 20 in
  {| width := width; height := height; dpi := dpi;
     staff_line_spacing := staff_line_spacing;
     staff_height := staff_line_spacing * 4 |}.

(** A call [draw.line([(x1, y1), (x2, y2)], fill=..., width=...)]. *)
Record DrawCall : Type := Line {
  line_from : Q * Z;
  line_to : Q * Z;
  line_fill : string;
  line_width : Z;
}.

(** [_calculate_note_y] *)
Definition _calculate_note_y (self : ScoreRenderer) (note : Note)
    (staff_y : Z) (clef_type : string) : Z :=
  let '(base_pitch, base_y) :=
    if bool_decide (clef_type = "treble"%string)
    then (64, staff_y + staff_height self)
    else if bool_decide (clef_type = "alto"%string)
    then (60, staff_y + staff_line_spacing self * 2)
    else if bool_decide (clef_type = "bass"%string)
    then (43, staff_y + staff_height self)
    else (60, staff_y + staff_line_spacing self * 2) in
  let semitone_offset := (inject_Z (staff_line_spacing self) / 4)%Q in
  let pitch_diff := pitch note - base_pitch in
  let y := (inject_Z base_y - inject_Z pitch_diff * semitone_offset)%Q in
  py_int y.

(** The ledger line [_draw_ledger_lines] draws through [line_y]. *)
Definition ledger_line (x : Q) (line_y : Z) : DrawCall :=
  let line_length := 20 in
  Line ((x - inject_Z (line_length `div` 2))%Q, line_y)
       ((x + inject_Z (line_length `div` 2))%Q, line_y) "black" 2.

(** [_draw_ledger_lines], on the list of the calls made on [draw] so far;
    [range(1, n + 1)] is [seqZ 1 n]. *)
Definition _draw_ledger_lines (self : ScoreRenderer) (draw : list DrawCall)
    (x : Q) (y staff_y : Z) : raises (list DrawCall) :=
  if bool_decide (staff_y + staff_height self < y) then
    quotient ← py_truediv (inject_Z (y - (staff_y + staff_height self)))
                          (inject_Z (staff_line_spacing self));
    let lines_below := py_int quotient + 1 in
    Ok (foldl (fun draw i =>
                 let line_y :=
                   staff_y + staff_height self + i * staff_line_spacing self in
                 if bool_decide (Z.abs (y - line_y)
                                 < staff_line_spacing self `div` 2)
                 then draw ++ [ledger_line x line_y]
                 else draw)
              draw (seqZ 1 lines_below))
  else if bool_decide (y < staff_y) then
    quotient ← py_truediv (inject_Z (staff_y - y))
                          (inject_Z (staff_line_spacing self));
    let lines_above := py_int quotient + 1 in
    Ok (foldl (fun draw i =>
                 let line_y := staff_y - i * staff_line_spacing self in
                 if bool_decide (Z.abs (y - line_y)
                                 < staff_line_spacing self `div` 2)
                 then draw ++ [ledger_line x line_y]
                 else draw)
              draw (seqZ 1 lines_above))
  else Ok draw.

End ScoreRenderer.

(** * Definitions used to state the properties *)

(** One choice of constructor defaults, for evaluating the code on concrete
    notes. *)
Definition sample_defaults : NoteDefaults :=
  {| default_velocity := 64; default_staff_position := 0;
     default_accidental := None; default_tie := false; default_dot := false |}.

Definition simple_note (st dur : Q) : Note :=
  {| pitch := 60; start_time := st; duration := dur; velocity := 64;
     staff_position := 0; accidental := None; tie := false; dot := false |}.

(** Two notes that agree on every field but [staff_position]. *)
Definition same_except_staff_position (n n' : Note) : Prop :=
  pitch n' = pitch n ∧ start_time n' = start_time n ∧
  duration n' = duration n ∧ velocity n' = velocity n ∧
  accidental n' = accidental n ∧ tie n' = tie n ∧ dot n' = dot n.

(** A note as a caller of the converters may hold it, for the concrete
    evaluations below. *)
Definition sample_note (p : Z) (st dur : Q) (pos : Z) (ti dt : bool) : Note :=
  {| pitch := p; start_time := st; duration := dur; velocity := 80;
     staff_position := pos; accidental := Some "#"%string;
     tie := ti; dot := dt |}.

(** [k] is the integer nearest to [q], a value half-way between two integers
    going to the even one. *)
Definition nearest_integer_ties_even (q : Q) (k : Z) : Prop :=
  (- (1 # 2) <= q - inject_Z k <= 1 # 2)%Q
  ∧ ((q - inject_Z k == 1 # 2)%Q ∨ (q - inject_Z k == - (1 # 2))%Q →
     Z.even k = true).

(** Rounding half away from zero, in the words of the specification. *)
Definition round_half_away_from_zero (q : Q) : Z :=
  if Qle_bool 0 q then Qfloor (q + (1 # 2)) else Qceiling (q - (1 # 2)).

(** An image library for concrete runs: an image is the list of the
    operations applied to it; the thresholding call raises when
    [threshold_raises] is set. *)
Definition trace_library (threshold_raises : bool) : ImageLibrary :=
  {| Image := list string;
     ImagePath := unit;
     shape := fun _ => (600, 800);
     has_channels := fun _ => true;
     validate_image := fun _ => true;
     load_image := fun _ => Ok [];
     cv_resize := fun img _ _ => Ok (img ++ ["resize"%string]);
     enhance_contrast := fun _ img => Ok (img ++ ["contrast"%string]);
     enhance_sharpness := fun _ img => Ok (img ++ ["sharpness"%string]);
     bilateralFilter := fun img _ _ _ => Ok (img ++ ["bilateral"%string]);
     find_rotation := fun img => Ok (Some (img ++ ["rotate"%string]));
     cvtColor_gray := fun img => Ok (img ++ ["gray"%string]);
     array_copy := fun img => Ok img;
     adaptiveThreshold := fun img _ _ _ =>
       if threshold_raises then Raise (LibraryError 1)
       else Ok (img ++ ["threshold"%string]);
     morphologyEx := fun img op _ =>
       Ok (img ++ [match op with
                   | MORPH_CLOSE => "close"%string
                   | MORPH_OPEN => "open"%string
                   end]);
     find_staff_area := fun img => Ok (Some (img ++ ["crop"%string])) |}.

(** What [validate_conversion] compares on a pair of notes: the pitches,
    and whether the float difference of the two times exceeds the float
    0.001 in absolute value. *)
Definition conversion_agrees (o c : Note) : Prop :=
  pitch o = pitch c
  ∧ ClefConverter.exceeds_tolerance (start_time o) (start_time c) = false
  ∧ ClefConverter.exceeds_tolerance (duration o) (duration c) = false.

(** Two detected staff lines more than ten rows apart. *)
Definition line_gap (a b : Z) : Prop := a + 10 < b.

(** The half-step a centroid at [y] takes relative to the staff line at
    [line]: none within 5 rows, up when above the line, down otherwise. *)
Definition line_offset (y line : Z) : Z :=
  if bool_decide (Z.abs (y - line) ≤ 5) then 0
  else if bool_decide (y < line) then 1 else -1.

(** The contours [detect_notes_basic] turns into notes. *)
Definition note_sized (c : OMREngine.Contour) : bool :=
  Qltb 50 (OMREngine.c_area c) && Qltb (OMREngine.c_area c) 1000.

(** The staff position of a centroid, as an integer. *)
Definition staff_position_of (y : Z) (staff_lines : list Z) : Z :=
  match OMREngine._calculate_staff_position y staff_lines with
  | Ok position => position
  | Raise _ => 0
  end.

(** The note made from one contour. *)
Definition detected_note `{NoteDefaults} (image_width : Z)
    (staff_lines : list Z) (c : OMREngine.Contour) : Note :=
  let position :=
    staff_position_of (OMREngine.c_y c + OMREngine.c_h c `div` 2)
                      staff_lines in
  Note_init (Z.max 21 (Z.min 108 (60 + position)))
            (inject_Z (OMREngine.c_x c) / inject_Z image_width * 4)%Q
            (1 # 2) None (Some position) None None None.

(** Row [i] of the projection is a staff-line candidate: it holds more than
    30% of the largest row count and strictly more than the rows just above
    and below it. *)
Definition strict_peak (horizontal_projection : list Z) (i : nat) : Prop :=
  ∃ v above below m,
    horizontal_projection !! i = Some v
    ∧ horizontal_projection !! (i - 1)%nat = Some above
    ∧ horizontal_projection !! (i + 1)%nat = Some below
    ∧ OMREngine.list_max horizontal_projection = Some m
    ∧ (inject_Z m * (3 # 10) < inject_Z v)%Q
    ∧ above < v ∧ below < v.

(** The number of stages a run of [convert_single] enters. *)
Definition stages_started (script : Converter.RunScript) : nat :=
  match Converter.fails_in script with
  | Some Converter.OpValidate => 1
  | Some Converter.OpPreprocess => 2
  | Some Converter.OpRecognize => 3
  | Some Converter.OpClefConvert => 4
  | Some Converter.OpOutput => 5
  | Some Converter.OpDone | None => 6
  end.

(** What one progress event of a six-step run must carry. *)
Definition well_formed_event (d : Converter.ProgressData) : Prop :=
  Converter.pd_total d = 6
  ∧ (Converter.pd_percentage d == inject_Z (Converter.pd_step d) * 100 / 6)%Q
  ∧ ((Converter.pd_percentage d == 100)%Q ↔ Converter.pd_step d = 6).

(** The number of stages of [ops] that [run_stages] enters. *)
Fixpoint stages_entered (script : Converter.RunScript)
    (ops : list Converter.Operation) : nat :=
  match ops with
  | [] => 0
  | op :: ops' =>
      if bool_decide (Converter.fails_in script = Some op
                      ∧ op ≠ Converter.OpDone)
      then 1 else S (stages_entered script ops')
  end.

(** A run described by [script] fails in no stage. *)
Definition completes (script : Converter.RunScript) : bool :=
  bool_decide (Converter.fails_in script = None
               ∨ Converter.fails_in script = Some Converter.OpDone).

(** Scale degrees covered by [r] semitones within one octave, going up from a
    C (steps 2 2 1 2 2 2 1) and going down from a C as the loop of
    [calculate_staff_position] walks it (steps 2 1 2 2 2 1 2). *)
Definition degrees_up (r : Z) : Z :=
  default 0 ([0; 0; 1; 1; 2; 3; 3; 4; 4; 5; 5; 6] !! Z.to_nat r).

Definition degrees_down (r : Z) : Z :=
  default 0 ([0; 0; 1; 2; 2; 3; 3; 4; 4; 5; 6; 6] !! Z.to_nat r).

(** Positions between a pitch and middle C: seven per octave plus the
    degrees of the rest. *)
Definition degrees_from_c4 (midi_pitch : Z) : Z :=
  if bool_decide (60 ≤ midi_pitch)
  then 7 * ((midi_pitch - 60) `div` 12)
       + degrees_up ((midi_pitch - 60) `mod` 12)
  else - (7 * ((60 - midi_pitch) `div` 12)
          + degrees_down ((60 - midi_pitch) `mod` 12)).

(** The offset of a clef, an unknown clef counting as treble. *)
Definition clef_offset_or_treble (clef_type : string) : Z :=
  default (-6) (MusicUtils.clef_offsets !! clef_type).

(** A file name that [get_safe_filename] has nothing to do on. *)
Definition safe_name (name : FileUtils.str) : Prop :=
  name ≠ []
  ∧ Forall (fun c => c ∉ FileUtils.unsafe_chars) name
  ∧ (∀ c, head name = Some c → c ∉ [" "; "."]%char)
  ∧ (∀ c, last name = Some c → c ∉ [" "; "."]%char).

(** ** Float times *)

(** A note with float times made from rational ones, with the other fields
    of [simple_note]; the float of a rational is the float its decimal
    literal denotes. *)
Definition simple_note64 (st dur : Q) : Note64.t :=
  {| Note64.pitch := 60; Note64.start_time := Float64.of_Q st;
     Note64.duration := Float64.of_Q dur; Note64.velocity := 64;
     Note64.staff_position := 0; Note64.accidental := None;
     Note64.tie := false; Note64.dot := false |}.

(** Ascending order of start times. *)
Definition start_le64 (a b : Note64.t) : Prop :=
  Float64.leb (Note64.start_time a) (Note64.start_time b) = true.

(** The overlap rule in the words of the specification, on floats.  [prev]
    is the previous, already adjusted note; [next] is the next note of the
    sorted input; the end of a note is the float sum of its start and its
    duration, the gap the float difference of the two starts. *)
Definition pushed_start64 (prev : option Note64.t) (n : Note64.t)
    : Float64.float :=
  match prev with
  | Some p =>
      if Float64.ltb (Note64.start_time n) (Note64.end_time p)
      then Note64.end_time p else Note64.start_time n
  | None => Note64.start_time n
  end.

Definition fitted_duration64 (st : Float64.float) (n : Note64.t)
    (next : option Note64.t) : Float64.float :=
  match next with
  | Some nx =>
      let gap := Float64.sub (Note64.start_time nx) st in
      if Float64.ltb (Note64.start_time nx)
                     (Float64.add st (Note64.duration n))
      then (if Float64.ltb Float64.zero gap
            then Float64.min (Note64.duration n) gap
            else Float64.of_Q (1 # 10))
      else Note64.duration n
  | None => Note64.duration n
  end.

(** The fields the timing functions pass on from the note [n] they adjust to
    the note [a] they build ([tie] and [dot] are left to the constructor). *)
Definition timing_copy64 (n a : Note64.t) : Prop :=
  Note64.pitch a = Note64.pitch n
  ∧ Note64.staff_position a = Note64.staff_position n
  ∧ Note64.velocity a = Note64.velocity n
  ∧ Note64.accidental a = Note64.accidental n.

(** A note whose [tie] and [dot] both differ from what the constructor of
    [Note] fills in when they are left out. *)
Definition flagged64 `{NoteDefaults} (n : Note64.t) : Note64.t :=
  {| Note64.pitch := Note64.pitch n;
     Note64.start_time := Note64.start_time n;
     Note64.duration := Note64.duration n;
     Note64.velocity := Note64.velocity n;
     Note64.staff_position := Note64.staff_position n;
     Note64.accidental := Note64.accidental n;
     Note64.tie := negb default_tie; Note64.dot := negb default_dot |}.

(** What a note built by the timing functions from the note [n] carries
    besides its times. *)
Definition rebuilt_from `{NoteDefaults} (n a : Note64.t) : Prop :=
  timing_copy64 n a
  ∧ Note64.tie a = default_tie ∧ Note64.dot a = default_dot.

(** The state of [adjusted_notes] after [m] turns of the loop. *)
Definition adjusted_upto64 `{NoteDefaults} (s : list Note64.t) (m : nat)
    : list Note64.t :=
  foldl (fun adjusted_notes '(i, note) =>
           MIDIConverter.timing_body s adjusted_notes i note)
        [] (take m (MIDIConverter.enumerate s)).

(** The overlap rule for one output note [a], made from the sorted note [n]
    between the adjusted note [prev] before it and the sorted note [next]
    after it. *)
Definition overlap_rule64 (prev : option Note64.t) (n : Note64.t)
    (next : option Note64.t) (a : Note64.t) : Prop :=
  Note64.start_time a = pushed_start64 prev n
  ∧ Note64.duration a = fitted_duration64 (Note64.start_time a) n next
  ∧ timing_copy64 n a.

(** The adjusted note [a] fits before the next note: where the end of the
    note exceeded the start of the next one and the gap between the two
    starts is positive, the new duration is at most the gap and at most the
    duration the note had. *)
Definition fits_gap (n : Note64.t) (next : option Note64.t) (a : Note64.t)
    : Prop :=
  ∀ nx, next = Some nx →
    let gap := Float64.sub (Note64.start_time nx) (Note64.start_time a) in
    Float64.ltb (Note64.start_time nx)
                (Float64.add (Note64.start_time a) (Note64.duration n))
    = true →
    Float64.ltb Float64.zero gap = true →
    Float64.leb (Note64.duration a) gap = true
    ∧ Float64.leb (Note64.duration a) (Note64.duration n) = true.

(** The notes A and B of the example, with arbitrary other fields. *)
Definition at_time64 (st dur : Q) (n : Note64.t) : Note64.t :=
  Note64.set_duration (Float64.of_Q dur)
    (Note64.set_start_time (Float64.of_Q st) n).

(** The time [t] snapped to the grid of [resolution]: the float product of
    [resolution] and the integer [k] that [round] makes of the float
    quotient [t / resolution]. *)
Definition snapped (resolution t snap : Float64.float) : Prop :=
  ∃ k : Z,
    Float64.is_finite (Float64.div t resolution) = true
    ∧ nearest_integer_ties_even
        (Float64.value (Float64.div t resolution)) k
    ∧ snap = Float64.mul (Float64.of_Z k) resolution.

(** What [quantize_timing] makes of one note at a given resolution. *)
Definition quantized64 (resolution : Float64.float) (n a : Note64.t)
    : Prop :=
  snapped resolution (Note64.start_time n) (Note64.start_time a)
  ∧ (∃ d, snapped resolution (Note64.duration n) d
          ∧ Note64.duration a = Float64.max resolution d)
  ∧ timing_copy64 n a.

(** Both quotients of a note by the resolution are finite floats. *)
Definition finite_quotients (resolution : Float64.float) (n : Note64.t)
    : Prop :=
  Float64.is_finite (Float64.div (Note64.start_time n) resolution) = true
  ∧ Float64.is_finite (Float64.div (Note64.duration n) resolution) = true.

(** Ascending order of event times. *)
Definition time_le64 (a b : MIDIConverter.MidiEvent) : Prop :=
  Float64.leb (MIDIConverter.ev_time a) (MIDIConverter.ev_time b) = true.

(** The time of the event before the [k]-th one: the float zero before the
    first. *)
Definition previous_time (events : list MIDIConverter.MidiEvent) (k : nat)
    : Float64.float :=
  match k with
  | O => Float64.zero
  | S j => default Float64.zero (MIDIConverter.ev_time <$> events !! j)
  end.

(** A message made from an event whose predecessor was at [current_time]. *)
Definition message_of_event (ticks_per_beat tempo : Z)
    (current_time : Float64.float) (event : MIDIConverter.MidiEvent)
    (m : MIDIConverter.NoteMessage) : Prop :=
  MIDIConverter.msg_type m = MIDIConverter.ev_type event
  ∧ MIDIConverter.msg_note m = MIDIConverter.ev_note event
  ∧ MIDIConverter.msg_channel m = 0
  ∧ MIDIConverter.msg_velocity m
    = match MIDIConverter.ev_type event with
      | MIDIConverter.note_on => MIDIConverter.ev_velocity event
      | MIDIConverter.note_off => 0
      end
  ∧ MIDIConverter._seconds_to_ticks ticks_per_beat
      (Float64.sub (MIDIConverter.ev_time event) current_time) tempo
    = Ok (MIDIConverter.msg_time m)
  ∧ 0 ≤ MIDIConverter.msg_time m.

(** A float [x] for which [x > 0] is false: a zero, a negative number, minus
    infinity or a NaN. *)
Definition not_positive (x : Float64.float) : Prop :=
  match x with
  | S754_zero _ => True
  | S754_finite s _ _ => s = true
  | S754_infinity s => s = true
  | S754_nan => True
  end.

(** A zero or a positive number. *)
Definition not_negative_finite (x : Float64.float) : Prop :=
  match x with
  | S754_zero _ => True
  | S754_finite s _ _ => s = false
  | S754_infinity _ => False
  | S754_nan => False
  end.

(** The float product [seconds * tempo / 60.0 * ticks_per_beat] that
    [_seconds_to_ticks] truncates, for a tempo and a resolution already
    converted to floats. *)
Definition float_ticks (ticks_per_beat seconds tempo : Float64.float)
    : Float64.float :=
  Float64.mul
    (Float64.div (Float64.mul seconds tempo) (Float64.of_Z 60))
    ticks_per_beat.

(** Neither the start nor the end of the note is a NaN. *)
Definition no_nan_times (n : Note64.t) : Prop :=
  Float64.is_nan (Note64.start_time n) = false
  ∧ Float64.is_nan (Note64.end_time n) = false.

(** * Properties *)

(** ** Clef transposition *)

Section clef_tables.
Import ClefConverter.

Lemma alto_to_treble_lookup (p : Z) :
  alto_to_treble_map !! p =
  if bool_decide (-10 ≤ p ≤ 16) then Some (p - 6) else None.
Proof.
  unfold alto_to_treble_map, py_dict, alto_to_treble_items; cbn [foldl fst snd].
  repeat (rewrite lookup_insert; case_decide;
          [subst p; reflexivity|]).
  rewrite lookup_empty, bool_decide_eq_false_2 by lia. reflexivity.
Qed.

Lemma treble_to_alto_lookup (q : Z) :
  treble_to_alto_map !! q =
  if bool_decide (-16 ≤ q ≤ 10) then Some (q + 6) else None.
Proof.
  unfold treble_to_alto_map, py_dict, py_items, reverse_source_items;
    cbn [map foldl fst snd].
  repeat (rewrite lookup_insert; case_decide;
          [subst q; reflexivity|]).
  rewrite lookup_empty, bool_decide_eq_false_2 by lia. reflexivity.
Qed.

Lemma position_map_alto_to_treble :
  CLEF_POSITION_MAP !! "alto_to_treble"%string = Some alto_to_treble_map.
Proof.
  unfold CLEF_POSITION_MAP, py_dict; cbn [foldl fst snd].
  rewrite lookup_insert_ne by discriminate. apply lookup_insert_eq.
Qed.

Lemma position_map_treble_to_alto :
  CLEF_POSITION_MAP !! "treble_to_alto"%string = Some treble_to_alto_map.
Proof.
  unfold CLEF_POSITION_MAP, py_dict; cbn [foldl fst snd].
  apply lookup_insert_eq.
Qed.

(** On both supported directions the table and the offset agree, so the
    conversion is a shift by six positions everywhere. *)
Lemma convert_alto_treble_shift (p : Z) :
  _convert_staff_position p "alto" "treble" = p - 6.
Proof.
  unfold _convert_staff_position.
  change ("alto" +:+ "_to_" +:+ "treble")%string with "alto_to_treble"%string.
  rewrite position_map_alto_to_treble, alto_to_treble_lookup.
  case_bool_decide; [reflexivity|].
  rewrite bool_decide_eq_true_2 by (split; reflexivity).
  unfold ALTO_TO_TREBLE_OFFSET. lia.
Qed.

Lemma convert_treble_alto_shift (q : Z) :
  _convert_staff_position q "treble" "alto" = q + 6.
Proof.
  unfold _convert_staff_position.
  change ("treble" +:+ "_to_" +:+ "alto")%string with "treble_to_alto"%string.
  rewrite position_map_treble_to_alto, treble_to_alto_lookup.
  case_bool_decide; [reflexivity|].
  rewrite bool_decide_eq_false_2 by (intros [? _]; discriminate).
  rewrite bool_decide_eq_true_2 by (split; reflexivity).
  unfold ALTO_TO_TREBLE_OFFSET. lia.
Qed.

Context `{NoteDefaults}.

(** The accumulating loops are maps. *)
Lemma foldl_snoc_map {A B} (f : A → B) (l : list A) (acc : list B) :
  foldl (fun out x => out ++ [f x]) acc l = acc ++ map f l.
Proof.
  revert acc; induction l as [|x l IH]; intros acc; cbn.
  - by rewrite app_nil_r.
  - rewrite IH, <- app_assoc. reflexivity.
Qed.

Lemma convert_alto_to_treble_map (notes : list Note) :
  convert_alto_to_treble notes = map (convert_note "alto" "treble") notes.
Proof. unfold convert_alto_to_treble. by rewrite foldl_snoc_map. Qed.

Lemma convert_treble_to_alto_map (notes : list Note) :
  convert_treble_to_alto notes = map (convert_note "treble" "alto") notes.
Proof. unfold convert_treble_to_alto. by rewrite foldl_snoc_map. Qed.

Lemma staff_position_convert_note (a b : string) (n : Note) :
  staff_position (convert_note a b n) =
  _convert_staff_position (staff_position n) a b.
Proof. reflexivity. Qed.

End clef_tables.

(** C1. Round trip of clef transposition: on a list of notes whose staff
    positions lie in the alto table range [-10, 16], converting alto to treble
    and then treble to alto gives back every staff position; and the
    treble-to-alto table is the exact inverse of the alto-to-treble table,
    whose keys are that range. *)
Theorem clef_round_trip `{NoteDefaults} (notes : list Note) :
  Forall (fun n => -10 ≤ staff_position n ≤ 16) notes →
  map staff_position
      (ClefConverter.convert_treble_to_alto
         (ClefConverter.convert_alto_to_treble notes))
  = map staff_position notes
  ∧ (∀ p, is_Some (ClefConverter.alto_to_treble_map !! p) ↔ -10 ≤ p ≤ 16)
  ∧ (∀ p q, ClefConverter.alto_to_treble_map !! p = Some q
            ↔ ClefConverter.treble_to_alto_map !! q = Some p).
Proof.
  intros Hrange. split; [|split].
  - rewrite convert_alto_to_treble_map, convert_treble_to_alto_map.
    induction Hrange as [|n l Hn _ IH]; [reflexivity|].
    cbn [map]. f_equal; [|exact IH].
    rewrite !staff_position_convert_note.
    rewrite convert_alto_treble_shift, convert_treble_alto_shift. lia.
  - intros p. rewrite alto_to_treble_lookup.
    case_bool_decide; split; intros Hp; try done.
  - intros p q. rewrite alto_to_treble_lookup, treble_to_alto_lookup.
    repeat case_bool_decide; split; intros Hp; simplify_eq; try done;
      try (f_equal; lia); exfalso; lia.
Qed.

Lemma clef_round_trip_witness :
  map staff_position
      (@ClefConverter.convert_treble_to_alto sample_defaults
         (@ClefConverter.convert_alto_to_treble sample_defaults
            [sample_note 60 0 1 4 true false; sample_note 72 1 1 16 false true;
             sample_note 41 2 1 (-10) false false]))
  = [4; 16; -10].
Proof.
  refine (proj1 (@clef_round_trip sample_defaults
            [sample_note 60 0 1 4 true false; sample_note 72 1 1 16 false true;
             sample_note 41 2 1 (-10) false false] _)).
  repeat constructor; cbn; lia.
Defined.

(** C2. Clef transposition changes only [staff_position]: in both directions
    the output has one note per input note, in the same order, and each
    output note has the pitch, start time, duration, velocity, accidental, tie
    and dot of the input note it comes from. *)
Theorem clef_conversion_frame `{NoteDefaults} (notes : list Note) :
  Forall2 same_except_staff_position notes
          (ClefConverter.convert_alto_to_treble notes)
  ∧ Forall2 same_except_staff_position notes
            (ClefConverter.convert_treble_to_alto notes).
Proof.
  rewrite convert_alto_to_treble_map, convert_treble_to_alto_map.
  split; induction notes as [|n l IH]; cbn [map]; constructor; try exact IH;
    repeat split.
Qed.

(** C3. Table spot checks and offset fallback: alto 4, 8 and 0 become treble
    -2, 2 and -6; a position outside the alto table range is shifted by -6
    from alto to treble (alto 20 becomes treble 14), and a position outside
    the treble table range is shifted by +6 from treble to alto. *)
Theorem staff_position_table_and_fallback (p : Z) :
  ClefConverter._convert_staff_position 4 "alto" "treble" = -2
  ∧ ClefConverter._convert_staff_position 8 "alto" "treble" = 2
  ∧ ClefConverter._convert_staff_position 0 "alto" "treble" = -6
  ∧ ClefConverter._convert_staff_position 20 "alto" "treble" = 14
  ∧ (¬ (-10 ≤ p ≤ 16) →
     ClefConverter._convert_staff_position p "alto" "treble" = p + -6)
  ∧ (¬ (-16 ≤ p ≤ 10) →
     ClefConverter._convert_staff_position p "treble" "alto" = p + 6).
Proof.
  repeat split; try (vm_compute; reflexivity).
  - intros _. rewrite convert_alto_treble_shift. lia.
  - intros _. apply convert_treble_alto_shift.
Qed.

Lemma staff_position_table_and_fallback_witness :
  ClefConverter._convert_staff_position 20 "alto" "treble" = 20 + -6
  ∧ ClefConverter._convert_staff_position 20 "treble" "alto" = 20 + 6.
Proof.
  pose proof (staff_position_table_and_fallback 20) as (_ & _ & _ & _ & Ha & Hb).
  split; [apply Ha | apply Hb]; lia.
Defined.

(** ** Rounding to the nearest integer *)

Lemma py_round_nearest (q : Q) : nearest_integer_ties_even q (py_round q).
Proof.
  unfold nearest_integer_ties_even, py_round.
  pose proof (Qfloor_le q) as Hlo. pose proof (Qlt_floor q) as Hhi.
  rewrite inject_Z_plus in Hhi. change (inject_Z 1) with 1%Q in Hhi.
  set (f := Qfloor q) in *.
  destruct (q - inject_Z f ?= 1 # 2)%Q eqn:Hc.
  - apply Qeq_alt in Hc.
    destruct (Z.even f) eqn:Hev.
    + split; [lra|]. done.
    + rewrite inject_Z_plus. change (inject_Z 1) with 1%Q.
      split; [lra|]. intros _.
      rewrite Z.add_1_r, Z.even_succ, <- Z.negb_even, Hev. reflexivity.
  - apply Qlt_alt in Hc. split; [lra|]. intros [Ht|Ht]; lra.
  - apply Qgt_alt in Hc. rewrite inject_Z_plus. change (inject_Z 1) with 1%Q.
    split; [lra|]. intros [Ht|Ht]; lra.
Qed.

(** ** Comparison and division of rationals *)

Lemma Qltb_lt (a b : Q) : Qltb a b = true ↔ (a < b)%Q.
Proof.
  unfold Qltb. rewrite negb_true_iff, <- not_true_iff_false, Qle_bool_iff.
  split; [apply Qnot_le_lt | apply Qlt_not_le].
Qed.

Lemma Qltb_ge (a b : Q) : Qltb a b = false ↔ (b <= a)%Q.
Proof.
  unfold Qltb. rewrite negb_false_iff. apply Qle_bool_iff.
Qed.

Lemma py_truediv_zero (a b : Q) :
  (b == 0)%Q → py_truediv a b = Raise ZeroDivisionError.
Proof.
  intros Hb. unfold py_truediv.
  by rewrite (proj2 (Qeq_bool_iff b 0) Hb).
Qed.

Lemma py_truediv_nonzero (a b : Q) :
  ¬ (b == 0)%Q → py_truediv a b = Ok (a / b)%Q.
Proof.
  intros Hb. unfold py_truediv.
  destruct (Qeq_bool b 0) eqn:Heq; [|reflexivity].
  by apply Qeq_bool_iff in Heq.
Qed.

Lemma py_truediv_ok (a b : Q) : ¬ (b == 0)%Q → py_truediv a b = Ok (a / b)%Q.
Proof. apply py_truediv_nonzero. Qed.

(** ** Floats *)

Section floats.
Import Float64.

Lemma SFcompare_antisym (x y : float) :
  SFcompare y x = CompOpp <$> SFcompare x y.
Proof.
  destruct x as [sx|sx| |sx mx ex], y as [sy|sy| |sy my ey]; cbn;
    try reflexivity;
    try (destruct sx, sy; reflexivity);
    try (destruct sx; reflexivity); try (destruct sy; reflexivity).
  destruct sx, sy; cbn; try reflexivity;
    rewrite (Z.compare_antisym ex ey); destruct (ex ?= ey); cbn;
    try reflexivity;
    rewrite (Pos.compare_cont_antisym mx my Eq); reflexivity.
Qed.

Lemma SFcompare_is_Some (x y : float) :
  is_nan x = false → is_nan y = false → is_Some (SFcompare x y).
Proof.
  destruct x as [sx|sx| |sx mx ex], y as [sy|sy| |sy my ey]; cbn;
    try discriminate; intros _ _; eauto.
Qed.

Lemma ltb_leb (x y : float) : ltb x y = true → leb x y = true.
Proof.
  unfold ltb, leb, SFltb, SFleb.
  by destruct (SFcompare x y) as [[]|].
Qed.

(** Without a NaN, [x] is at most [y] when [y] is not below [x]. *)
Lemma not_ltb_leb (x y : float) :
  is_nan x = false → is_nan y = false → ltb y x = false → leb x y = true.
Proof.
  intros Hx Hy. unfold ltb, leb, SFltb, SFleb.
  rewrite (SFcompare_antisym y x).
  destruct (SFcompare_is_Some y x Hy Hx) as [c ->]. by destruct c.
Qed.

Lemma leb_refl (x : float) : is_nan x = false → leb x x = true.
Proof.
  intros Hx. apply not_ltb_leb; try done.
  unfold ltb, SFltb.
  pose proof (SFcompare_antisym x x) as Hc.
  destruct (SFcompare x x) as [[]|]; try reflexivity; discriminate.
Qed.

(** The difference of a float and itself is a zero or a NaN, never above a
    positive float. *)
Lemma sub_self_not_above (t x : float) :
  ltb t (abs (sub x x)) = true → ltb t zero = true.
Proof.
  destruct x as [s|s| |s m e]; cbn.
  - by destruct s.
  - destruct s; cbn; unfold ltb, SFltb; by destruct t.
  - unfold ltb, SFltb; by destruct t.
  - unfold sub, SFsub. rewrite Z.sub_diag. cbn [binary_normalize abs SFabs].
    done.
Qed.

Lemma ltb_not_nan (x y : float) :
  ltb x y = true → is_nan x = false ∧ is_nan y = false.
Proof. by destruct x, y. Qed.

Lemma add_not_nan (x y : float) :
  is_nan (add x y) = false → is_nan x = false ∧ is_nan y = false.
Proof. by destruct x, y. Qed.

(** [min(d, g)] is at most both of its arguments when neither is a NaN. *)
Lemma min_leb (d g : float) :
  is_nan d = false → is_nan g = false →
  leb (min d g) g = true ∧ leb (min d g) d = true.
Proof.
  intros Hd Hg. unfold min. destruct (ltb g d) eqn:Hlt.
  - split; [by apply leb_refl|by apply ltb_leb].
  - split; [by apply not_ltb_leb|by apply leb_refl].
Qed.

Lemma round_nearest (x : float) (k : Z) :
  round x = Ok k →
  is_finite x = true ∧ nearest_integer_ties_even (value x) k.
Proof.
  destruct x as [s|s| |s m e]; cbn; intros [= <-];
    (split; [reflexivity|apply py_round_nearest]).
Qed.

Lemma round_finite (x : float) :
  is_finite x = true → round x = Ok (py_round (value x)).
Proof. by destruct x. Qed.

Lemma round_not_finite (x : float) :
  is_finite x = false →
  round x = Raise OverflowError ∨ round x = Raise ValueError.
Proof. destruct x; cbn; try discriminate; auto. Qed.

Lemma truediv_zero (x y : float) :
  is_zero y = true → truediv x y = Raise ZeroDivisionError.
Proof. intros Hy. unfold truediv. by rewrite Hy. Qed.

Lemma truediv_nonzero (x y : float) :
  is_zero y = false → truediv x y = Ok (div x y).
Proof. intros Hy. unfold truediv. by rewrite Hy. Qed.

End floats.

(** The literals of the source as floats: mantissa and exponent of the
    binary64 numbers that [0.1], [0.001], [0.125] and [0.5] denote. *)
Example float_literals :
  Float64.of_Q (1 # 10) = S754_finite false 7205759403792794 (-56)
  ∧ Float64.of_Q (1 # 1000) = S754_finite false 4611686018427388 (-62)
  ∧ Float64.of_Q (125 # 1000) = S754_finite false 4503599627370496 (-55)
  ∧ Float64.of_Q (1 # 2) = S754_finite false 4503599627370496 (-53)
  ∧ Float64.of_Z 60 = S754_finite false 8444249301319680 (-47).
Proof. repeat split; vm_compute; reflexivity. Qed.

(** Float sums and quotients round: [0.7 + 0.1] is the float below [0.8],
    and [0.15 / 0.1] is below one and a half while [0.75 / 0.1] is seven and
    a half. *)
Example float_rounding :
  Float64.ltb (Float64.add (Float64.of_Q (7 # 10)) (Float64.of_Q (1 # 10)))
              (Float64.of_Q (8 # 10)) = true
  ∧ Float64.ltb (Float64.div (Float64.of_Q (15 # 100))
                             (Float64.of_Q (1 # 10)))
                (Float64.of_Q (3 # 2)) = true
  ∧ Float64.div (Float64.of_Q (75 # 100)) (Float64.of_Q (1 # 10))
    = Float64.of_Q (15 # 2).
Proof. repeat split; vm_compute; reflexivity. Qed.

(** ** Timing normalisation *)

Section sorting.
Import MIDIConverter.

Lemma enumerate_lookup {A} (l : list A) (i : nat) (x : A) :
  l !! i = Some x → enumerate l !! i = Some (i, x).
Proof.
  intros Hx. unfold enumerate.
  assert (i < length l)%nat by by eapply lookup_lt_Some.
  rewrite lookup_zip_with, lookup_seq_lt by done. cbn. by rewrite Hx.
Qed.

Lemma enumerate_length {A} (l : list A) : length (enumerate l) = length l.
Proof. unfold enumerate. rewrite length_zip_with, length_seq. lia. Qed.

End sorting.

Section timing.
Import MIDIConverter.
Context `{NoteDefaults}.

Lemma insert_by_start64_perm (x : Note64.t) (l : list Note64.t) :
  insert_by_start x l ≡ₚ x :: l.
Proof.
  induction l as [|y l IH]; cbn; [reflexivity|].
  destruct (Float64.ltb _ _); [|reflexivity].
  rewrite IH. apply Permutation_swap.
Qed.

Lemma sorted_by_start64_perm (l : list Note64.t) : sorted_by_start l ≡ₚ l.
Proof.
  induction l as [|x l IH]; cbn; [reflexivity|].
  by rewrite insert_by_start64_perm, IH.
Qed.

Lemma insert_by_start64_hd (x y : Note64.t) (l : list Note64.t) :
  start_le64 y x → HdRel start_le64 y l →
  HdRel start_le64 y (insert_by_start x l).
Proof.
  intros Hyx Hl. destruct l as [|z l]; cbn; [by constructor|].
  destruct (Float64.ltb _ _); constructor; [|done].
  by inversion Hl.
Qed.

Lemma insert_by_start64_sorted (x : Note64.t) (l : list Note64.t) :
  Float64.is_nan (Note64.start_time x) = false →
  Forall (fun n => Float64.is_nan (Note64.start_time n) = false) l →
  Sorted start_le64 l → Sorted start_le64 (insert_by_start x l).
Proof.
  intros Hx Hl. induction 1 as [|y l Hs IH Hhd]; cbn;
    [by repeat constructor|].
  apply Forall_cons in Hl as [Hy Hl].
  destruct (Float64.ltb (Note64.start_time y) (Note64.start_time x)) eqn:Hc.
  - constructor; [by apply IH|].
    apply insert_by_start64_hd; [|exact Hhd]. by apply ltb_leb.
  - repeat constructor; try done. by apply not_ltb_leb.
Qed.

Lemma sorted_by_start64_sorted (l : list Note64.t) :
  Forall (fun n => Float64.is_nan (Note64.start_time n) = false) l →
  Sorted start_le64 (sorted_by_start l).
Proof.
  induction 1 as [|x l Hx Hl IH]; cbn; [constructor|].
  apply insert_by_start64_sorted; [exact Hx| |exact IH].
  by rewrite sorted_by_start64_perm.
Qed.

(** One turn of the loop appends one note, described by the overlap rule. *)
Lemma timing_body64_spec (s acc : list Note64.t) (i : nat) (n : Note64.t) :
  ∃ a, timing_body s acc i n = acc ++ [a]
       ∧ Note64.start_time a =
           pushed_start64
             (if bool_decide (0 < i)%nat then last acc else None) n
       ∧ Note64.duration a =
           fitted_duration64 (Note64.start_time a) n (s !! (i + 1)%nat)
       ∧ timing_copy64 n a
       ∧ Note64.tie a = default_tie ∧ Note64.dot a = default_dot.
Proof.
  unfold timing_body.
  assert (Hnext : (if bool_decide (Z.of_nat i < Z.of_nat (length s) - 1)
                   then s !! (i + 1)%nat else None) = s !! (i + 1)%nat).
  { case_bool_decide; [reflexivity|]. symmetry. apply lookup_ge_None. lia. }
  set (a0 := Note64.init _ _ _ _ _ _ _ _).
  set (prev := if bool_decide (0 < i)%nat then last acc else None).
  set (a1 := if bool_decide (0 < i)%nat then _ else a0).
  assert (Ha1 : Note64.start_time a1 = pushed_start64 prev n
          ∧ Note64.duration a1 = Note64.duration n ∧ timing_copy64 n a1
          ∧ Note64.tie a1 = default_tie ∧ Note64.dot a1 = default_dot).
  { subst a1 prev. destruct (bool_decide (0 < i)%nat); [|by repeat split].
    destruct (last acc) as [p|]; [|by repeat split]. cbn.
    destruct (Float64.ltb (Note64.start_time n) (Note64.end_time p));
      by repeat split. }
  destruct Ha1 as (Hst & Hdur & Hcopy & Htie & Hdot).
  clearbody a1 prev. clear a0.
  eexists. split; [reflexivity|].
  rewrite <- Hnext. clear Hnext.
  destruct (bool_decide (Z.of_nat i < Z.of_nat (length s) - 1));
    [|by rewrite Hdur].
  destruct (s !! (i + 1)%nat) as [nx|]; [|by rewrite Hdur].
  unfold fitted_duration64, Note64.end_time. rewrite Hdur.
  destruct (Float64.ltb (Note64.start_time nx)
              (Float64.add (Note64.start_time a1) (Note64.duration n)))
    eqn:Hover; [|by rewrite Hover].
  destruct (Float64.ltb Float64.zero
              (Float64.sub (Note64.start_time nx) (Note64.start_time a1)))
    eqn:Hgap; cbn; rewrite ?Hover, ?Hgap, ?Hdur; repeat split; try done;
    apply Hcopy.
Qed.

Lemma adjusted_upto64_S (s : list Note64.t) (m : nat) (n : Note64.t) :
  s !! m = Some n →
  adjusted_upto64 s (S m) = timing_body s (adjusted_upto64 s m) m n.
Proof.
  intros Hn. unfold adjusted_upto64.
  rewrite (take_S_r _ _ _ (enumerate_lookup _ _ _ Hn)), foldl_app.
  reflexivity.
Qed.

Lemma adjusted_upto64_length (s : list Note64.t) (m : nat) :
  (m ≤ length s)%nat → length (adjusted_upto64 s m) = m.
Proof.
  induction m as [|m IH]; intros Hm; [reflexivity|].
  destruct (lookup_lt_is_Some_2 s m) as [n Hn]; [lia|].
  rewrite (adjusted_upto64_S _ _ _ Hn).
  destruct (timing_body64_spec s (adjusted_upto64 s m) m n) as (a & -> & _).
  rewrite length_app, IH by lia. cbn. lia.
Qed.

Lemma adjusted_upto64_prefix (s : list Note64.t) (m i : nat) :
  (i < m ≤ length s)%nat →
  adjusted_upto64 s m !! i = adjusted_upto64 s (S i) !! i.
Proof.
  induction m as [|m IH]; intros Hm; [lia|].
  destruct (decide (i = m)) as [->|Hne]; [reflexivity|].
  destruct (lookup_lt_is_Some_2 s m) as [n Hn]; [lia|].
  rewrite (adjusted_upto64_S _ _ _ Hn).
  destruct (timing_body64_spec s (adjusted_upto64 s m) m n) as (a & -> & _).
  rewrite lookup_app_l by (rewrite adjusted_upto64_length; lia).
  apply IH. lia.
Qed.

Lemma calculate_timing64_upto (notes : list Note64.t) :
  calculate_timing notes =
  adjusted_upto64 (sorted_by_start notes) (length (sorted_by_start notes)).
Proof.
  unfold calculate_timing, adjusted_upto64.
  rewrite take_ge by (rewrite enumerate_length; lia).
  destruct notes; reflexivity.
Qed.

Lemma calculate_timing64_length (notes : list Note64.t) :
  length (calculate_timing notes) = length notes.
Proof.
  rewrite calculate_timing64_upto, adjusted_upto64_length by lia.
  by rewrite sorted_by_start64_perm.
Qed.

(** Every output note is the adjusted note of the sorted note at the same
    index. *)
Lemma calculate_timing64_lookup (notes : list Note64.t) (i : nat)
    (n : Note64.t) :
  sorted_by_start notes !! i = Some n →
  ∃ a, calculate_timing notes !! i = Some a
       ∧ Note64.start_time a =
           pushed_start64
             (if bool_decide (0 < i)%nat
              then calculate_timing notes !! pred i else None) n
       ∧ Note64.duration a =
           fitted_duration64 (Note64.start_time a) n
             (sorted_by_start notes !! (i + 1)%nat)
       ∧ timing_copy64 n a
       ∧ Note64.tie a = default_tie ∧ Note64.dot a = default_dot.
Proof.
  intros Hn. set (s := sorted_by_start notes) in *.
  assert (Hi : (i < length s)%nat) by by eapply lookup_lt_Some.
  rewrite !calculate_timing64_upto. fold s.
  rewrite (adjusted_upto64_prefix s (length s) i) by lia.
  rewrite (adjusted_upto64_S _ _ _ Hn).
  destruct (timing_body64_spec s (adjusted_upto64 s i) i n)
    as (a & -> & Hst & Hrest).
  exists a. split.
  - rewrite lookup_app_r by (rewrite adjusted_upto64_length; lia).
    rewrite adjusted_upto64_length by lia. by rewrite Nat.sub_diag.
  - split; [|exact Hrest]. rewrite Hst.
    case_bool_decide; [|reflexivity].
    rewrite last_lookup, adjusted_upto64_length by lia.
    destruct i as [|i]; [lia|]. cbn [pred].
    by rewrite (adjusted_upto64_prefix s (length s) i) by lia.
Qed.

End timing.

(** C4. On notes whose start times are floats other than NaN,
    [calculate_timing] works on the notes sorted by start time (ascending, a
    permutation of the input) and gives one output note per sorted note.
    The start of a note that begins before the end of the previous adjusted
    note is pushed to that end; when the end of the (possibly pushed) note
    exceeds the start of the next sorted note, its duration becomes the
    smaller of itself and the gap between the two starts, which fits the
    gap, or 0.1 when that gap is not positive.  Ends and gaps are the float
    sums and differences the code computes.  For A(0.0, 1.0) and B(0.5, 1.0) the adjusted A ends
    no later than the adjusted B starts. *)
Theorem calculate_timing_overlap_rule `{NoteDefaults}
    (notes : list Note64.t) :
  Forall (fun n => Float64.is_nan (Note64.start_time n) = false) notes →
  let sorted_notes := MIDIConverter.sorted_by_start notes in
  let out := MIDIConverter.calculate_timing notes in
  sorted_notes ≡ₚ notes
  ∧ Sorted start_le64 sorted_notes
  ∧ length out = length sorted_notes
  ∧ (∀ i n, sorted_notes !! i = Some n →
       ∃ a, out !! i = Some a
            ∧ overlap_rule64 (if bool_decide (0 < i)%nat then out !! pred i
                              else None)
                             n (sorted_notes !! (i + 1)%nat) a
            ∧ fits_gap n (sorted_notes !! (i + 1)%nat) a)
  ∧ (∀ nA nB, ∃ a b,
       MIDIConverter.calculate_timing
         [at_time64 0 1 nA; at_time64 (1 # 2) 1 nB]
       = [a; b]
       ∧ Float64.leb (Note64.end_time a) (Note64.start_time b) = true).
Proof.
  intros Hnan. cbn zeta. split; [apply sorted_by_start64_perm|].
  split; [by apply sorted_by_start64_sorted|].
  split; [by rewrite calculate_timing64_length, sorted_by_start64_perm|].
  split.
  - intros i n Hn.
    destruct (calculate_timing64_lookup notes i n Hn)
      as (a & Ha & Hst & Hd & Hc & _).
    exists a. split; [exact Ha|].
    split; [split; [exact Hst|split; [exact Hd|exact Hc]]|].
    intros nx Hnx gap Hover Hgap. rewrite Hd, Hnx. cbn [fitted_duration64].
    fold gap. rewrite Hover, Hgap.
    apply ltb_not_nan in Hover as [_ Hend].
    apply add_not_nan in Hend as [_ Hdur].
    apply ltb_not_nan in Hgap as [_ Hg].
    by apply min_leb.
  - intros nA nB. eexists _, _. split; [reflexivity|].
    vm_compute. reflexivity.
Qed.

Lemma calculate_timing_overlap_rule_witness :
  ∃ a, @MIDIConverter.calculate_timing sample_defaults
         [simple_note64 (1 # 2) 1; simple_note64 0 1] !! 0%nat = Some a
       ∧ overlap_rule64 None (simple_note64 0 1)
                        (Some (simple_note64 (1 # 2) 1)) a
       ∧ fits_gap (simple_note64 0 1) (Some (simple_note64 (1 # 2) 1)) a.
Proof.
  destruct (@calculate_timing_overlap_rule sample_defaults
              [simple_note64 (1 # 2) 1; simple_note64 0 1])
    as (_ & _ & _ & Hrule & _).
  - repeat constructor.
  - destruct (Hrule 0%nat (simple_note64 0 1) eq_refl)
      as (a & Ha & Hr & Hf).
    exists a. split; [exact Ha|]. split; [exact Hr|exact Hf].
Defined.

(** The float sums decide: of three notes starting at 0.7, 0.7 and 0.8 and
    lasting one second each, the first gets the minimum duration 0.1 and the
    second is pushed to [0.7 + 0.1], the float just below 0.8; its duration
    becomes the tiny gap left up to 0.8 and the third note stays at 0.8. *)
Example calculate_timing_follows_float_sums :
  let out :=
    @MIDIConverter.calculate_timing sample_defaults
      [simple_note64 (7 # 10) 1; simple_note64 (7 # 10) 1;
       simple_note64 (8 # 10) 1] in
  let pushed := Float64.add (Float64.of_Q (7 # 10)) (Float64.of_Q (1 # 10)) in
  map Note64.start_time out
  = [Float64.of_Q (7 # 10); pushed; Float64.of_Q (8 # 10)]
  ∧ map Note64.duration out
    = [Float64.of_Q (1 # 10); Float64.sub (Float64.of_Q (8 # 10)) pushed;
       Float64.of_Z 1]
  ∧ Float64.ltb pushed (Float64.of_Q (8 # 10)) = true
  ∧ Float64.ltb (Float64.sub (Float64.of_Q (8 # 10)) pushed)
                (Float64.of_Q (1 # 10)) = true.
Proof. repeat split; vm_compute; reflexivity. Qed.

(** ** Quantisation *)

Section quantize.
Import MIDIConverter.
Context `{NoteDefaults}.

Lemma snapped_round (resolution t : Float64.float) :
  Float64.is_finite (Float64.div t resolution) = true →
  snapped resolution t
    (Float64.mul
       (Float64.of_Z (py_round (Float64.value (Float64.div t resolution))))
       resolution).
Proof.
  intros Hfin. eexists. split; [exact Hfin|].
  split; [apply py_round_nearest|reflexivity].
Qed.

Lemma quantize_body64_zero (resolution : Float64.float)
    (acc : list Note64.t) (n : Note64.t) :
  Float64.is_zero resolution = true →
  quantize_body resolution acc n = Raise Float64.ZeroDivisionError.
Proof.
  intros Hz. unfold quantize_body.
  by rewrite (truediv_zero (Note64.start_time n) resolution Hz).
Qed.

Lemma quantize_body64_ok (resolution : Float64.float) (acc : list Note64.t)
    (n : Note64.t) :
  Float64.is_zero resolution = false → finite_quotients resolution n →
  ∃ a, quantize_body resolution acc n = Ok (acc ++ [a])
       ∧ quantized64 resolution n a.
Proof.
  intros Hz [Hs Hd]. unfold quantize_body.
  rewrite (truediv_nonzero (Note64.start_time n) resolution Hz).
  cbn [mbind result_bind].
  rewrite (round_finite _ Hs). cbn [mbind result_bind].
  rewrite (truediv_nonzero (Note64.duration n) resolution Hz).
  cbn [mbind result_bind].
  rewrite (round_finite _ Hd). cbn [mbind result_bind].
  eexists. split; [reflexivity|]. split; [|split].
  - by apply snapped_round.
  - eexists. split; [by apply snapped_round|reflexivity].
  - by repeat split.
Qed.

Lemma quantize_body64_raise (resolution : Float64.float)
    (acc : list Note64.t) (n : Note64.t) :
  Float64.is_zero resolution = false → ¬ finite_quotients resolution n →
  quantize_body resolution acc n = Raise Float64.OverflowError
  ∨ quantize_body resolution acc n = Raise Float64.ValueError.
Proof.
  intros Hz Hnot. unfold quantize_body.
  rewrite (truediv_nonzero (Note64.start_time n) resolution Hz).
  cbn [mbind result_bind].
  destruct (Float64.is_finite
              (Float64.div (Note64.start_time n) resolution)) eqn:Hs.
  - rewrite (round_finite _ Hs). cbn [mbind result_bind].
    rewrite (truediv_nonzero (Note64.duration n) resolution Hz).
    cbn [mbind result_bind].
    destruct (Float64.is_finite
                (Float64.div (Note64.duration n) resolution)) eqn:Hd.
    + exfalso. apply Hnot. by split.
    + destruct (round_not_finite _ Hd) as [-> | ->]; auto.
  - destruct (round_not_finite _ Hs) as [-> | ->]; auto.
Qed.

Lemma quantize_loop64_ok (resolution : Float64.float)
    (acc notes : list Note64.t) :
  Float64.is_zero resolution = false →
  Forall (finite_quotients resolution) notes →
  ∃ out, for_each (quantize_body resolution) acc notes = Ok (acc ++ out)
         ∧ Forall2 (quantized64 resolution) notes out.
Proof.
  intros Hz Hfin. revert acc.
  induction Hfin as [|n l Hn _ IH]; intros acc; cbn [for_each].
  - exists []. split; [by rewrite app_nil_r|constructor].
  - destruct (quantize_body64_ok resolution acc n Hz Hn) as (a & -> & Ha).
    cbn [mbind result_bind].
    destruct (IH (acc ++ [a])) as (out & -> & Hout).
    exists (a :: out). split; [by rewrite <- app_assoc|by constructor].
Qed.

Lemma quantize_loop64_raise (resolution : Float64.float)
    (acc notes : list Note64.t) :
  Float64.is_zero resolution = false →
  ¬ Forall (finite_quotients resolution) notes →
  for_each (quantize_body resolution) acc notes = Raise Float64.OverflowError
  ∨ for_each (quantize_body resolution) acc notes
    = Raise Float64.ValueError.
Proof.
  intros Hz. revert acc.
  induction notes as [|n l IH]; intros acc Hnot; cbn [for_each].
  - exfalso. apply Hnot. constructor.
  - destruct (Float64.is_finite
                (Float64.div (Note64.start_time n) resolution)) eqn:Hs;
      [destruct (Float64.is_finite
                   (Float64.div (Note64.duration n) resolution)) eqn:Hd|].
    + destruct (quantize_body64_ok resolution acc n Hz) as (a & -> & _);
        [by split|].
      cbn [mbind result_bind]. apply IH. intros Hl. apply Hnot.
      constructor; [by split|exact Hl].
    + destruct (quantize_body64_raise resolution acc n Hz) as [-> | ->];
        [intros [_ Hd']; congruence|by left|by right].
    + destruct (quantize_body64_raise resolution acc n Hz) as [-> | ->];
        [intros [Hs' _]; congruence|by left|by right].
Qed.

End quantize.

(** C5 (as amended). [quantize_timing] divides each start time by the
    resolution, rounds the float quotient to the nearest integer [k] with
    the built-in [round] (a tie goes to the even integer) and makes
    [k * resolution] the new start time; quotient and product are float
    operations, so the result is the multiple of the resolution that the
    rounded quotient points at.  The duration is snapped the same way and
    then raised to at least one resolution.  A resolution of zero raises
    [ZeroDivisionError] on the first note, and a quotient that is not a
    finite float raises [OverflowError] or [ValueError]; otherwise there is
    one output note per input note.  With the default resolution 0.125 a
    start time of 0.31 becomes 0.25. *)
Theorem quantize_timing_half_even `{NoteDefaults} (notes : list Note64.t)
    (resolution : Float64.float) :
  (Float64.is_zero resolution = true → notes ≠ [] →
   MIDIConverter.quantize_timing notes resolution
   = Raise Float64.ZeroDivisionError)
  ∧ (Float64.is_zero resolution = false →
     Forall (finite_quotients resolution) notes →
     ∃ out, MIDIConverter.quantize_timing notes resolution = Ok out
            ∧ Forall2 (quantized64 resolution) notes out)
  ∧ (Float64.is_zero resolution = false →
     ¬ Forall (finite_quotients resolution) notes →
     MIDIConverter.quantize_timing notes resolution
     = Raise Float64.OverflowError
     ∨ MIDIConverter.quantize_timing notes resolution
       = Raise Float64.ValueError)
  ∧ (∀ n, ∃ a, MIDIConverter.quantize_timing_default
                 [at_time64 (31 # 100) 1 n] = Ok [a]
               ∧ Note64.start_time a = Float64.of_Q (1 # 4)).
Proof.
  split; [|split; [|split]].
  - intros Hz Hne. destruct notes as [|n l]; [done|].
    unfold MIDIConverter.quantize_timing. cbn [for_each].
    by rewrite quantize_body64_zero.
  - intros Hz Hfin.
    destruct (quantize_loop64_ok resolution [] notes Hz Hfin)
      as (out & Hout & HF).
    by exists out.
  - intros Hz Hnot. by apply quantize_loop64_raise.
  - intros n. eexists. split; [reflexivity|]. vm_compute. reflexivity.
Qed.

Lemma quantize_timing_half_even_witness :
  ∃ out, @MIDIConverter.quantize_timing sample_defaults
           [simple_note64 (31 # 100) 1; simple_note64 (1 # 16) (1 # 100)]
           (Float64.of_Q (1 # 8))
         = Ok out
         ∧ Forall2 (quantized64 (Float64.of_Q (1 # 8)))
             [simple_note64 (31 # 100) 1; simple_note64 (1 # 16) (1 # 100)]
             out.
Proof.
  destruct (@quantize_timing_half_even sample_defaults
              [simple_note64 (31 # 100) 1; simple_note64 (1 # 16) (1 # 100)]
              (Float64.of_Q (1 # 8)))
    as (_ & Hok & _).
  apply Hok; [reflexivity|].
  repeat constructor.
Defined.

(** The start time 0.0625 lies half-way between the multiples 0 and 0.125 of
    the resolution 0.125, and the float quotient is exactly one half:
    [quantize_timing] gives 0, rounding half away from zero gives 0.125. *)
Lemma quantize_timing_not_half_away :
  ∃ a, @MIDIConverter.quantize_timing sample_defaults
         [simple_note64 (1 # 16) 1] (Float64.of_Q (1 # 8)) = Ok [a]
       ∧ Note64.start_time a = Float64.zero
       ∧ (Float64.value
            (Float64.div (Note64.start_time (simple_note64 (1 # 16) 1))
                         (Float64.of_Q (1 # 8))) == 1 # 2)%Q
       ∧ Note64.start_time a
         ≠ Float64.mul
             (Float64.of_Z
                (round_half_away_from_zero
                   (Float64.value
                      (Float64.div
                         (Note64.start_time (simple_note64 (1 # 16) 1))
                         (Float64.of_Q (1 # 8))))))
             (Float64.of_Q (1 # 8)).
Proof.
  eexists. split; [vm_compute; reflexivity|].
  split; [reflexivity|]. split; vm_compute; [reflexivity|discriminate].
Qed.

(** It is the float quotient that is rounded: [0.75 / 0.1] is the float 7.5
    although 0.75 is less than seven and a half times the float 0.1, so 0.75
    goes to [8 * 0.1]; [0.15 / 0.1] is a float below 1.5, so 0.15 goes to
    [1 * 0.1]. *)
Example quantize_timing_rounds_the_quotient :
  (Float64.value (Float64.of_Q (75 # 100))
   < (15 # 2) * Float64.value (Float64.of_Q (1 # 10)))%Q
  ∧ Float64.div (Float64.of_Q (75 # 100)) (Float64.of_Q (1 # 10))
    = Float64.of_Q (15 # 2)
  ∧ (∃ a, @MIDIConverter.quantize_timing sample_defaults
            [simple_note64 (75 # 100) 1] (Float64.of_Q (1 # 10)) = Ok [a]
          ∧ Note64.start_time a
            = Float64.mul (Float64.of_Z 8) (Float64.of_Q (1 # 10)))
  ∧ (∃ a, @MIDIConverter.quantize_timing sample_defaults
            [simple_note64 (15 # 100) 1] (Float64.of_Q (1 # 10)) = Ok [a]
          ∧ Note64.start_time a = Float64.of_Q (1 # 10)).
Proof.
  split; [vm_compute; reflexivity|]. split; [vm_compute; reflexivity|].
  split; eexists; (split; [vm_compute; reflexivity|]);
    vm_compute; reflexivity.
Qed.

(** ** What timing normalisation keeps of a note *)

Section rebuilt.
Import MIDIConverter.
Context `{NoteDefaults}.

Lemma quantize_body_rebuilds (resolution : Float64.float)
    (acc out : list Note64.t) (n : Note64.t) :
  quantize_body resolution acc n = Ok out →
  ∃ a, out = acc ++ [a] ∧ rebuilt_from n a.
Proof.
  unfold quantize_body.
  destruct (Float64.truediv (Note64.start_time n) resolution) as [qs|e];
    [|discriminate].
  cbn [mbind result_bind].
  destruct (Float64.round qs) as [ks|e]; [|discriminate].
  cbn [mbind result_bind].
  destruct (Float64.truediv (Note64.duration n) resolution) as [qd|e];
    [|discriminate].
  cbn [mbind result_bind].
  destruct (Float64.round qd) as [kd|e]; [|discriminate].
  cbn [mbind result_bind]. intros [= <-].
  eexists. split; [reflexivity|]. by repeat split.
Qed.

Lemma quantize_loop_rebuilds (resolution : Float64.float)
    (acc out notes : list Note64.t) :
  for_each (quantize_body resolution) acc notes = Ok out →
  ∃ new, out = acc ++ new ∧ Forall2 rebuilt_from notes new.
Proof.
  revert acc. induction notes as [|n l IH]; intros acc; cbn [for_each].
  - intros [= <-]. exists []. split; [by rewrite app_nil_r|constructor].
  - destruct (quantize_body resolution acc n) as [acc'|e] eqn:Hbody;
      cbn [mbind result_bind]; [|discriminate].
    apply quantize_body_rebuilds in Hbody as (a & -> & Ha).
    intros Hloop. destruct (IH _ Hloop) as (new & -> & Hnew).
    exists (a :: new). split; [by rewrite <- app_assoc|by constructor].
Qed.

End rebuilt.

(** C6. On a note whose [tie] and [dot] are not the constructor defaults,
    [calculate_timing] and [quantize_timing] keep pitch, staff position,
    velocity and accidental, but the output note carries the default [tie]
    and [dot] instead of the input's: the two keyword arguments are not
    passed to [Note(...)], unlike in the clef converter.  [calculate_timing]
    returns such a note for every input note; [quantize_timing] returns one
    for every note and non-zero resolution with finite quotients, and
    whatever it returns is such a note. *)
Theorem timing_normalisation_resets_tie_and_dot `{NoteDefaults}
    (n : Note64.t) (resolution : Float64.float) :
  (∃ a,
     MIDIConverter.calculate_timing [flagged64 n] = [a]
     ∧ timing_copy64 (flagged64 n) a
     ∧ Note64.tie a = default_tie ∧ Note64.tie a ≠ Note64.tie (flagged64 n)
     ∧ Note64.dot a = default_dot ∧ Note64.dot a ≠ Note64.dot (flagged64 n))
  ∧ (Float64.is_zero resolution = false →
     finite_quotients resolution (flagged64 n) →
     ∃ q,
       MIDIConverter.quantize_timing [flagged64 n] resolution = Ok [q])
  ∧ (∀ out,
       MIDIConverter.quantize_timing [flagged64 n] resolution = Ok out →
       ∃ q,
         out = [q]
         ∧ timing_copy64 (flagged64 n) q
         ∧ Note64.tie q = default_tie
         ∧ Note64.tie q ≠ Note64.tie (flagged64 n)
         ∧ Note64.dot q = default_dot
         ∧ Note64.dot q ≠ Note64.dot (flagged64 n)).
Proof.
  split; [|split].
  - eexists. split; [reflexivity|].
    destruct H as [v sp ac [] []]; repeat split; vm_compute; discriminate.
  - intros Hz Hfin. unfold MIDIConverter.quantize_timing.
    destruct (quantize_loop64_ok resolution [] [flagged64 n] Hz)
      as (out & Hrun & Hout); [constructor; [exact Hfin|constructor]|].
    apply Forall2_cons_inv_l in Hout as (q & out' & _ & Hnil & ->).
    apply Forall2_nil_inv_l in Hnil as ->.
    exists q. exact Hrun.
  - intros out Hrun. unfold MIDIConverter.quantize_timing in Hrun.
    apply quantize_loop_rebuilds in Hrun as (new & Hnew & Hre).
    cbn [app] in Hnew. subst new.
    apply Forall2_cons_inv_l in Hre
      as (q & out' & (Hcopy & Htie & Hdot) & Hnil & ->).
    apply Forall2_nil_inv_l in Hnil as ->.
    exists q. split; [reflexivity|]. split; [exact Hcopy|].
    rewrite Htie, Hdot.
    destruct H as [v sp ac [] []]; repeat split; discriminate.
Qed.

Lemma timing_normalisation_resets_tie_and_dot_witness :
  let n := Note64.mk 60 Float64.zero (Float64.of_Z 1) 80 4 None true true in
  ∃ q,
    @MIDIConverter.quantize_timing sample_defaults [n] (Float64.of_Q (1 # 8))
    = Ok [q]
    ∧ Note64.tie q = false ∧ Note64.dot q = false.
Proof.
  intros n.
  destruct (@timing_normalisation_resets_tie_and_dot sample_defaults n
              (Float64.of_Q (1 # 8))) as (_ & Hreturns & Hrebuilt).
  destruct Hreturns as [q Hrun]; [reflexivity|split; reflexivity|].
  destruct (Hrebuilt [q] Hrun) as (q' & [= <-] & _ & Htie & _ & Hdot & _).
  exists q. split; [exact Hrun|]. split; [exact Htie|exact Hdot].
Defined.

(** The copied fields, for every input list: each output note of
    [calculate_timing] comes from the sorted note at the same index, each
    output note of [quantize_timing] from the input note at the same index. *)
Lemma timing_normalisation_copies `{NoteDefaults} (notes : list Note64.t)
    (resolution : Float64.float) :
  Forall2 rebuilt_from (MIDIConverter.sorted_by_start notes)
          (MIDIConverter.calculate_timing notes)
  ∧ ∀ out, MIDIConverter.quantize_timing notes resolution = Ok out →
           Forall2 rebuilt_from notes out.
Proof.
  split.
  - apply Forall2_same_length_lookup. split.
    + by rewrite calculate_timing64_length, sorted_by_start64_perm.
    + intros i n a Hn Ha.
      destruct (calculate_timing64_lookup notes i n Hn)
        as (a' & Ha' & _ & _ & Hc & Htie & Hdot).
      assert (a' = a) as -> by congruence.
      split; [exact Hc|by split].
  - intros out Hrun. unfold MIDIConverter.quantize_timing in Hrun.
    apply quantize_loop_rebuilds in Hrun as (new & -> & Hnew). exact Hnew.
Qed.

(** ** Heuristic detection *)

(** C7. [_staff_position_to_pitch] adds the position to the base pitch of
    the clef (60 for alto, 67 for treble, 53 for bass) and clamps the sum to
    [21, 108]; the base pitch is the pitch of position 0 for each of the three
    clefs, so treble position 2 gives 69 and bass position -2 gives 51. *)
Theorem staff_position_to_pitch_anchor (p : Z) :
  OMREngine._staff_position_to_pitch p "alto" = Z.max 21 (Z.min 108 (60 + p))
  ∧ OMREngine._staff_position_to_pitch p "treble" = Z.max 21 (Z.min 108 (67 + p))
  ∧ OMREngine._staff_position_to_pitch p "bass" = Z.max 21 (Z.min 108 (53 + p))
  ∧ OMREngine._staff_position_to_pitch 0 "alto" = 60
  ∧ OMREngine._staff_position_to_pitch 0 "treble" = 67
  ∧ OMREngine._staff_position_to_pitch 2 "treble" = 69
  ∧ OMREngine._staff_position_to_pitch 0 "bass" = 53
  ∧ OMREngine._staff_position_to_pitch (-2) "bass" = 51.
Proof. repeat split. Qed.

Section detection.
Import OMREngine.
Context `{NoteDefaults}.

Lemma calculate_staff_position_few_lines (y : Z) (staff_lines : list Z) :
  (length staff_lines < 5)%nat →
  _calculate_staff_position y staff_lines = Ok 0.
Proof.
  intros Hlen. unfold _calculate_staff_position.
  rewrite bool_decide_eq_true_2; [reflexivity|]. by right.
Qed.

Lemma detect_body_few_lines (image_width : Z) (staff_lines : list Z)
    (c : Contour) (acc out : list Note) :
  (length staff_lines < 5)%nat →
  Forall (fun n => staff_position n = 0 ∧ pitch n = 60) acc →
  detect_body image_width staff_lines acc c = Ok out →
  Forall (fun n => staff_position n = 0 ∧ pitch n = 60) out.
Proof.
  intros Hlen Hacc. unfold detect_body.
  destruct (Qltb 50 (c_area c) && Qltb (c_area c) 1000);
    [|by intros [= <-]].
  rewrite calculate_staff_position_few_lines by done. cbn.
  destruct (py_truediv _ _) as [t|e]; cbn; [|discriminate].
  intros [= <-]. apply Forall_app. split; [exact Hacc|].
  repeat constructor.
Qed.

Lemma detect_loop_few_lines (image_width : Z) (staff_lines : list Z)
    (contours : list Contour) (acc out : list Note) :
  (length staff_lines < 5)%nat →
  Forall (fun n => staff_position n = 0 ∧ pitch n = 60) acc →
  for_each (detect_body image_width staff_lines) acc contours = Ok out →
  Forall (fun n => staff_position n = 0 ∧ pitch n = 60) out.
Proof.
  intros Hlen. revert acc.
  induction contours as [|c l IH]; intros acc Hacc; cbn [for_each].
  - intros [= <-]. exact Hacc.
  - destruct (detect_body image_width staff_lines acc c) as [acc'|e] eqn:Hb;
      cbn; [|discriminate].
    apply IH. by eapply detect_body_few_lines.
Qed.

End detection.

(** ** Preprocessing *)

Lemma try_except_ok {A} (body : Logged A) (handler : PyExn → Logged A)
    (log log' : list LogRecord) (a : A) :
  body log = (Ok a, log') → try_except body handler log = (Ok a, log').
Proof. intros Hb. unfold try_except. by rewrite Hb. Qed.

Lemma try_except_raise {A} (body : Logged A) (handler : PyExn → Logged A)
    (log log' : list LogRecord) (e : PyExn) :
  body log = (Raise e, log') → try_except body handler log = handler e log'.
Proof. intros Hb. unfold try_except. by rewrite Hb. Qed.

(** A handler that logs one record and returns [image] makes the stage
    total. *)
Lemma best_effort_total `{ImageLibrary} (body : Logged Image) (image : Image)
    (msg : PyExn → LogMessage) (log : list LogRecord) :
  ∃ image' log',
    try_except body (fun e => _ ← logger ERROR (msg e); mret image) log
    = (Ok image', log').
Proof.
  unfold try_except. destruct (body log) as [[a|e] l]; cbn; eauto.
Qed.

(** C8 (as amended). On a valid, loadable image [preprocess] runs, in order,
    [resize_image] (to 2048 or 1024), [enhance_image], [auto_rotate] and
    [crop_staff_area] and returns the image of the last one; each of these
    four never raises, and when its [try] block raises it logs one error
    record and returns its input image.  [binarize] is a separate operation:
    grey conversion, adaptive threshold, one close and one open with a 2x2
    kernel; when its [try] block raises it logs the error and raises again. *)
Theorem preprocess_best_effort_steps `{ImageLibrary} :
  (∀ (image_path : ImagePath) (high_quality : bool) (image0 : Image)
      (log : list LogRecord),
     validate_image image_path = true →
     load_image image_path = Ok image0 →
     ∃ i1 l1 i2 l2 i3 l3 i4 l4,
       ImagePreprocessor.resize_image image0
         (Some (if high_quality then 2048 else 1024))
         (log ++ [mkLog INFO MsgPreprocessStart]) = (Ok i1, l1)
       ∧ ImagePreprocessor.enhance_image i1 l1 = (Ok i2, l2)
       ∧ ImagePreprocessor.auto_rotate i2 l2 = (Ok i3, l3)
       ∧ ImagePreprocessor.crop_staff_area i3 l3 = (Ok i4, l4)
       ∧ ImagePreprocessor.preprocess image_path high_quality log
         = (Ok i4, l4 ++ [mkLog INFO MsgPreprocessDone]))
  ∧ (∀ (image : Image) target_width log log' e,
       ImagePreprocessor.resize_image_try image target_width log
       = (Raise e, log') →
       ImagePreprocessor.resize_image image target_width log
       = (Ok image, log' ++ [mkLog ERROR (MsgResizeFailed e)]))
  ∧ (∀ (image : Image) log log' e,
       ImagePreprocessor.enhance_image_try image log = (Raise e, log') →
       ImagePreprocessor.enhance_image image log
       = (Ok image, log' ++ [mkLog ERROR (MsgEnhanceFailed e)]))
  ∧ (∀ (image : Image) log log' e,
       ImagePreprocessor.auto_rotate_try image log = (Raise e, log') →
       ImagePreprocessor.auto_rotate image log
       = (Ok image, log' ++ [mkLog ERROR (MsgRotateFailed e)]))
  ∧ (∀ (image : Image) log log' e,
       ImagePreprocessor.crop_staff_area_try image log = (Raise e, log') →
       ImagePreprocessor.crop_staff_area image log
       = (Ok image, log' ++ [mkLog ERROR (MsgCropFailed e)]))
  ∧ (∀ (image : Image) log gray thresholded closed opened,
       (if has_channels image then cvtColor_gray image else array_copy image)
       = Ok gray →
       adaptiveThreshold gray 255 11 2 = Ok thresholded →
       morphologyEx thresholded MORPH_CLOSE (2, 2) = Ok closed →
       morphologyEx closed MORPH_OPEN (2, 2) = Ok opened →
       ImagePreprocessor.binarize image log
       = (Ok opened, log ++ [mkLog INFO MsgBinarized]))
  ∧ (∀ (image : Image) log log' e,
       ImagePreprocessor.binarize_try image log = (Raise e, log') →
       ImagePreprocessor.binarize image log
       = (Raise e, log' ++ [mkLog ERROR (MsgBinarizeFailed e)])).
Proof.
  split; [|repeat split].
  - intros image_path high_quality image0 log Hvalid Hload.
    unfold ImagePreprocessor.preprocess.
    set (w := if high_quality then 2048 else 1024).
    set (l0 := log ++ [mkLog INFO MsgPreprocessStart]).
    destruct (best_effort_total
                (ImagePreprocessor.resize_image_try image0 (Some w)) image0
                MsgResizeFailed l0) as (i1 & l1 & H1).
    destruct (best_effort_total (ImagePreprocessor.enhance_image_try i1) i1
                MsgEnhanceFailed l1) as (i2 & l2 & H2).
    destruct (best_effort_total (ImagePreprocessor.auto_rotate_try i2) i2
                MsgRotateFailed l2) as (i3 & l3 & H3).
    destruct (best_effort_total (ImagePreprocessor.crop_staff_area_try i3) i3
                MsgCropFailed l3) as (i4 & l4 & H4).
    exists i1, l1, i2, l2, i3, l3, i4, l4.
    repeat split; try assumption.
    unfold mbind at 1, Logged_bind, logger. fold l0.
    rewrite Hvalid. cbn [negb].
    unfold mbind at 1, Logged_bind, lift. rewrite Hload.
    assert (Hw : (if high_quality
                  then ImagePreprocessor.resize_image image0 (Some 2048)
                  else ImagePreprocessor.resize_image image0 (Some 1024))
                 = ImagePreprocessor.resize_image image0 (Some w))
      by (subst w; by destruct high_quality).
    rewrite Hw.
    unfold mbind at 1, Logged_bind.
    unfold ImagePreprocessor.resize_image at 1. rewrite H1.
    unfold mbind at 1, Logged_bind.
    unfold ImagePreprocessor.enhance_image at 1. rewrite H2.
    unfold mbind at 1, Logged_bind.
    unfold ImagePreprocessor.auto_rotate at 1. rewrite H3.
    unfold mbind at 1, Logged_bind.
    unfold ImagePreprocessor.crop_staff_area at 1. rewrite H4.
    reflexivity.
  - intros image tw log log' e Hb.
    unfold ImagePreprocessor.resize_image.
    by rewrite (try_except_raise _ _ _ _ _ Hb).
  - intros image log log' e Hb. unfold ImagePreprocessor.enhance_image.
    by rewrite (try_except_raise _ _ _ _ _ Hb).
  - intros image log log' e Hb. unfold ImagePreprocessor.auto_rotate.
    by rewrite (try_except_raise _ _ _ _ _ Hb).
  - intros image log log' e Hb. unfold ImagePreprocessor.crop_staff_area.
    by rewrite (try_except_raise _ _ _ _ _ Hb).
  - intros image log gray th cl op Hg Ht Hc Ho.
    unfold ImagePreprocessor.binarize, try_except,
      ImagePreprocessor.binarize_try, mbind, Logged_bind, lift, logger.
    by rewrite Hg, Ht, Hc, Ho.
  - intros image log log' e Hb. unfold ImagePreprocessor.binarize.
    by rewrite (try_except_raise _ _ _ _ _ Hb).
Qed.

Lemma preprocess_best_effort_steps_witness :
  ∃ log,
    @ImagePreprocessor.preprocess (trace_library true) tt false []
    = (Ok ["resize"; "contrast"; "sharpness"; "bilateral"; "rotate"; "crop"]%string,
       log).
Proof.
  destruct (proj1 (@preprocess_best_effort_steps (trace_library true))
              tt false [] [] eq_refl eq_refl)
    as (i1 & l1 & i2 & l2 & i3 & l3 & i4 & l4 & H1 & H2 & H3 & H4 & Hp).
  vm_compute in H1. injection H1 as <- <-.
  vm_compute in H2. injection H2 as <- <-.
  vm_compute in H3. injection H3 as <- <-.
  vm_compute in H4. injection H4 as <- <-.
  eexists. exact Hp.
Defined.

(** With every library call succeeding, the image [preprocess] returns has
    been resized, enhanced, rotated and cropped but not thresholded, closed
    or opened; and when the thresholding call raises, [binarize] raises
    instead of returning its input. *)
Lemma preprocess_binarize_counterexample :
  (∃ log, @ImagePreprocessor.preprocess (trace_library false) tt false []
          = (Ok ["resize"; "contrast"; "sharpness"; "bilateral"; "rotate";
                 "crop"]%string, log))
  ∧ @ImagePreprocessor.binarize (trace_library false) [] []
    = (Ok ["gray"; "threshold"; "close"; "open"]%string,
       [mkLog INFO MsgBinarized])
  ∧ @ImagePreprocessor.binarize (trace_library true) [] []
    = (Raise (LibraryError 1),
       [mkLog ERROR (MsgBinarizeFailed (LibraryError 1))])
  ∧ ¬ ∃ log, @ImagePreprocessor.binarize (trace_library true) [] []
             = (Ok [], log).
Proof.
  split; [eexists; vm_compute; reflexivity|].
  split; [vm_compute; reflexivity|].
  split; [vm_compute; reflexivity|].
  intros [log Hb]. vm_compute in Hb. discriminate.
Qed.

(** ** Progress observers *)

Section progress.
Import Converter.

Lemma extends_trans (p p' p'' : Pipeline) (l l' : list Call) :
  extends p p' l → extends p' p'' l' → extends p p'' (l ++ l').
Proof.
  intros (?&?&?&?&Hc) (?&?&?&?&Hc'). repeat split; try congruence.
  by rewrite Hc', Hc, app_assoc.
Qed.

Lemma invoke_extends (cb : Callback) (d : ProgressData) (p : Pipeline) :
  ∃ added, extends p (invoke cb d p) (CallProgress cb d :: added)
           ∧ now (invoke cb d p) = now p
           ∧ current_step (progress (invoke cb d p)) = current_step (progress p).
Proof.
  unfold invoke. destruct cb as [id|k]; cbn.
  - exists []. by repeat split.
  - destruct (frame p) as [fr|]; cbn; [|exists []; by repeat split].
    destruct (bf_progress_callback fr) as [user|]; cbn.
    + eexists [_]. repeat split. cbn. by rewrite <- app_assoc.
    + exists []. by repeat split.
Qed.

Lemma notify_loop_extends (d : ProgressData) (cbs : list Callback)
    (p : Pipeline) :
  ∃ added,
    extends p (foldl (fun p cb => invoke cb d p) p cbs) added
    ∧ now (foldl (fun p cb => invoke cb d p) p cbs) = now p
    ∧ current_step (progress (foldl (fun p cb => invoke cb d p) p cbs))
      = current_step (progress p)
    ∧ ∀ cb, cb ∈ cbs → CallProgress cb d ∈ added.
Proof.
  revert p. induction cbs as [|cb cbs IH]; intros p; cbn [foldl].
  - exists []. repeat split; [by rewrite app_nil_r|]. by intros cb ?%elem_of_nil.
  - destruct (invoke_extends cb d p) as (a1 & He1 & Hn1 & Hs1).
    destruct (IH (invoke cb d p)) as (a2 & He2 & Hn2 & Hs2 & Hin).
    exists ((CallProgress cb d :: a1) ++ a2).
    split; [by eapply extends_trans|].
    split; [congruence|]. split; [congruence|].
    intros cb' [->|Hcb']%elem_of_cons.
    + apply elem_of_app. left. apply elem_of_cons. by left.
    + apply elem_of_app. right. by apply Hin.
Qed.

Lemma next_step_extends (op : Operation) (p : Pipeline) :
  ∃ added,
    extends p (next_step op p) added
    ∧ now (next_step op p) = now p
    ∧ current_step (progress (next_step op p)) = current_step (progress p) + 1
    ∧ ∀ cb, cb ∈ callbacks (progress p) →
        ∃ d, pd_step d = current_step (progress p) + 1
             ∧ CallProgress cb d ∈ added.
Proof.
  unfold next_step, _notify_callbacks.
  set (p1 := with_progress _ p).
  set (d := mkProgressData _ _ _ _ _).
  destruct (notify_loop_extends d (callbacks (progress p1)) p1)
    as (added & (Hcb & Hts & Hst & Hfr & Hcalls) & Hnow & Hstep & Hin).
  exists added. repeat split; try done.
  intros cb Hcb'. exists d. split; [reflexivity|]. by apply Hin.
Qed.

Lemma advance_clock_extends (dt : Q) (p : Pipeline) :
  extends p (advance_clock dt p) [].
Proof. repeat split. cbn. by rewrite app_nil_r. Qed.

Lemma run_stages_extends (script : RunScript) (ops : list Operation)
    (p : Pipeline) :
  ∃ added,
    extends p (run_stages script ops p).1 added
    ∧ ∀ op ops', ops = op :: ops' →
        ∀ cb, cb ∈ callbacks (progress p) →
          ∃ d, pd_step d = current_step (progress p) + 1
               ∧ CallProgress cb d ∈ added.
Proof.
  revert p. induction ops as [|op ops IH]; intros p; cbn [run_stages].
  - exists []. split; [|done]. repeat split. cbn. by rewrite app_nil_r.
  - destruct (next_step_extends op p) as (a1 & He1 & _ & _ & Hin).
    pose proof (extends_trans _ _ _ _ _ He1
                  (advance_clock_extends (stage_seconds script)
                     (next_step op p))) as He.
    rewrite app_nil_r in He.
    destruct (bool_decide _); cbn [fst].
    + exists a1. split; [exact He|]. intros _ _ _ cb Hcb. by apply Hin.
    + destruct (IH (advance_clock (stage_seconds script) (next_step op p)))
        as (a2 & He2 & _).
      exists (a1 ++ a2). split; [by eapply extends_trans|].
      intros _ _ _ cb Hcb. destruct (Hin cb Hcb) as (d & Hd & Hd').
      exists d. split; [exact Hd|]. apply elem_of_app. by left.
Qed.

Lemma convert_single_extends (script : RunScript) (cb : Callback)
    (p : Pipeline) :
  ∃ added,
    callbacks (progress (convert_single script (Some cb) p).1)
    = callbacks (progress p) ++ [cb]
    ∧ total_steps (progress (convert_single script (Some cb) p).1) = 6
    ∧ start_time (progress (convert_single script (Some cb) p).1)
      = Some (now p)
    ∧ calls (convert_single script (Some cb) p).1 = calls p ++ added
    ∧ ∀ cb', cb' ∈ callbacks (progress p) ++ [cb] →
        ∃ d, pd_step d = 1 ∧ CallProgress cb' d ∈ added.
Proof.
  unfold convert_single.
  set (p0 := set_total_steps 6 (add_callback cb p)).
  destruct (run_stages_extends script
              [OpValidate; OpPreprocess; OpRecognize; OpClefConvert;
               OpOutput; OpDone] p0)
    as (added & (Hcb & Hts & Hst & _ & Hcalls) & Hin).
  exists added. repeat split; try done.
  intros cb' Hcb'. by eapply Hin.
Qed.

End progress.

(** C9. [set_total_steps] resets [total_steps], [current_step] and
    [start_time] and keeps the observer list.  Take two runs of
    [convert_single] on one pipeline instance, the first registering observer
    [c1], the second registering [c2].  The second run sets [total_steps] to 6
    and [start_time] to the clock at its start, but the observer list is not
    reset: it is the list before the first run
    followed by [c1] and [c2], and [c1] is called with step 1 during the
    second run.  In a batch of two files the wrapper of the first file is
    called during the second file, so the caller's observer receives each
    event of the second file twice. *)
Theorem observers_persist_across_runs (p : Converter.Pipeline)
    (c1 c2 : Converter.Callback) (s1 s2 : Converter.RunScript) :
  let p1 := (Converter.convert_single s1 (Some c1) p).1 in
  let p2 := (Converter.convert_single s2 (Some c2) p1).1 in
  Converter.progress (Converter.set_total_steps 6 p)
  = {| Converter.total_steps := 6; Converter.current_step := 0;
       Converter.current_operation :=
         Converter.current_operation (Converter.progress p);
       Converter.start_time := Some (Converter.now p);
       Converter.callbacks := Converter.callbacks (Converter.progress p) |}
  ∧ Converter.total_steps (Converter.progress p2) = 6
  ∧ Converter.start_time (Converter.progress p2) = Some (Converter.now p1)
  ∧ Converter.callbacks (Converter.progress p2)
    = Converter.callbacks (Converter.progress p) ++ [c1; c2]
  ∧ (∃ d, Converter.pd_step d = 1
          ∧ Converter.CallProgress c1 d
            ∈ drop (length (Converter.calls p1)) (Converter.calls p2))
  ∧ map Converter.callee_of
        (Converter.calls
           (Converter.convert_batch
              [Converter.mkScript (Some Converter.OpValidate) 1 0;
               Converter.mkScript (Some Converter.OpValidate) 1 0]
              (Some (Converter.UserCallback 7))
              (Converter.Pipeline_init 0)).1)
    = [ Converter.FileProgressCallback 0; Converter.UserCallback 7;
        Converter.FileProgressCallback 0; Converter.UserCallback 7;
        Converter.FileProgressCallback 1; Converter.UserCallback 7 ].
Proof.
  cbn zeta.
  destruct (convert_single_extends s1 c1 p) as (a1 & Hcb1 & _ & _ & _ & _).
  destruct (convert_single_extends s2 c2
              (Converter.convert_single s1 (Some c1) p).1)
    as (a2 & Hcb2 & Hts & Hst & Hcalls & Hin).
  split; [reflexivity|].
  split; [exact Hts|]. split; [exact Hst|].
  split; [by rewrite Hcb2, Hcb1, <- app_assoc|].
  split; [|vm_compute; reflexivity].
  destruct (Hin c1) as (d & Hd & Hd').
  { rewrite Hcb1. apply elem_of_app. left. apply elem_of_app. right.
    by constructor. }
  exists d. split; [exact Hd|].
  by rewrite Hcalls, drop_app_length.
Qed.

(** * Further properties *)

(** ** The clef converter beyond the position tables *)

Section clef_more.
Import ClefConverter.
Context `{NoteDefaults}.

Lemma convert_note_inverse_alto (n : Note) :
  convert_note "treble" "alto" (convert_note "alto" "treble" n) = n.
Proof.
  destruct n as [p st d v pos acc ti dt].
  unfold convert_note, set_staff_position, Note_init; cbn.
  rewrite convert_alto_treble_shift, convert_treble_alto_shift.
  f_equal. lia.
Qed.

Lemma convert_note_inverse_treble (n : Note) :
  convert_note "alto" "treble" (convert_note "treble" "alto" n) = n.
Proof.
  destruct n as [p st d v pos acc ti dt].
  unfold convert_note, set_staff_position, Note_init; cbn.
  rewrite convert_alto_treble_shift, convert_treble_alto_shift.
  f_equal. lia.
Qed.

Lemma map_inverse {A} (f g : A → A) (l : list A) :
  (∀ x, g (f x) = x) → map g (map f l) = l.
Proof.
  intros Hgf. induction l as [|x l IH]; cbn; [reflexivity|].
  by rewrite Hgf, IH.
Qed.

Lemma midi_alto_lookup (pitch : Z) :
  py_dict midi_alto_items !! pitch =
  if bool_decide (48 ≤ pitch ≤ 72) then Some (pitch - 56) else None.
Proof.
  unfold py_dict, midi_alto_items; cbn [foldl fst snd].
  repeat (rewrite lookup_insert; case_decide;
          [subst pitch; reflexivity|]).
  rewrite lookup_empty, bool_decide_eq_false_2 by lia. reflexivity.
Qed.

Lemma midi_treble_lookup (pitch : Z) :
  py_dict midi_treble_items !! pitch =
  if bool_decide (48 ≤ pitch ≤ 72) then Some (pitch - 62) else None.
Proof.
  unfold py_dict, midi_treble_items; cbn [foldl fst snd].
  repeat (rewrite lookup_insert; case_decide;
          [subst pitch; reflexivity|]).
  rewrite lookup_empty, bool_decide_eq_false_2 by lia. reflexivity.
Qed.

Lemma midi_map_alto :
  MIDI_TO_STAFF_POSITION !! "alto"%string = Some (py_dict midi_alto_items).
Proof.
  unfold MIDI_TO_STAFF_POSITION, py_dict at 1; cbn [foldl fst snd].
  rewrite lookup_insert_ne by discriminate. apply lookup_insert_eq.
Qed.

Lemma midi_map_treble :
  MIDI_TO_STAFF_POSITION !! "treble"%string = Some (py_dict midi_treble_items).
Proof.
  unfold MIDI_TO_STAFF_POSITION, py_dict at 1; cbn [foldl fst snd].
  apply lookup_insert_eq.
Qed.

Lemma midi_map_other (clef : string) :
  clef ≠ "alto"%string → clef ≠ "treble"%string →
  MIDI_TO_STAFF_POSITION !! clef = None.
Proof.
  intros Ha Ht.
  unfold MIDI_TO_STAFF_POSITION, py_dict at 1; cbn [foldl fst snd].
  rewrite !lookup_insert_ne by done. apply lookup_empty.
Qed.

(** [int(b + (pitch - a) * 0.5)] in integers. *)
Lemma py_int_half (b d : Z) :
  py_int (inject_Z b + inject_Z d * (1 # 2)) = (2 * b + d) `quot` 2.
Proof.
  unfold py_int, inject_Z, Qplus, Qmult; cbn [Qnum Qden].
  rewrite !Z.mul_1_r.
  change (Z.pos (1 * (1 * 2))) with 2.
  f_equal. lia.
Qed.

Lemma staff_position_from_pitch_alto (pitch : Z) :
  calculate_staff_position_from_pitch pitch "alto" =
  if bool_decide (48 ≤ pitch ≤ 72) then pitch - 56
  else (pitch - 52) `quot` 2.
Proof.
  unfold calculate_staff_position_from_pitch.
  rewrite midi_map_alto, midi_alto_lookup.
  case_bool_decide; [reflexivity|].
  rewrite bool_decide_eq_true_2 by reflexivity.
  rewrite py_int_half. f_equal. lia.
Qed.

Lemma staff_position_from_pitch_treble (pitch : Z) :
  calculate_staff_position_from_pitch pitch "treble" =
  if bool_decide (48 ≤ pitch ≤ 72) then pitch - 62
  else (pitch - 60) `quot` 2.
Proof.
  unfold calculate_staff_position_from_pitch.
  rewrite midi_map_treble, midi_treble_lookup.
  case_bool_decide; [reflexivity|].
  rewrite bool_decide_eq_false_2 by discriminate.
  rewrite bool_decide_eq_true_2 by reflexivity.
  rewrite py_int_half. f_equal. lia.
Qed.

(** A time never differs from itself by more than the tolerance. *)
Lemma exceeds_tolerance_self (x : Q) : exceeds_tolerance x x = false.
Proof.
  unfold exceeds_tolerance.
  destruct (Float64.ltb tolerance _) eqn:Habove; [|reflexivity].
  apply sub_self_not_above in Habove. vm_compute in Habove. discriminate.
Qed.

Lemma validate_pairs_spec (pairs : list (Note * Note)) :
  validate_pairs pairs = true ↔
  Forall (fun '(o, c) => conversion_agrees o c) pairs.
Proof.
  unfold conversion_agrees.
  induction pairs as [|[o c] l IH]; cbn [validate_pairs].
  - split; [constructor|reflexivity].
  - rewrite Forall_cons, <- IH.
    case_bool_decide as Hp.
    { split; [discriminate|]. intros [[? _] _]. done. }
    destruct (exceeds_tolerance (start_time o) (start_time c)) eqn:Hs.
    { split; [discriminate|]. intros [(_ & [=] & _) _]. }
    destruct (exceeds_tolerance (duration o) (duration c)) eqn:Hd.
    { split; [discriminate|]. intros [(_ & _ & [=]) _]. }
    split; [|by intros [_ ?]].
    intros Hv. repeat split; done.
Qed.

Lemma validate_conversion_spec (original converted : list Note) :
  validate_conversion original converted = true
  ↔ Forall2 conversion_agrees original converted.
Proof.
  unfold validate_conversion.
  case_bool_decide as Hlen.
  - split; [discriminate|]. intros HF. by apply Forall2_length in HF.
  - rewrite validate_pairs_spec.
    revert converted Hlen.
    induction original as [|o l IH]; intros [|c l'] Hlen; try discriminate.
    + split; constructor.
    + cbn [zip zip_with]. rewrite Forall_cons, Forall2_cons.
      rewrite IH by (cbn in Hlen; lia). reflexivity.
Qed.

End clef_more.

(** X1. The two clef conversions are inverse to each other on whole notes:
    converting any list of notes one way and then back gives the list itself,
    whatever the staff positions are (inside or outside the tables). *)
Theorem clef_conversion_inverse `{NoteDefaults} (notes : list Note) :
  ClefConverter.convert_treble_to_alto
    (ClefConverter.convert_alto_to_treble notes) = notes
  ∧ ClefConverter.convert_alto_to_treble
      (ClefConverter.convert_treble_to_alto notes) = notes.
Proof.
  rewrite !convert_alto_to_treble_map, !convert_treble_to_alto_map.
  split; apply map_inverse.
  - apply convert_note_inverse_alto.
  - apply convert_note_inverse_treble.
Qed.

(** X2. [validate_conversion] returns [True] exactly when the two lists have
    the same length and every pair of notes at the same index has equal
    pitch and start times and durations whose float difference does not
    exceed the float 0.001 in absolute value; staff position, velocity,
    accidental, tie and dot are not looked at.  The test is made on the
    rounded difference: 0.1 and 0.101 fail it, 0 and 0.001 pass it. *)
Theorem validate_conversion_characterised (original converted : list Note)
    (n : Note) :
  (ClefConverter.validate_conversion original converted = true
   ↔ Forall2 conversion_agrees original converted)
  ∧ ClefConverter.validate_conversion
      [set_start_time (1 # 10) n] [set_start_time (101 # 1000) n] = false
  ∧ ClefConverter.validate_conversion
      [set_start_time 0 n] [set_start_time (1 # 1000) n] = true.
Proof.
  split; [apply validate_conversion_spec|].
  unfold ClefConverter.validate_conversion. cbn [length zip zip_with].
  rewrite !bool_decide_eq_false_2 by (intros Hne; by apply Hne).
  cbn [ClefConverter.validate_pairs set_start_time pitch start_time duration].
  rewrite !bool_decide_eq_false_2 by (intros Hne; by apply Hne).
  assert (Hfar : ClefConverter.exceeds_tolerance (1 # 10) (101 # 1000) = true)
    by (vm_compute; reflexivity).
  assert (Hnear : ClefConverter.exceeds_tolerance 0 (1 # 1000) = false)
    by (vm_compute; reflexivity).
  rewrite Hfar, Hnear, exceeds_tolerance_self. split; reflexivity.
Qed.

(** X3. The output of either clef conversion always passes
    [validate_conversion] against its input. *)
Theorem converted_notes_validate `{NoteDefaults} (notes : list Note) :
  ClefConverter.validate_conversion
    notes (ClefConverter.convert_alto_to_treble notes) = true
  ∧ ClefConverter.validate_conversion
      notes (ClefConverter.convert_treble_to_alto notes) = true.
Proof.
  rewrite !validate_conversion_spec.
  rewrite convert_alto_to_treble_map, convert_treble_to_alto_map.
  split; (induction notes as [|n l IH]; cbn [map]; [constructor|]);
    (constructor; [|exact IH]);
    (split; [reflexivity|]); cbn; split; apply exceeds_tolerance_self.
Qed.

(** X4. [calculate_staff_position_from_pitch]: for a pitch in the table range
    48..72 the alto position is [pitch - 56], the treble position is
    [pitch - 62], and converting the alto position to treble gives the treble
    position.  Outside the tables the formula puts the alto position only 4
    above the treble position, and any other clef gives 0. *)
Theorem staff_position_from_pitch_consistency (pitch : Z) (clef : string) :
  (48 ≤ pitch ≤ 72 →
   ClefConverter.calculate_staff_position_from_pitch pitch "alto" = pitch - 56
   ∧ ClefConverter.calculate_staff_position_from_pitch pitch "treble"
     = pitch - 62
   ∧ ClefConverter._convert_staff_position
       (ClefConverter.calculate_staff_position_from_pitch pitch "alto")
       "alto" "treble"
     = ClefConverter.calculate_staff_position_from_pitch pitch "treble")
  ∧ (¬ (48 ≤ pitch ≤ 72) →
     ClefConverter.calculate_staff_position_from_pitch pitch "alto"
     - ClefConverter.calculate_staff_position_from_pitch pitch "treble" = 4)
  ∧ (clef ≠ "alto"%string → clef ≠ "treble"%string →
     ClefConverter.calculate_staff_position_from_pitch pitch clef = 0).
Proof.
  rewrite staff_position_from_pitch_alto, staff_position_from_pitch_treble.
  split; [|split].
  - intros Hin. rewrite !bool_decide_eq_true_2 by done.
    rewrite convert_alto_treble_shift. lia.
  - intros Hout. rewrite !bool_decide_eq_false_2 by done.
    Z.to_euclidean_division_equations; lia.
  - intros Ha Ht. unfold ClefConverter.calculate_staff_position_from_pitch.
    by rewrite midi_map_other.
Qed.

Lemma staff_position_from_pitch_consistency_witness :
  ClefConverter.calculate_staff_position_from_pitch 60 "alto" = 60 - 56
  ∧ ClefConverter.calculate_staff_position_from_pitch 73 "alto"
    - ClefConverter.calculate_staff_position_from_pitch 73 "treble" = 4
  ∧ ClefConverter.calculate_staff_position_from_pitch 60 "bass" = 0.
Proof.
  split; [|split].
  - apply (staff_position_from_pitch_consistency 60 "bass"). lia.
  - apply (staff_position_from_pitch_consistency 73 "bass"). lia.
  - apply (staff_position_from_pitch_consistency 60 "bass"); discriminate.
Defined.

(** X5. [handle_ledger_lines] returns the position unchanged with a ledger
    count that is never negative; for treble the count is 0 exactly on
    positions 2..10 and for alto exactly on positions 0..8; [k] positions
    outside the staff give [(k + 1) // 2] ledger lines; the treble count at
    [position] is the alto count at [position - 2]; any other clef gives 0. *)
Theorem ledger_lines_count (position : Z) (clef : string) :
  (ClefConverter.handle_ledger_lines position clef).1 = position
  ∧ 0 ≤ (ClefConverter.handle_ledger_lines position clef).2
  ∧ ((ClefConverter.handle_ledger_lines position "treble").2 = 0
     ↔ 2 ≤ position ≤ 10)
  ∧ ((ClefConverter.handle_ledger_lines position "alto").2 = 0
     ↔ 0 ≤ position ≤ 8)
  ∧ (ClefConverter.handle_ledger_lines position "alto").2
    = (Z.max 0 (Z.max (0 - position) (position - 8)) + 1) `div` 2
  ∧ (ClefConverter.handle_ledger_lines position "treble").2
    = (ClefConverter.handle_ledger_lines (position - 2) "alto").2
  ∧ (clef ≠ "treble"%string → clef ≠ "alto"%string →
     (ClefConverter.handle_ledger_lines position clef).2 = 0).
Proof.
  unfold ClefConverter.handle_ledger_lines; cbn [fst snd].
  split; [reflexivity|].
  split.
  { repeat case_bool_decide; try lia;
      Z.to_euclidean_division_equations; lia. }
  rewrite !(bool_decide_eq_true_2 ("treble"%string = "treble"%string))
    by reflexivity.
  rewrite !(bool_decide_eq_false_2 ("alto"%string = "treble"%string))
    by discriminate.
  rewrite !(bool_decide_eq_true_2 ("alto"%string = "alto"%string))
    by reflexivity.
  repeat split; intros; repeat case_bool_decide; try done; try lia;
    try (Z.to_euclidean_division_equations; lia).
Qed.

Lemma ledger_lines_count_witness :
  (ClefConverter.handle_ledger_lines 13 "bass").2 = 0.
Proof.
  apply (ledger_lines_count 13 "bass"); discriminate.
Defined.

(** X6. [convert_recognition_result] raises exactly when the result has no
    metadata or when source and target clef differ and are not the pair
    alto/treble in either order; when the clefs are equal it returns the
    result it was given. *)
Theorem convert_recognition_result_raises `{NoteDefaults}
    (result : RecognitionResult) (target_clef : string) :
  ((∃ e, ClefConverter.convert_recognition_result result target_clef
         = Raise e)
   ↔ metadata result = None
     ∨ ∃ md, metadata result = Some md
             ∧ clef_type md ≠ target_clef
             ∧ ¬ (clef_type md = "alto"%string ∧ target_clef = "treble"%string)
             ∧ ¬ (clef_type md = "treble"%string ∧ target_clef = "alto"%string))
  ∧ (∀ md, metadata result = Some md → clef_type md = target_clef →
       ClefConverter.convert_recognition_result result target_clef
       = Ok result).
Proof.
  unfold ClefConverter.convert_recognition_result.
  destruct (metadata result) as [md|]; cycle 1.
  { split; [|discriminate]. split; [by left|]. intros _. by eexists. }
  split.
  - destruct (decide (clef_type md = target_clef)) as [Heq|Hne].
    { rewrite bool_decide_eq_true_2 by done.
      split; [by intros [e ?]|].
      intros [?|(md' & [= <-] & ? & _)]; done. }
    rewrite bool_decide_eq_false_2 by done.
    destruct (decide (clef_type md = "alto"%string
                      ∧ target_clef = "treble"%string)) as [Hat|Hat].
    { rewrite bool_decide_eq_true_2 by done.
      split; [by intros [e ?]|].
      intros [?|(md' & [= <-] & _ & ? & _)]; done. }
    rewrite (bool_decide_eq_false_2 _ Hat).
    destruct (decide (clef_type md = "treble"%string
                      ∧ target_clef = "alto"%string)) as [Hta|Hta].
    { rewrite bool_decide_eq_true_2 by done.
      split; [by intros [e ?]|].
      intros [?|(md' & [= <-] & _ & _ & ?)]; done. }
    rewrite (bool_decide_eq_false_2 _ Hta).
    split; [|by eexists]. intros _. right. by exists md.
  - intros md' [= <-] Heq. by rewrite bool_decide_eq_true_2.
Qed.

Lemma convert_recognition_result_raises_witness :
  @ClefConverter.convert_recognition_result sample_defaults
    (mkRecognitionResult [] (Some (mkScoreMetadata (4, 4) "C" 120 "bass" "" ""))
       [] 1 0 "" [] [])
    "bass"
  = Ok (mkRecognitionResult []
          (Some (mkScoreMetadata (4, 4) "C" 120 "bass" "" "")) [] 1 0 "" [] []).
Proof.
  apply (proj2 (@convert_recognition_result_raises sample_defaults
                  (mkRecognitionResult []
                     (Some (mkScoreMetadata (4, 4) "C" 120 "bass" "" ""))
                     [] 1 0 "" [] [])
                  "bass")
           (mkScoreMetadata (4, 4) "C" 120 "bass" "" ""));
    reflexivity.
Defined.

(** X7. Converting an alto result to treble and the new result back to alto
    succeeds and restores the notes and the metadata; measures, confidence,
    processing time, image path and errors are those of the input, and the
    warnings are the input's followed by one message per conversion. *)
Theorem convert_recognition_result_round_trip `{NoteDefaults}
    (result : RecognitionResult) (md : ScoreMetadata) :
  metadata result = Some md →
  clef_type md = "alto"%string →
  ∃ r1 r2,
    ClefConverter.convert_recognition_result result "treble" = Ok r1
    ∧ ClefConverter.convert_recognition_result r1 "alto" = Ok r2
    ∧ notes r1 = ClefConverter.convert_alto_to_treble (notes result)
    ∧ (clef_type <$> metadata r1) = Some "treble"%string
    ∧ notes r2 = notes result
    ∧ metadata r2 = Some md
    ∧ measures r2 = measures result
    ∧ confidence r2 = confidence result
    ∧ processing_time r2 = processing_time result
    ∧ image_path r2 = image_path result
    ∧ errors r2 = errors result
    ∧ warnings r2 = warnings result
                    ++ ["谱号已从alto转换为treble"; "谱号已从treble转换为alto"]%string.
Proof.
  intros Hmd Hclef.
  unfold ClefConverter.convert_recognition_result at 1.
  rewrite Hmd, Hclef.
  rewrite bool_decide_eq_false_2 by discriminate.
  rewrite bool_decide_eq_true_2 by done.
  eexists _, _. split; [reflexivity|].
  unfold ClefConverter.convert_recognition_result, add_warning;
    cbn [metadata clef_type notes measures confidence processing_time
         image_path errors warnings].
  rewrite bool_decide_eq_false_2 by discriminate.
  rewrite bool_decide_eq_false_2 by (intros [? _]; discriminate).
  rewrite bool_decide_eq_true_2 by done.
  split; [reflexivity|].
  cbn [metadata clef_type notes measures confidence processing_time
       image_path errors warnings fmap option_fmap option_map].
  repeat split.
  - apply clef_conversion_inverse.
  - destruct md; cbn in *. by subst.
  - by rewrite <- app_assoc.
Qed.

Lemma convert_recognition_result_round_trip_witness :
  ∃ r1 r2,
    @ClefConverter.convert_recognition_result sample_defaults
      (mkRecognitionResult [sample_note 60 0 1 4 true false]
         (Some (mkScoreMetadata (4, 4) "C" 120 "alto" "" ""))
         [] 1 0 "" [] []) "treble" = Ok r1
    ∧ @ClefConverter.convert_recognition_result sample_defaults r1 "alto"
      = Ok r2
    ∧ notes r2 = [sample_note 60 0 1 4 true false].
Proof.
  destruct (@convert_recognition_result_round_trip sample_defaults
              (mkRecognitionResult [sample_note 60 0 1 4 true false]
                 (Some (mkScoreMetadata (4, 4) "C" 120 "alto" "" ""))
                 [] 1 0 "" [] [])
              (mkScoreMetadata (4, 4) "C" 120 "alto" "" "")
              eq_refl eq_refl)
    as (r1 & r2 & H1 & H2 & _ & _ & H3 & _).
  exists r1, r2. auto.
Defined.

(** X8. [get_conversion_info] on the two supported directions reports
    [supported] and the offset that [_convert_staff_position] adds to every
    position.  For a pair it reports as unsupported, positions are left
    unchanged by [_convert_staff_position] although the reported offset
    is 6. *)
Theorem conversion_info_offset (position : Z) (from_clef to_clef : string) :
  ClefConverter.info_supported
    (ClefConverter.get_conversion_info "alto" "treble") = true
  ∧ ClefConverter.info_supported
      (ClefConverter.get_conversion_info "treble" "alto") = true
  ∧ ClefConverter._convert_staff_position position "alto" "treble"
    = position + ClefConverter.info_position_offset
                   (ClefConverter.get_conversion_info "alto" "treble")
  ∧ ClefConverter._convert_staff_position position "treble" "alto"
    = position + ClefConverter.info_position_offset
                   (ClefConverter.get_conversion_info "treble" "alto")
  ∧ (ClefConverter.info_supported
       (ClefConverter.get_conversion_info from_clef to_clef) = false →
     ClefConverter._convert_staff_position position from_clef to_clef
     = position
     ∧ ClefConverter.info_position_offset
         (ClefConverter.get_conversion_info from_clef to_clef) = 6).
Proof.
  split; [vm_compute; reflexivity|]. split; [vm_compute; reflexivity|].
  split; [rewrite convert_alto_treble_shift; reflexivity|].
  split; [rewrite convert_treble_alto_shift; reflexivity|].
  unfold ClefConverter.get_conversion_info,
    ClefConverter._convert_staff_position;
    cbn [ClefConverter.info_supported ClefConverter.info_position_offset].
  intros Hsup. apply bool_decide_eq_false in Hsup.
  destruct (ClefConverter.CLEF_POSITION_MAP
              !! (from_clef +:+ "_to_" +:+ to_clef)%string) as [m|] eqn:Hm.
  { exfalso. apply Hsup. by eexists. }
  split; [reflexivity|].
  case_bool_decide as Hat; [|reflexivity].
  destruct Hat as [-> ->].
  change ("alto" +:+ "_to_" +:+ "treble")%string
    with "alto_to_treble"%string in Hm.
  by rewrite position_map_alto_to_treble in Hm.
Qed.

Lemma conversion_info_offset_witness :
  ClefConverter._convert_staff_position 3 "alto" "bass" = 3.
Proof.
  apply (conversion_info_offset 3 "alto" "bass"). vm_compute. reflexivity.
Defined.

(** ** Staff lines, staff positions and note candidates *)

Lemma foldl_select {A B} (P : A → bool) (f : A → B) (l : list A)
    (acc : list B) :
  foldl (fun out x => if P x then out ++ [f x] else out) acc l
  = acc ++ map f (List.filter P l).
Proof.
  revert acc. induction l as [|x l IH]; intros acc; cbn.
  - by rewrite app_nil_r.
  - rewrite IH. destruct (P x); cbn; [|reflexivity].
    by rewrite <- app_assoc.
Qed.

Section staff_lines.
Import OMREngine.

Lemma list_max_spec (l : list Z) (m : Z) :
  list_max l = Some m → m ∈ l ∧ Forall (fun x => x ≤ m) l.
Proof.
  revert m. induction l as [|x l IH]; intros m; cbn; [discriminate|].
  destruct (list_max l) as [m'|] eqn:Hm.
  - intros [= <-]. destruct (IH m' eq_refl) as [Hin Hle].
    split.
    + destruct (Z.max_spec x m') as [[_ ->]|[_ ->]];
        [by apply list_elem_of_further|by apply list_elem_of_here].
    + constructor; [lia|].
      eapply Forall_impl; [exact Hle|]. intros y Hy. cbn in Hy. lia.
  - intros [= <-]. destruct l; [|cbn in Hm; by destruct (list_max l)].
    split; [by apply list_elem_of_here|]. by repeat constructor.
Qed.

Lemma list_min_spec (l : list Z) :
  l ≠ [] → ∃ m, list_min l = Some m ∧ m ∈ l ∧ Forall (fun x => m ≤ x) l.
Proof.
  induction l as [|x l IH]; [done|]. intros _. cbn.
  destruct l as [|x' l].
  - exists x. cbn. split; [reflexivity|].
    split; [by apply list_elem_of_here|]. by repeat constructor.
  - destruct IH as (m & -> & Hin & Hle); [done|].
    case_bool_decide.
    + exists m. split; [reflexivity|].
      split; [by apply list_elem_of_further|]. constructor; [lia|done].
    + exists x. split; [reflexivity|].
      split; [by apply list_elem_of_here|]. constructor; [lia|].
      eapply Forall_impl; [exact Hle|]. intros y Hy. cbn in Hy. lia.
Qed.

Lemma list_index_spec (v : Z) (l : list Z) :
  v ∈ l →
  ∃ i, list_index v l = Some i ∧ l !! i = Some v
       ∧ ∀ j x, (j < i)%nat → l !! j = Some x → x ≠ v.
Proof.
  induction l as [|x l IH]; [by intros ?%elem_of_nil|].
  intros Hin. cbn. case_bool_decide as Hx.
  - exists 0%nat. subst x. split; [reflexivity|]. split; [reflexivity|].
    intros j y Hj. lia.
  - apply elem_of_cons in Hin as [->|Hin]; [done|].
    destruct (IH Hin) as (i & -> & Hi & Hfirst).
    exists (S i). split; [reflexivity|]. split; [exact Hi|].
    intros [|j] y Hj; cbn.
    + by intros [= <-].
    + apply Hfirst. lia.
Qed.

(** [int(staff_position * 2)] for the three values of [staff_position]. *)
Lemma py_int_doubled (k : Z) :
  py_int (inject_Z k * 2) = 2 * k
  ∧ py_int ((inject_Z k + (1 # 2)) * 2) = 2 * k + 1
  ∧ py_int ((inject_Z k - (1 # 2)) * 2) = 2 * k - 1.
Proof.
  unfold py_int, inject_Z, Qminus, Qplus, Qopp, Qmult; cbn [Qnum Qden].
  change (Z.pos (1 * 1)) with 1. change (Z.pos (1 * 2 * 1)) with 2.
  repeat split.
  - rewrite Z.quot_1_r. lia.
  - replace ((k * 2 + 1 * 1) * 2) with ((2 * k + 1) * 2) by lia.
    by rewrite Z.quot_mul.
  - replace ((k * 2 + - (1) * 1) * 2) with ((2 * k - 1) * 2) by lia.
    by rewrite Z.quot_mul.
Qed.

End staff_lines.

(** X9. With five or more staff lines [_calculate_staff_position] returns
    (it never raises) twice the index of the nearest staff line counted from
    the third line, the first such line when two are equally near, plus a
    half-step: 0 when the centroid is within 5 rows of that line, +1 when it
    is further away and above it, -1 when further away and below. *)
Theorem calculate_staff_position_nearest_line (y : Z) (staff_lines : list Z) :
  (5 ≤ length staff_lines)%nat →
  ∃ idx line,
    staff_lines !! idx = Some line
    ∧ (∀ l, l ∈ staff_lines → Z.abs (y - line) ≤ Z.abs (y - l))
    ∧ (∀ j l, (j < idx)%nat → staff_lines !! j = Some l →
         Z.abs (y - line) < Z.abs (y - l))
    ∧ OMREngine._calculate_staff_position y staff_lines
      = Ok (2 * (Z.of_nat idx - 2) + line_offset y line).
Proof.
  intros Hlen. unfold OMREngine._calculate_staff_position.
  rewrite bool_decide_eq_false_2
    by (intros [->|?]; [cbn in Hlen; lia|lia]).
  set (distances := map (fun line => Z.abs (y - line)) staff_lines).
  destruct (list_min_spec distances) as (m & Hmin & Hin & Hle).
  { subst distances. destruct staff_lines; [cbn in Hlen; lia|done]. }
  destruct (list_index_spec m distances Hin) as (i & Hidx & Hi & Hfirst).
  rewrite Hmin, Hidx, Hi.
  assert (Hline : ∃ line, staff_lines !! i = Some line
                          ∧ m = Z.abs (y - line)).
  { subst distances. change map with (@fmap list _) in Hi.
    rewrite list_lookup_fmap in Hi.
    destruct (staff_lines !! i) as [line|]; [|discriminate].
    injection Hi as <-. by exists line. }
  destruct Hline as (line & Hl & Hm). rewrite Hl.
  exists i, line. split; [exact Hl|]. split; [|split].
  - intros l Hlin. rewrite <- Hm.
    rewrite Forall_forall in Hle. apply Hle.
    subst distances. change map with (@fmap list _).
    by apply (list_elem_of_fmap_2 (fun line => Z.abs (y - line))).
  - intros j l Hj Hjl.
    assert (Hdj : distances !! j = Some (Z.abs (y - l))).
    { subst distances. change map with (@fmap list _).
      by rewrite list_lookup_fmap, Hjl. }
    specialize (Hfirst j _ Hj Hdj).
    assert (m ≤ Z.abs (y - l)).
    { rewrite Forall_forall in Hle. apply Hle.
      by eapply list_elem_of_lookup_2. }
    lia.
  - f_equal. unfold line_offset. rewrite <- Hm.
    destruct (py_int_doubled (Z.of_nat i - 2)) as (H0 & H1 & H2).
    repeat case_bool_decide; try lia; rewrite ?H0, ?H1, ?H2; lia.
Qed.

Lemma calculate_staff_position_nearest_line_witness :
  ∃ idx line,
    [100; 120; 140; 160; 180] !! idx = Some line
    ∧ OMREngine._calculate_staff_position 111 [100; 120; 140; 160; 180]
      = Ok (2 * (Z.of_nat idx - 2) + line_offset 111 line).
Proof.
  destruct (calculate_staff_position_nearest_line 111
              [100; 120; 140; 160; 180])
    as (idx & line & Hl & _ & _ & Hp); [cbn; lia|].
  by exists idx, line.
Defined.

Section candidates.
Import OMREngine.
Context `{NoteDefaults}.

Lemma calculate_staff_position_total (y : Z) (staff_lines : list Z) :
  _calculate_staff_position y staff_lines
  = Ok (staff_position_of y staff_lines).
Proof.
  unfold staff_position_of.
  destruct (decide (length staff_lines < 5)%nat) as [Hlt|Hge].
  - by rewrite calculate_staff_position_few_lines.
  - destruct (calculate_staff_position_nearest_line y staff_lines)
      as (idx & line & _ & _ & _ & ->); [lia|reflexivity].
Qed.

Lemma detect_body_note (image_width : Z) (staff_lines : list Z)
    (acc : list Note) (c : Contour) :
  image_width ≠ 0 →
  detect_body image_width staff_lines acc c
  = Ok (if note_sized c
        then acc ++ [detected_note image_width staff_lines c] else acc).
Proof.
  intros Hw. unfold detect_body, note_sized.
  destruct (Qltb 50 (c_area c) && Qltb (c_area c) 1000); [|reflexivity].
  rewrite calculate_staff_position_total. cbn.
  rewrite py_truediv_ok; [reflexivity|].
  unfold Qeq, inject_Z; cbn. lia.
Qed.

Lemma detect_loop_notes (image_width : Z) (staff_lines : list Z)
    (contours : list Contour) (acc : list Note) :
  image_width ≠ 0 →
  for_each (detect_body image_width staff_lines) acc contours
  = Ok (acc ++ map (detected_note image_width staff_lines)
                   (List.filter note_sized contours)).
Proof.
  intros Hw. revert acc.
  induction contours as [|c l IH]; intros acc; cbn [for_each List.filter].
  - cbn. by rewrite app_nil_r.
  - rewrite detect_body_note by done. cbn. rewrite IH.
    destruct (note_sized c); cbn; [|reflexivity].
    by rewrite <- app_assoc.
Qed.

Lemma detect_body_zero_width (staff_lines : list Z) (acc : list Note)
    (c : Contour) :
  detect_body 0 staff_lines acc c
  = if note_sized c then Raise ZeroDivisionError else Ok acc.
Proof.
  unfold detect_body, note_sized.
  destruct (Qltb 50 (c_area c) && Qltb (c_area c) 1000); [|reflexivity].
  by rewrite calculate_staff_position_total.
Qed.

Lemma detect_loop_zero_width (staff_lines : list Z) (contours : list Contour)
    (acc : list Note) :
  for_each (detect_body 0 staff_lines) acc contours = Ok acc
  ∨ ∃ e, for_each (detect_body 0 staff_lines) acc contours = Raise e.
Proof.
  induction contours as [|c l IH]; cbn [for_each]; [by left|].
  rewrite detect_body_zero_width.
  destruct (note_sized c); cbn; [right; by eexists|exact IH].
Qed.

End candidates.

(** C10. When fewer than five staff lines are handed to the heuristic
    detector (none included), the staff position computed for any centroid is
    0, and the detector goes on emitting its candidates: for an image of
    non-zero width it returns, in contour order, one note per contour whose
    area lies strictly between 50 and 1000, and each of these notes has staff
    position 0 and the alto base pitch 60 (with start time [x / width * 4]
    and duration 0.5).  The result is a plain list of notes; nothing in it
    tells that the staff lines were missing. *)
Theorem detect_notes_few_staff_lines `{NoteDefaults}
    (found : result PyExn (list OMREngine.Contour))
    (contours : list OMREngine.Contour) (image_width : Z)
    (staff_lines : list Z) :
  (length staff_lines < 5)%nat →
  (∀ y, OMREngine._calculate_staff_position y staff_lines = Ok 0)
  ∧ (image_width ≠ 0 →
     OMREngine.detect_notes_basic (Ok contours) image_width staff_lines
     = map (fun c =>
              Note_init 60
                (inject_Z (OMREngine.c_x c) / inject_Z image_width * 4)%Q
                (1 # 2) None (Some 0) None None None)
           (List.filter note_sized contours))
  ∧ Forall (fun n => staff_position n = 0 ∧ pitch n = 60)
           (OMREngine.detect_notes_basic found image_width staff_lines).
Proof.
  intros Hlen. split; [|split].
  - intros y. by apply calculate_staff_position_few_lines.
  - intros Hw. unfold OMREngine.detect_notes_basic. cbn [mbind result_bind].
    rewrite detect_loop_notes by done. cbn [app].
    apply map_ext. intros c. unfold detected_note, staff_position_of.
    by rewrite calculate_staff_position_few_lines.
  - unfold OMREngine.detect_notes_basic.
    destruct found as [cs|e]; cbn; [|constructor].
    destruct (for_each _ _ _) as [out|e] eqn:Hloop; [|constructor].
    eapply detect_loop_few_lines; [exact Hlen| |exact Hloop]. constructor.
Qed.

Lemma detect_notes_few_staff_lines_witness :
  @OMREngine.detect_notes_basic sample_defaults
     (Ok [OMREngine.mkContour 100 10 95 10 10;
          OMREngine.mkContour 10 20 95 10 10;
          OMREngine.mkContour 400 50 127 10 10])
     100 [100; 120; 140; 160]
  = [@Note_init sample_defaults 60 (10 / 100 * 4)%Q (1 # 2) None (Some 0)
       None None None;
     @Note_init sample_defaults 60 (50 / 100 * 4)%Q (1 # 2) None (Some 0)
       None None None].
Proof.
  destruct (@detect_notes_few_staff_lines sample_defaults (Raise ValueError)
              [OMREngine.mkContour 100 10 95 10 10;
               OMREngine.mkContour 10 20 95 10 10;
               OMREngine.mkContour 400 50 127 10 10]
              100 [100; 120; 140; 160])
    as (_ & Hemit & _).
  - cbn. lia.
  - rewrite Hemit by lia. reflexivity.
Defined.

(** X10. For an image of non-zero width whose contours were found,
    [detect_notes_basic] returns, in contour order, exactly one note per
    contour whose area lies strictly between 50 and 1000: its staff position
    is the one computed for the centre row [y + h // 2] of the bounding box,
    its pitch is [60 + staff position] clamped to [21, 108], its start time
    is [x / width * 4] and its duration 0.5.  An exception while finding the
    contours, or a width of zero, gives the empty list. *)
Theorem detect_notes_basic_candidates `{NoteDefaults}
    (contours : list OMREngine.Contour) (image_width : Z)
    (staff_lines : list Z) (e : PyExn) :
  (image_width ≠ 0 →
   OMREngine.detect_notes_basic (Ok contours) image_width staff_lines
   = map (detected_note image_width staff_lines)
         (List.filter note_sized contours))
  ∧ Forall (fun n => 21 ≤ pitch n ≤ 108
                     ∧ pitch n = Z.max 21 (Z.min 108 (60 + staff_position n))
                     ∧ duration n = (1 # 2)%Q)
           (OMREngine.detect_notes_basic (Ok contours) image_width
              staff_lines)
  ∧ OMREngine.detect_notes_basic (Ok contours) 0 staff_lines = []
  ∧ OMREngine.detect_notes_basic (Raise e) image_width staff_lines = [].
Proof.
  assert (Hzero : OMREngine.detect_notes_basic (Ok contours) 0 staff_lines
                  = []).
  { unfold OMREngine.detect_notes_basic. cbn.
    destruct (detect_loop_zero_width staff_lines contours [])
      as [->|[e' ->]]; reflexivity. }
  assert (Hmap : image_width ≠ 0 →
            OMREngine.detect_notes_basic (Ok contours) image_width staff_lines
            = map (detected_note image_width staff_lines)
                  (List.filter note_sized contours)).
  { intros Hw. unfold OMREngine.detect_notes_basic. cbn.
    by rewrite detect_loop_notes. }
  split; [exact Hmap|]. split; [|split; [exact Hzero|reflexivity]].
  destruct (decide (image_width = 0)) as [->|Hw]; [rewrite Hzero; constructor|].
  rewrite (Hmap Hw). apply Forall_forall. intros n Hn.
  apply list_elem_of_In, in_map_iff in Hn as (c & <- & _).
  cbn. split; [lia|]. split; reflexivity.
Qed.

Lemma detect_notes_basic_candidates_witness :
  @OMREngine.detect_notes_basic sample_defaults
     (Ok [OMREngine.mkContour 100 10 95 10 10;
          OMREngine.mkContour 10 20 95 10 10;
          OMREngine.mkContour 400 50 127 10 10])
     100 [100; 120; 140; 160; 180]
  = map (@detected_note sample_defaults 100 [100; 120; 140; 160; 180])
        [OMREngine.mkContour 100 10 95 10 10;
         OMREngine.mkContour 400 50 127 10 10].
Proof.
  apply (@detect_notes_basic_candidates sample_defaults
           [OMREngine.mkContour 100 10 95 10 10;
            OMREngine.mkContour 10 20 95 10 10;
            OMREngine.mkContour 400 50 127 10 10]
           100 [100; 120; 140; 160; 180] ValueError).
  lia.
Defined.

Section line_filter.
Import OMREngine.

Lemma is_peak_spec (projection : list Z) (m : Z) (i : nat) :
  list_max projection = Some m →
  is_peak projection (inject_Z m * (3 # 10)) i = true
  ↔ strict_peak projection i.
Proof.
  intros Hm. unfold is_peak, strict_peak. split.
  - destruct (projection !! i) as [v|]; [|discriminate].
    destruct (projection !! (i - 1)%nat) as [a|]; [|discriminate].
    destruct (projection !! (i + 1)%nat) as [b|]; [|discriminate].
    intros [[Ht Ha%bool_decide_eq_true]%andb_true_iff
              Hb%bool_decide_eq_true]%andb_true_iff.
    apply Qltb_lt in Ht. by exists v, a, b, m.
  - intros (v & a & b & m' & -> & -> & -> & Hm' & Ht & Ha & Hb).
    assert (m' = m) as -> by congruence.
    rewrite (proj2 (Qltb_lt _ _) Ht), !bool_decide_eq_true_2 by done.
    reflexivity.
Qed.

Lemma seq_filter_increasing (P : nat → bool) (a n : nat) :
  StronglySorted Z.lt (map Z.of_nat (List.filter P (seq a n))).
Proof.
  revert a. induction n as [|n IH]; intros a; cbn; [constructor|].
  destruct (P a); cbn; [|apply IH].
  constructor; [apply IH|].
  apply Forall_forall. intros z Hz.
  apply list_elem_of_In, in_map_iff in Hz as (j & <- & Hj).
  apply filter_In in Hj as [Hj _]. apply in_seq in Hj. lia.
Qed.

Lemma filter_loop_gaps (l acc : list Z) :
  Sorted line_gap acc →
  Sorted line_gap
    (foldl (fun filtered_lines line =>
              match last filtered_lines with
              | None => filtered_lines ++ [line]
              | Some kept =>
                  if bool_decide (10 < line - kept)
                  then filtered_lines ++ [line] else filtered_lines
              end) acc l).
Proof.
  revert acc. induction l as [|x l IH]; intros acc Hacc; cbn [foldl];
    [exact Hacc|].
  apply IH. destruct (last acc) as [kept|] eqn:Hlast.
  - case_bool_decide; [|exact Hacc].
    apply last_Some in Hlast as [acc' ->].
    apply Sorted_snoc; [exact Hacc|]. constructor. unfold line_gap. lia.
  - apply last_None in Hlast as ->. repeat constructor.
Qed.

Lemma filter_loop_subset (l acc : list Z) (x : Z) :
  x ∈ foldl (fun filtered_lines line =>
               match last filtered_lines with
               | None => filtered_lines ++ [line]
               | Some kept =>
                   if bool_decide (10 < line - kept)
                   then filtered_lines ++ [line] else filtered_lines
               end) acc l →
  x ∈ acc ∨ x ∈ l.
Proof.
  revert acc. induction l as [|y l IH]; intros acc; cbn [foldl]; [by left|].
  intros Hx. apply IH in Hx as [Hx|Hx];
    [|right; by apply list_elem_of_further].
  destruct (last acc) as [kept|];
    [destruct (bool_decide (10 < y - kept)); [|by left]|];
    apply elem_of_app in Hx as [Hx|Hx%list_elem_of_singleton];
    try (by left); right; subst; apply list_elem_of_here.
Qed.

Lemma filter_loop_keeps (l acc : list Z) (x : Z) :
  x ∈ acc →
  x ∈ foldl (fun filtered_lines line =>
               match last filtered_lines with
               | None => filtered_lines ++ [line]
               | Some kept =>
                   if bool_decide (10 < line - kept)
                   then filtered_lines ++ [line] else filtered_lines
               end) acc l.
Proof.
  revert acc. induction l as [|y l IH]; intros acc Hx; cbn [foldl];
    [exact Hx|].
  apply IH. destruct (last acc) as [kept|];
    [destruct (bool_decide (10 < y - kept)); [|exact Hx]|];
    apply elem_of_app; by left.
Qed.

Lemma filter_loop_cover (l acc : list Z) (c : Z) :
  StronglySorted Z.lt l →
  (∀ k x, k ∈ acc → x ∈ l → k < x) →
  c ∈ l →
  ∃ kept,
    kept ∈ foldl (fun filtered_lines line =>
                    match last filtered_lines with
                    | None => filtered_lines ++ [line]
                    | Some kept =>
                        if bool_decide (10 < line - kept)
                        then filtered_lines ++ [line] else filtered_lines
                    end) acc l
    ∧ kept ≤ c ≤ kept + 10.
Proof.
  revert acc. induction l as [|x l IH]; intros acc Hsorted Hbefore Hc;
    [by apply elem_of_nil in Hc|].
  apply StronglySorted_inv in Hsorted as [Hsorted Hx].
  rewrite Forall_forall in Hx.
  cbn [foldl]. apply elem_of_cons in Hc as [->|Hc].
  - destruct (last acc) as [kept|] eqn:Hlast.
    + case_bool_decide as Hgap.
      * exists x. split; [|lia]. apply filter_loop_keeps, elem_of_app.
        right. by apply list_elem_of_singleton.
      * exists kept. split.
        { apply filter_loop_keeps. by apply last_Some_elem_of. }
        assert (kept < x); [|lia].
        apply Hbefore; [by apply last_Some_elem_of|apply list_elem_of_here].
    + exists x. split; [|lia]. apply filter_loop_keeps, elem_of_app.
      right. by apply list_elem_of_singleton.
  - apply IH; [exact Hsorted| |exact Hc].
    intros k y Hk Hy.
    assert (Hk' : k ∈ acc ∨ k = x).
    { destruct (last acc) as [kept|];
        [destruct (bool_decide (10 < x - kept)); [|by left]|];
        apply elem_of_app in Hk as [?|?%list_elem_of_singleton]; auto. }
    destruct Hk' as [Hk'| ->].
    + apply Hbefore; [exact Hk'|by apply list_elem_of_further].
    + by apply Hx.
Qed.

Lemma staff_line_peaks_spec (projection : list Z) (m : Z) :
  list_max projection = Some m →
  staff_line_peaks projection
  = Ok (map Z.of_nat
          (List.filter (is_peak projection (inject_Z m * (3 # 10)))
                       (seq 1 (length projection - 2)))).
Proof.
  intros Hm. unfold staff_line_peaks. rewrite Hm.
  by rewrite (foldl_select _ Z.of_nat).
Qed.

End line_filter.

(** X11. [detect_staff_lines]: consecutive detected lines are more than ten
    rows apart (so they increase strictly); every detected line is a row
    that holds more than 30% of the largest row count and strictly more than
    both neighbouring rows; and every such row is within ten rows after (or
    is) a detected line.  An image without rows, or an exception while the
    projection is computed, gives no lines. *)
Theorem detect_staff_lines_separated (projection : list Z) (e : PyExn) :
  Sorted line_gap (OMREngine.detect_staff_lines (Ok projection))
  ∧ (∀ line, line ∈ OMREngine.detect_staff_lines (Ok projection) →
       ∃ i, line = Z.of_nat i ∧ strict_peak projection i)
  ∧ (∀ i, strict_peak projection i →
       ∃ kept, kept ∈ OMREngine.detect_staff_lines (Ok projection)
               ∧ kept ≤ Z.of_nat i ≤ kept + 10)
  ∧ OMREngine.detect_staff_lines (Ok []) = []
  ∧ OMREngine.detect_staff_lines (Raise e) = [].
Proof.
  split; [|split; [|split; [|split; reflexivity]]].
  - unfold OMREngine.detect_staff_lines. cbn.
    destruct (OMREngine.staff_line_peaks projection); [|constructor].
    apply filter_loop_gaps. constructor.
  - intros line Hline. unfold OMREngine.detect_staff_lines in Hline.
    cbn in Hline.
    destruct (OMREngine.list_max projection) as [m|] eqn:Hm; cycle 1.
    { unfold OMREngine.staff_line_peaks in Hline. rewrite Hm in Hline.
      by apply elem_of_nil in Hline. }
    rewrite (staff_line_peaks_spec _ _ Hm) in Hline.
    apply filter_loop_subset in Hline as [Hline|Hline];
      [by apply elem_of_nil in Hline|].
    apply list_elem_of_In, in_map_iff in Hline as (i & <- & Hi).
    apply filter_In in Hi as [_ Hi].
    exists i. split; [reflexivity|]. by apply (is_peak_spec _ m).
  - intros i Hpeak.
    assert (Hpeak' := Hpeak).
    destruct Hpeak' as (v & a & b & m & Hv & Ha & Hb & Hm & _ & Hav & _).
    unfold OMREngine.detect_staff_lines. cbn.
    rewrite (staff_line_peaks_spec _ _ Hm).
    apply filter_loop_cover.
    + apply seq_filter_increasing.
    + by intros k x ?%elem_of_nil.
    + apply list_elem_of_In, in_map_iff. exists i. split; [reflexivity|].
      apply filter_In. split; [|by apply (is_peak_spec _ m)].
      apply in_seq. apply lookup_lt_Some in Hb.
      destruct i as [|i]; [|lia].
      cbn in Ha. rewrite Hv in Ha. injection Ha as <-. lia.
Qed.

Lemma detect_staff_lines_separated_witness :
  ∃ kept,
    kept ∈ OMREngine.detect_staff_lines
             (Ok [0; 0; 9; 0; 7; 0; 0; 0; 0; 0; 0; 0; 0; 0; 0; 8; 0])
    ∧ kept ≤ Z.of_nat 4 ≤ kept + 10.
Proof.
  apply (detect_staff_lines_separated
           [0; 0; 9; 0; 7; 0; 0; 0; 0; 0; 0; 0; 0; 0; 0; 8; 0] ValueError).
  exists 7, 0, 0, 9. repeat split; try reflexivity; lia.
Defined.

Example detect_staff_lines_sample :
  OMREngine.detect_staff_lines
    (Ok [0; 0; 9; 0; 7; 0; 0; 0; 0; 0; 0; 0; 0; 0; 0; 8; 0]) = [2; 15].
Proof. vm_compute. reflexivity. Qed.

Section clef_detection.
Import OMREngine.

Lemma detect_clef_loop_cases (contours : list Contour) :
  (∃ e, detect_clef_loop contours = Raise e)
  ∨ (detect_clef_loop contours = Ok "alto"%string)
  ∨ (detect_clef_loop contours = Ok "treble"%string
     ∧ ∃ c, c ∈ contours ∧ (500 < c_area c)%Q
            ∧ (2 < inject_Z (c_h c) / inject_Z (c_w c))%Q)
  ∨ (detect_clef_loop contours = Ok "bass"%string
     ∧ ∃ c, c ∈ contours ∧ (500 < c_area c)%Q
            ∧ (inject_Z (c_h c) / inject_Z (c_w c) < 1)%Q).
Proof.
  induction contours as [|c l IH]; cbn [detect_clef_loop]; [by right; left|].
  assert (Hrest :
    (∃ e, detect_clef_loop l = Raise e)
    ∨ (detect_clef_loop l = Ok "alto"%string)
    ∨ (detect_clef_loop l = Ok "treble"%string
       ∧ ∃ c', c' ∈ c :: l ∧ (500 < c_area c')%Q
               ∧ (2 < inject_Z (c_h c') / inject_Z (c_w c'))%Q)
    ∨ (detect_clef_loop l = Ok "bass"%string
       ∧ ∃ c', c' ∈ c :: l ∧ (500 < c_area c')%Q
               ∧ (inject_Z (c_h c') / inject_Z (c_w c') < 1)%Q)).
  { destruct IH as [?|[?|[(? & c' & ? & ?)|(? & c' & ? & ?)]]]; auto;
      [right; right; left|right; right; right];
      (split; [done|]); exists c'; split; auto;
      by apply list_elem_of_further. }
  destruct (Qltb 500 (c_area c)) eqn:Harea; [|exact Hrest].
  apply Qltb_lt in Harea.
  unfold py_truediv. destruct (Qeq_bool (inject_Z (c_w c)) 0); cbn;
    [left; by eexists|].
  destruct (Qltb 2 _) eqn:Htall.
  { apply Qltb_lt in Htall. right; right; left. split; [reflexivity|].
    exists c. split; [apply list_elem_of_here|]. by split. }
  destruct (Qltb 1 _ && Qltb _ 2); [by right; left|].
  destruct (Qltb _ 1) eqn:Hwide; [|exact Hrest].
  apply Qltb_lt in Hwide. right; right; right. split; [reflexivity|].
  exists c. split; [apply list_elem_of_here|]. by split.
Qed.

Lemma detect_clef_loop_small (contours : list Contour) :
  Forall (fun c => (c_area c <= 500)%Q) contours →
  detect_clef_loop contours = Ok "alto"%string.
Proof.
  induction 1 as [|c l Hc _ IH]; cbn [detect_clef_loop]; [reflexivity|].
  by rewrite (proj2 (Qltb_ge _ _) Hc).
Qed.

End clef_detection.

(** X12. [detect_clef] only ever answers ["treble"], ["alto"] or ["bass"].
    It answers ["treble"] only if some contour of area above 500 is more
    than twice as tall as wide, ["bass"] only if some such contour is wider
    than tall, and ["alto"] whenever no contour has an area above 500 or the
    image operations raise. *)
Theorem detect_clef_answers (found : raises (list OMREngine.Contour)) :
  (OMREngine.detect_clef found = "treble"%string
   ∨ OMREngine.detect_clef found = "alto"%string
   ∨ OMREngine.detect_clef found = "bass"%string)
  ∧ (OMREngine.detect_clef found = "treble"%string →
     ∃ contours c, found = Ok contours ∧ c ∈ contours
       ∧ (500 < OMREngine.c_area c)%Q
       ∧ (2 < inject_Z (OMREngine.c_h c) / inject_Z (OMREngine.c_w c))%Q)
  ∧ (OMREngine.detect_clef found = "bass"%string →
     ∃ contours c, found = Ok contours ∧ c ∈ contours
       ∧ (500 < OMREngine.c_area c)%Q
       ∧ (inject_Z (OMREngine.c_h c) / inject_Z (OMREngine.c_w c) < 1)%Q)
  ∧ (∀ contours, found = Ok contours →
       Forall (fun c => (OMREngine.c_area c <= 500)%Q) contours →
       OMREngine.detect_clef found = "alto"%string)
  ∧ (∀ e, found = Raise e → OMREngine.detect_clef found = "alto"%string).
Proof.
  unfold OMREngine.detect_clef.
  destruct found as [contours|e]; cbn.
  - destruct (detect_clef_loop_cases contours)
      as [[e ->]|[->|[(-> & c & Hc)|(-> & c & Hc)]]].
    + split; [by right; left|]. repeat split; discriminate.
    + split; [by right; left|]. repeat split; discriminate.
    + split; [by left|]. split; [intros _; by exists contours, c|].
      split; [discriminate|]. split; [|discriminate].
      intros l [= <-] Hsmall. rewrite Forall_forall in Hsmall.
      destruct Hc as (Hin & Ha & _). specialize (Hsmall c Hin).
      exfalso. by eapply Qlt_not_le.
    + split; [by right; right|]. split; [discriminate|].
      split; [intros _; by exists contours, c|]. split; [|discriminate].
      intros l [= <-] Hsmall. rewrite Forall_forall in Hsmall.
      destruct Hc as (Hin & Ha & _). specialize (Hsmall c Hin).
      exfalso. by eapply Qlt_not_le.
  - split; [by right; left|]. repeat split; discriminate.
Qed.

Lemma detect_clef_answers_witness :
  OMREngine.detect_clef
    (Ok [OMREngine.mkContour 300 5 5 10 40; OMREngine.mkContour 120 5 5 30 10])
  = "alto"%string.
Proof.
  destruct (detect_clef_answers
              (Ok [OMREngine.mkContour 300 5 5 10 40;
                   OMREngine.mkContour 120 5 5 30 10]))
    as (_ & _ & _ & Hsmall & _).
  apply (Hsmall _ eq_refl).
  repeat constructor; cbn; discriminate.
Defined.


(** ** Progress events and batch results *)

Section progress_events.
Import Converter.

Lemma percentage_of_six (s : Z) :
  (inject_Z s / inject_Z 6 * 100 == inject_Z s * 100 / 6)%Q
  ∧ ((inject_Z s / inject_Z 6 * 100 == 100)%Q ↔ s = 6).
Proof.
  change (inject_Z 6) with 6%Q. split; [field|].
  split.
  - intros Hq. apply inject_Z_injective. change (inject_Z 6) with 6%Q.
    assert (Hs : (inject_Z s == inject_Z s / 6 * 100 * (6 # 100))%Q)
      by field.
    rewrite Hs, Hq. reflexivity.
  - intros ->. reflexivity.
Qed.

Lemma map_seq_shift (k : Z) (a n : nat) :
  map (fun j => k + 1 + Z.of_nat j) (seq a n)
  = map (fun j => k + Z.of_nat j) (seq (S a) n).
Proof.
  revert a. induction n as [|n IH]; intros a; cbn; [reflexivity|].
  rewrite IH. f_equal. lia.
Qed.

Lemma run_stages_events (script : RunScript) (ops : list Operation)
    (p : Pipeline) (observer : nat) (k : Z) :
  callbacks (progress p) = [UserCallback observer] →
  total_steps (progress p) = 6 →
  current_step (progress p) = k →
  ∃ events,
    calls (run_stages script ops p).1
    = calls p ++ map (CallProgress (UserCallback observer)) events
    ∧ map pd_step events
      = map (fun j => k + Z.of_nat j) (seq 1 (stages_entered script ops))
    ∧ map pd_operation events
      = map Some (take (stages_entered script ops) ops)
    ∧ Forall well_formed_event events
    ∧ (success (run_stages script ops p).2 = true
       ↔ stages_entered script ops = length ops
         ∧ Forall (fun op => ¬ (fails_in script = Some op ∧ op ≠ OpDone))
                  ops).
Proof.
  revert p k. induction ops as [|op ops IH]; intros p k Hcbs Htotal Hstep.
  - exists []. cbn. rewrite app_nil_r. repeat split; auto.
  - destruct p as [[ts cs co st cbs] t fr cl]. cbn in Hcbs, Htotal, Hstep.
    subst cbs ts cs. cbn [run_stages stages_entered].
    set (d := {| pd_step := k + 1; pd_total := 6;
                 pd_operation := Some op;
                 pd_percentage := (inject_Z (k + 1) / inject_Z 6 * 100)%Q;
                 pd_elapsed_time :=
                   elapsed_if_started
                     {| progress :=
                          {| total_steps := 6; current_step := k + 1;
                             current_operation := Some op; start_time := st;
                             callbacks := [UserCallback observer] |};
                        now := t; frame := fr; calls := cl |} |}).
    assert (Hd : well_formed_event d).
    { split; [reflexivity|]. apply percentage_of_six. }
    set (p1 := advance_clock (stage_seconds script)
                 (next_step op
                    {| progress :=
                         {| total_steps := 6; current_step := k;
                            current_operation := co; start_time := st;
                            callbacks := [UserCallback observer] |};
                       now := t; frame := fr; calls := cl |})).
    assert (Hp1 : calls p1 = cl ++ [CallProgress (UserCallback observer) d]
                  ∧ callbacks (progress p1) = [UserCallback observer]
                  ∧ total_steps (progress p1) = 6
                  ∧ current_step (progress p1) = k + 1).
    { subst p1 d. repeat split. }
    destruct Hp1 as (Hcalls & Hcbs1 & Htot1 & Hstep1).
    case_bool_decide as Hfail.
    + exists [d]. cbn [fst snd success map seq take calls].
      rewrite Hcalls. repeat split; try (f_equal; lia).
      * by constructor.
      * intros [_ Hall]. apply Forall_cons in Hall as [Hop _]. done.
    + destruct (IH p1 (k + 1) Hcbs1 Htot1 Hstep1)
        as (events & He & Hsteps & Hops & Hwf & Hsucc).
      exists (d :: events). cbn [map seq take length].
      rewrite He, Hcalls, <- app_assoc. cbn [app].
      split; [reflexivity|].
      split. { rewrite Hsteps, map_seq_shift. f_equal; lia. }
      split. { by rewrite Hops. }
      split. { by constructor. }
      rewrite Hsucc, Forall_cons. split.
      * intros [Hn Hall]. split; [by f_equal|]. by split.
      * intros [[= Hn] [_ Hall]]. by split.
Qed.

Lemma stages_entered_six (script : RunScript) :
  stages_entered script
    [OpValidate; OpPreprocess; OpRecognize; OpClefConvert; OpOutput; OpDone]
  = stages_started script.
Proof.
  unfold stages_started. destruct script as [[[]|] secs n]; reflexivity.
Qed.

Lemma six_stages_complete (script : RunScript) :
  (stages_entered script
     [OpValidate; OpPreprocess; OpRecognize; OpClefConvert; OpOutput; OpDone]
   = 6%nat
   ∧ Forall (fun op => ¬ (fails_in script = Some op ∧ op ≠ OpDone))
       [OpValidate; OpPreprocess; OpRecognize; OpClefConvert; OpOutput;
        OpDone])
  ↔ fails_in script = None ∨ fails_in script = Some OpDone.
Proof.
  destruct script as [[[]|] secs n]; cbn [fails_in]; split.
  all: try (intros [Hn _]; vm_compute in Hn; discriminate).
  all: try (intros [[=]|[=]]; fail).
  all: try (intros _; by (left + right)).
  all: intros _; (split; [vm_compute; reflexivity|]);
    repeat constructor; intros [Heq Hne]; try discriminate; done.
Qed.

End progress_events.

(** X13. A run of [convert_single] on a pipeline without registered
    observers, given one observer: the observer is called once per stage the
    run enters (six for a run that completes, [k] for a run that fails in
    stage [k]) and never otherwise, with the step numbers 1, 2, ... in order
    and the stage names in order; every event has total 6 and percentage
    [step / 6 * 100], which is 100 only at step 6; the run reports success
    exactly when no stage before the last fails. *)
Theorem single_run_progress_sequence (p : Converter.Pipeline)
    (script : Converter.RunScript) (observer : nat) :
  Converter.callbacks (Converter.progress p) = [] →
  ∃ events,
    Converter.calls
      (Converter.convert_single script
         (Some (Converter.UserCallback observer)) p).1
    = Converter.calls p
      ++ map (Converter.CallProgress (Converter.UserCallback observer)) events
    ∧ map Converter.pd_step events
      = map Z.of_nat (seq 1 (stages_started script))
    ∧ map Converter.pd_operation events
      = map Some
          (take (stages_started script)
             [Converter.OpValidate; Converter.OpPreprocess;
              Converter.OpRecognize; Converter.OpClefConvert;
              Converter.OpOutput; Converter.OpDone])
    ∧ Forall well_formed_event events
    ∧ (Converter.success
         (Converter.convert_single script
            (Some (Converter.UserCallback observer)) p).2 = true
       ↔ Converter.fails_in script = None
         ∨ Converter.fails_in script = Some Converter.OpDone).
Proof.
  intros Hcbs. unfold Converter.convert_single.
  set (p0 := Converter.set_total_steps 6 _).
  destruct (run_stages_events script
              [Converter.OpValidate; Converter.OpPreprocess;
               Converter.OpRecognize; Converter.OpClefConvert;
               Converter.OpOutput; Converter.OpDone]
              p0 observer 0)
    as (events & He & Hsteps & Hops & Hwf & Hsucc).
  { subst p0. cbn. by rewrite Hcbs. }
  { reflexivity. }
  { reflexivity. }
  exists events. rewrite stages_entered_six in Hsteps, Hops.
  split; [exact He|]. split; [|split; [exact Hops|split; [exact Hwf|]]].
  - rewrite Hsteps. apply map_ext. intros j. lia.
  - rewrite Hsucc. apply six_stages_complete.
Qed.

Lemma single_run_progress_sequence_witness :
  ∃ events,
    Converter.calls
      (Converter.convert_single
         (Converter.mkScript (Some Converter.OpRecognize) 1 0)
         (Some (Converter.UserCallback 1)) (Converter.Pipeline_init 0)).1
    = map (Converter.CallProgress (Converter.UserCallback 1)) events
    ∧ map Converter.pd_step events = [1; 2; 3].
Proof.
  destruct (single_run_progress_sequence (Converter.Pipeline_init 0)
              (Converter.mkScript (Some Converter.OpRecognize) 1 0) 1
              eq_refl)
    as (events & He & Hsteps & _).
  exists events. split; [exact He|exact Hsteps].
Defined.

Section batch.
Import Converter.

Lemma run_stages_outcome (script : RunScript) (ops : list Operation)
    (p : Pipeline) :
  success (run_stages script ops p).2
  = forallb (fun op => negb (bool_decide (fails_in script = Some op
                                          ∧ op ≠ OpDone))) ops
  ∧ result_notes_count (run_stages script ops p).2
    = if success (run_stages script ops p).2
      then Some (notes_count script) else None.
Proof.
  revert p. induction ops as [|op ops IH]; intros p; cbn [run_stages forallb].
  - by split.
  - destruct (bool_decide (fails_in script = Some op ∧ op ≠ OpDone));
      cbn [negb andb]; [by split|apply IH].
Qed.

Lemma convert_single_outcome (script : RunScript) (cb : option Callback)
    (p : Pipeline) :
  success (convert_single script cb p).2 = completes script
  ∧ result_notes_count (convert_single script cb p).2
    = if completes script then Some (notes_count script) else None.
Proof.
  unfold convert_single.
  match goal with |- context [run_stages script ?ops ?q] =>
    destruct (run_stages_outcome script ops q) as [Hs Hn] end.
  rewrite Hn, Hs. clear Hs Hn.
  assert (Hc : forallb
            (fun op => negb (bool_decide (fails_in script = Some op
                                          ∧ op ≠ OpDone)))
            [OpValidate; OpPreprocess; OpRecognize; OpClefConvert; OpOutput;
             OpDone] = completes script).
  { unfold completes. destruct script as [[[]|] secs n]; reflexivity. }
  by rewrite Hc.
Qed.

(** The counting loop does what the loop of the results does, and counts
    the runs that complete and those that do not. *)
Lemma batch_counting_loop (len : nat) (cb : option Callback)
    (items : list (nat * RunScript)) (p : Pipeline)
    (done : list SingleResult) (s f : Z) :
  ∃ p' more,
    foldl (batch_counting_body len cb) (p, done, (s, f)) items
    = (p', done ++ more,
       (s + Z.of_nat (length (List.filter completes (map snd items))),
        f + Z.of_nat (length (List.filter (fun x => negb (completes x))
                                          (map snd items)))))
    ∧ foldl (batch_body len cb) (p, done) items = (p', done ++ more)
    ∧ map success more = map (fun it => completes it.2) items
    ∧ map result_notes_count more
      = map (fun it => if completes it.2 then Some (notes_count it.2)
                       else None) items.
Proof.
  revert p done s f.
  induction items as [|[i script] items IH]; intros p done s f.
  - exists p, []. cbn. rewrite app_nil_r, !Z.add_0_r. by repeat split.
  - cbn [foldl]. unfold batch_counting_body at 2, batch_body at 2.
    set (p0 := {| progress := progress p; now := now p;
                  frame := Some _; calls := calls p |}).
    destruct (convert_single_outcome script
                (Some (FileProgressCallback i)) p0) as [Hs Hn].
    destruct (convert_single script (Some (FileProgressCallback i)) p0)
      as [p1 r] eqn:Hrun.
    cbn [snd] in Hs, Hn. cbn [map snd List.filter].
    rewrite Hs. destruct (completes script) eqn:Hc; cbn [negb].
    + destruct (IH p1 (done ++ [r]) (s + 1) f)
        as (p' & more & Hcount & Hres & Hsucc & Hnotes).
      exists p', (r :: more). rewrite <- app_assoc in Hcount, Hres.
      cbn [app] in Hcount, Hres. rewrite Hcount, Hres.
      split; [do 2 f_equal; cbn [length]; lia|].
      split; [reflexivity|].
      cbn [map snd]. rewrite Hs, Hn, Hsucc, Hnotes, ?Hc. by split.
    + destruct (IH p1 (done ++ [r]) s (f + 1))
        as (p' & more & Hcount & Hres & Hsucc & Hnotes).
      exists p', (r :: more). rewrite <- app_assoc in Hcount, Hres.
      cbn [app] in Hcount, Hres. rewrite Hcount, Hres.
      split; [do 2 f_equal; cbn [length]; lia|].
      split; [reflexivity|].
      cbn [map snd]. rewrite Hs, Hn, Hsucc, Hnotes, ?Hc. by split.
Qed.

Lemma enumerate_snd {A} (l : list A) : map snd (MIDIConverter.enumerate l) = l.
Proof.
  unfold MIDIConverter.enumerate. generalize 0%nat.
  induction l as [|x l IH]; intros a; cbn; [reflexivity|].
  by rewrite IH.
Qed.

Lemma filter_length_split {A} (P : A → bool) (l : list A) :
  (length (List.filter P l)
   + length (List.filter (fun x => negb (P x)) l))%nat = length l.
Proof.
  induction l as [|x l IH]; cbn; [reflexivity|].
  destruct (P x); cbn; lia.
Qed.

Lemma filter_map_success (l : list SingleResult) (scripts : list RunScript) :
  map success l = map completes scripts →
  map result_notes_count l
  = map (fun s => if completes s then Some (notes_count s) else None)
        scripts →
  map (fun r => default 0 (result_notes_count r)) (List.filter success l)
  = map notes_count (List.filter completes scripts).
Proof.
  revert scripts. induction l as [|r l IH]; intros [|s scripts]; cbn;
    try discriminate; [reflexivity|].
  intros [= Hs Hl] [= Hn Hl']. rewrite Hs.
  destruct (completes s); cbn; [|by apply IH].
  rewrite Hn. cbn. f_equal. by apply IH.
Qed.

End batch.

(** X14. [convert_batch] never stops at a failing file: for a non-empty list
    of input files the returned dict holds one result per file, in order;
    [successful_count] is the number of files whose run completes,
    [failed_count] the number of the others, and together they make
    [total_files]; [success] is set exactly when at least one file
    succeeded; [total_notes] is the sum of the note counts of the files that
    succeeded.  With no input file the dict reports failure with all counts
    zero and the pipeline is left as it was. *)
Theorem batch_summary_counts (input_files : list Converter.RunScript)
    (progress_callback : option Converter.Callback) (p : Converter.Pipeline) :
  let summary :=
    (Converter.convert_batch_summary input_files progress_callback p).2 in
  (Converter.convert_batch_summary input_files progress_callback p).1
  = (Converter.convert_batch input_files progress_callback p).1
  ∧ Converter.results summary
    = (Converter.convert_batch input_files progress_callback p).2
  ∧ map Converter.success (Converter.results summary)
    = map completes input_files
  ∧ Converter.total_files summary = Z.of_nat (length input_files)
  ∧ Converter.successful_count summary
    = Z.of_nat (length (List.filter completes input_files))
  ∧ Converter.successful_count summary + Converter.failed_count summary
    = Converter.total_files summary
  ∧ (Converter.batch_success summary = true
     ↔ ∃ script, script ∈ input_files ∧ completes script = true)
  ∧ Converter.total_notes summary
    = Converter.py_sum_Z
        (map Converter.notes_count (List.filter completes input_files))
  ∧ Converter.convert_batch_summary [] progress_callback p
    = (p, Converter.mkBatchResult false 0 0 0 [] 0 0).
Proof.
  cbn zeta. destruct input_files as [|script0 rest] eqn:Hfiles.
  { cbn. repeat split; try done. intros (s & Hs%elem_of_nil & _). done. }
  rewrite <- Hfiles.
  assert (Hne : input_files ≠ []) by (by rewrite Hfiles).
  unfold Converter.convert_batch_summary, Converter.convert_batch.
  destruct (batch_counting_loop (length input_files) progress_callback
              (MIDIConverter.enumerate input_files) p [] 0 0)
    as (p' & more & Hcount & Hres & Hsucc & Hnotes).
  rewrite enumerate_snd in Hcount.
  rewrite Hres. cbn [app] in Hcount.
  destruct input_files as [|s0 r0]; [done|]. rewrite Hcount.
  cbn [fst snd Converter.results Converter.total_files
       Converter.successful_count Converter.failed_count
       Converter.batch_success Converter.total_notes app].
  assert (Hsucc' : map Converter.success more = map completes (s0 :: r0)).
  { rewrite Hsucc. rewrite <- (enumerate_snd (s0 :: r0)) at 2.
    by rewrite map_map. }
  assert (Hnotes' : map Converter.result_notes_count more
            = map (fun s => if completes s then Some (Converter.notes_count s)
                            else None) (s0 :: r0)).
  { rewrite Hnotes. rewrite <- (enumerate_snd (s0 :: r0)) at 2.
    by rewrite map_map. }
  split; [reflexivity|]. split; [reflexivity|]. split; [exact Hsucc'|].
  split; [reflexivity|]. split; [lia|].
  split.
  { pose proof (filter_length_split completes (s0 :: r0)). lia. }
  split.
  { rewrite bool_decide_eq_true. split.
    - intros Hpos.
      destruct (List.filter completes (s0 :: r0)) as [|s l] eqn:Hf;
        [cbn in Hpos; lia|].
      assert (Hin : In s (List.filter completes (s0 :: r0)))
        by (rewrite Hf; by left).
      apply filter_In in Hin as [Hin Hc].
      exists s. split; [by apply list_elem_of_In|exact Hc].
    - intros (s & Hin & Hc).
      assert (Hin' : In s (List.filter completes (s0 :: r0)))
        by (apply filter_In; split; [by apply list_elem_of_In|exact Hc]).
      destruct (List.filter completes (s0 :: r0)); [done|cbn; lia]. }
  split; [|reflexivity].
  f_equal. by apply filter_map_success.
Qed.

(** ** Failures and resizing in the preprocessor *)

Section preprocessor_more.
Import ImagePreprocessor.
Context `{ImageLibrary}.

Lemma preprocess_loaded (image_path : ImagePath) (high_quality : bool)
    (image0 : Image) (log : list LogRecord) :
  validate_image image_path = true →
  load_image image_path = Ok image0 →
  ∃ image log', preprocess image_path high_quality log = (Ok image, log').
Proof.
  intros Hvalid Hload. unfold preprocess.
  set (w := if high_quality then 2048 else 1024).
  set (l0 := log ++ [mkLog INFO MsgPreprocessStart]).
  destruct (best_effort_total (resize_image_try image0 (Some w)) image0
              MsgResizeFailed l0) as (i1 & l1 & H1).
  destruct (best_effort_total (enhance_image_try i1) i1
              MsgEnhanceFailed l1) as (i2 & l2 & H2).
  destruct (best_effort_total (auto_rotate_try i2) i2
              MsgRotateFailed l2) as (i3 & l3 & H3).
  destruct (best_effort_total (crop_staff_area_try i3) i3
              MsgCropFailed l3) as (i4 & l4 & H4).
  exists i4, (l4 ++ [mkLog INFO MsgPreprocessDone]).
  unfold mbind at 1, Logged_bind, logger. fold l0.
  rewrite Hvalid. cbn [negb].
  unfold mbind at 1, Logged_bind, lift. rewrite Hload.
  assert (Hw : (if high_quality
                then resize_image image0 (Some 2048)
                else resize_image image0 (Some 1024))
               = resize_image image0 (Some w))
    by (subst w; by destruct high_quality).
  rewrite Hw.
  unfold mbind at 1, Logged_bind. unfold resize_image at 1. rewrite H1.
  unfold mbind at 1, Logged_bind. unfold enhance_image at 1. rewrite H2.
  unfold mbind at 1, Logged_bind. unfold auto_rotate at 1. rewrite H3.
  unfold mbind at 1, Logged_bind. unfold crop_staff_area at 1. rewrite H4.
  reflexivity.
Qed.

(** [int(height * target_width / width)] for a positive width. *)
Lemma py_int_ratio (a w : Z) :
  0 < w → py_int (inject_Z a / inject_Z w) = a `quot` w.
Proof.
  intros Hw. unfold py_int, Qdiv, Qmult, Qinv, inject_Z; cbn [Qnum Qden].
  destruct w as [|w|w]; try lia. cbn [Qnum Qden].
  rewrite Z.mul_1_r. reflexivity.
Qed.

End preprocessor_more.

(** X15. [preprocess] fails in two ways only: with [ValueError] when
    [validate_image] rejects the path, in which case the image is not even
    loaded, and with the exception of [load_image] when loading raises.  In
    both cases [preprocess] itself has logged its start record only (the
    records [validate_image] and [load_image] write on their own are not
    part of the model).  Once the image is loaded no later step can make it
    fail. *)
Theorem preprocess_raises `{ImageLibrary} (image_path : ImagePath)
    (high_quality : bool) (log log' : list LogRecord) (e : PyExn) :
  ImagePreprocessor.preprocess image_path high_quality log = (Raise e, log')
  ↔ log' = log ++ [mkLog INFO MsgPreprocessStart]
    ∧ ((validate_image image_path = false ∧ e = ValueError)
       ∨ (validate_image image_path = true
          ∧ load_image image_path = Raise e)).
Proof.
  destruct (validate_image image_path) eqn:Hvalid.
  - destruct (load_image image_path) as [image0|e0] eqn:Hload.
    + destruct (preprocess_loaded image_path high_quality image0 log
                  Hvalid Hload) as (image & l & ->).
      split; [discriminate|]. intros [_ [[[=] _]|[_ [=]]]].
    + unfold ImagePreprocessor.preprocess, mbind at 1, Logged_bind, logger.
      rewrite Hvalid. cbn [negb].
      unfold mbind at 1, Logged_bind, lift. rewrite Hload.
      split.
      * intros [= <- <-]. split; [reflexivity|]. by right.
      * intros [-> [[[=] _]|[_ [= ->]]]]. reflexivity.
  - unfold ImagePreprocessor.preprocess, mbind at 1, Logged_bind, logger.
    rewrite Hvalid. cbn [negb]. unfold raise.
    split.
    + intros [= <- <-]. split; [reflexivity|]. by left.
    + intros [-> [[_ ->]|[[=] _]]]. reflexivity.
Qed.

(** X16. [resize_image]: when the width already equals the target the image
    is returned as it is and nothing is logged; otherwise, for a positive
    width, [cv2.resize] is called with the target width and the height
    [(height * target_width) // width] (the aspect ratio, rounded down) and its
    result is returned, or the input image when it raises; a width of zero
    makes the height computation divide by zero, which is logged and gives
    the input image back.  Without a target width the target is
    [min(2048, width)], so an image at most 2048 wide is never resized. *)
Theorem resize_image_cases `{ImageLibrary} (image : Image) (target_width : Z)
    (log : list LogRecord) :
  ((shape image).2 = target_width →
   ImagePreprocessor.resize_image image (Some target_width) log
   = (Ok image, log))
  ∧ (0 < (shape image).2 → 0 ≤ (shape image).1 → 0 ≤ target_width →
     (shape image).2 ≠ target_width →
     ImagePreprocessor.resize_image image (Some target_width) log
     = match cv_resize image target_width
               (((shape image).1 * target_width) `div` (shape image).2) with
       | Ok resized => (Ok resized, log ++ [mkLog INFO MsgResized])
       | Raise e => (Ok image, log ++ [mkLog ERROR (MsgResizeFailed e)])
       end)
  ∧ ((shape image).2 = 0 → target_width ≠ 0 →
     ImagePreprocessor.resize_image image (Some target_width) log
     = (Ok image,
        log ++ [mkLog ERROR (MsgResizeFailed ZeroDivisionError)]))
  ∧ ((shape image).2 ≤ 2048 →
     ImagePreprocessor.resize_image image None log = (Ok image, log)).
Proof.
  unfold ImagePreprocessor.resize_image, try_except,
    ImagePreprocessor.resize_image_try.
  destruct (shape image) as [height width]; cbn [fst snd].
  split; [|split; [|split]].
  - intros ->. by rewrite bool_decide_eq_false_2 by (intros ?; done).
  - intros Hw Hh Ht Hne. rewrite bool_decide_eq_true_2 by done.
    unfold mbind at 1, Logged_bind, lift.
    rewrite py_truediv_ok by (unfold Qeq, inject_Z; cbn; lia).
    rewrite py_int_ratio by done.
    rewrite Z.quot_div_nonneg by lia.
    unfold mbind at 1, Logged_bind.
    destruct (cv_resize image target_width _); reflexivity.
  - intros -> Hne. rewrite bool_decide_eq_true_2 by done.
    reflexivity.
  - intros Hw. rewrite Z.min_r by done.
    by rewrite bool_decide_eq_false_2 by (intros ?; done).
Qed.

Lemma resize_image_cases_witness :
  @ImagePreprocessor.resize_image (trace_library false) [] (Some 1024) []
  = (Ok ["resize"%string], [mkLog INFO MsgResized])
  ∧ @ImagePreprocessor.resize_image (trace_library false) [] (Some 800) []
    = (Ok [], [])
  ∧ @ImagePreprocessor.resize_image (trace_library false) [] None []
    = (Ok [], []).
Proof.
  destruct (@resize_image_cases (trace_library false) [] 1024 [])
    as (_ & Hresize & _ & Hnone).
  destruct (@resize_image_cases (trace_library false) [] 800 [])
    as (Hsame & _).
  split; [|split].
  - apply Hresize; cbn; lia.
  - apply Hsame. reflexivity.
  - apply Hnone. cbn. lia.
Defined.

(** ** MIDI ticks *)

Lemma py_int_floor (q : Q) : (0 <= q)%Q → py_int q = Qfloor q.
Proof.
  destruct q as [n d]. unfold Qle, py_int, Qfloor; cbn [Qnum Qden].
  intros Hn. apply Z.quot_div_nonneg; lia.
Qed.

Lemma py_int_nonpos (q : Q) : (q <= 0)%Q → py_int q ≤ 0.
Proof.
  destruct q as [n d]. unfold Qle, py_int; cbn [Qnum Qden].
  intros Hn. Z.to_euclidean_division_equations; nia.
Qed.

Section ticks.
Import Float64.

(** Rounding keeps the sign it is given. *)
Lemma binary_round_aux_sign (s : bool) (m e : Z) (l : location) :
  match binary_round_aux prec emax s m e l with
  | S754_nan => True
  | S754_zero s' | S754_infinity s' | S754_finite s' _ _ => s' = s
  end.
Proof.
  unfold binary_round_aux.
  destruct (shr_fexp prec emax m e l) as [mrs' e'].
  destruct (shr_fexp prec emax _ e' loc_Exact) as [mrs'' e''].
  destruct (shr_m mrs''); [done| |done].
  by destruct (e'' <=? emax - prec)%Z.
Qed.

Lemma of_Z_not_negative (z : Z) :
  0 ≤ z → is_finite (of_Z z) = true → not_negative_finite (of_Z z).
Proof.
  intros Hz Hfin. unfold of_Z, binary_normalize in *.
  destruct z as [|m|m]; [done| |lia].
  unfold binary_round in *.
  destruct (shl_align m 0 _) as [mz ez].
  pose proof (binary_round_aux_sign false (Z.pos mz) ez loc_Exact) as Hsign.
  by destruct (binary_round_aux prec emax false (Z.pos mz) ez loc_Exact).
Qed.

Lemma of_int_not_negative (z : Z) (x : float) :
  0 ≤ z → of_int z = Ok x → not_negative_finite x.
Proof.
  unfold of_int. intros Hz.
  destruct (is_finite (of_Z z)) eqn:Hfin; [|discriminate].
  intros [= <-]. by apply of_Z_not_negative.
Qed.

Lemma mul_not_positive (x y : float) :
  not_positive x → not_negative_finite y → not_positive (mul x y).
Proof.
  destruct x as [sx|sx| |sx mx ex], y as [sy|sy| |sy my ey];
    unfold mul, SFmul, not_positive, not_negative_finite;
    intros Hx Hy; subst; try done.
  pose proof (binary_round_aux_sign (xorb true false) (Z.pos (mx * my))
                (ex + ey) loc_Exact) as Hsign.
  by destruct (binary_round_aux prec emax (xorb true false) _ _ _).
Qed.

Lemma div_not_positive (x : float) (my : positive) (ey : Z) :
  not_positive x → not_positive (div x (S754_finite false my ey)).
Proof.
  destruct x as [sx|sx| |sx mx ex]; unfold div, SFdiv, not_positive;
    intros Hx; subst; try done.
  destruct (SFdiv_core_binary prec emax (Z.pos mx) ex (Z.pos my) ey)
    as [[mz ez] lz].
  pose proof (binary_round_aux_sign (xorb true false) mz ez lz) as Hsign.
  by destruct (binary_round_aux prec emax (xorb true false) mz ez lz).
Qed.

Lemma value_not_positive (x : float) : not_positive x → (value x <= 0)%Q.
Proof.
  destruct x as [sx|sx| |sx mx ex]; unfold not_positive, value;
    intros Hx; subst; try done.
  destruct ex as [|p|p]; unfold Qle; cbn [cond_Zopp Qnum Qden inject_Z];
    lia.
Qed.

Lemma int_not_positive (x : float) (t : Z) :
  not_positive x → int x = Ok t → t ≤ 0.
Proof.
  intros Hx. pose proof (value_not_positive x Hx) as Hv.
  destruct x; cbn; try discriminate; intros [= <-];
    by apply py_int_nonpos.
Qed.

Lemma int_finite (x : float) :
  is_finite x = true → int x = Ok (py_int (value x)).
Proof. by destruct x. Qed.

Lemma int_not_zero_division (x : float) : int x ≠ Raise ZeroDivisionError.
Proof. by destruct x. Qed.

Lemma of_int_not_zero_division (z : Z) : of_int z ≠ Raise ZeroDivisionError.
Proof. unfold of_int. by destruct (is_finite (of_Z z)). Qed.

Lemma sixty : of_Z 60 = S754_finite false 8444249301319680 (-47).
Proof. vm_compute. reflexivity. Qed.

(** [_seconds_to_ticks] step by step: the two conversions of the integers
    and the truncation of the float product. *)
Lemma seconds_to_ticks_unfold (ticks_per_beat : Z) (seconds : float)
    (tempo : Z) :
  MIDIConverter._seconds_to_ticks ticks_per_beat seconds tempo
  = (tempo_float ← of_int tempo;
     ticks_per_beat_float ← of_int ticks_per_beat;
     ticks ← int (mul (div (mul seconds tempo_float) (of_Z 60))
                      ticks_per_beat_float);
     Ok (Z.max 0 ticks)).
Proof.
  unfold MIDIConverter._seconds_to_ticks.
  destruct (of_int tempo) as [tempo_float|e]; [|reflexivity].
  cbn [mbind result_bind].
  rewrite (truediv_nonzero (mul seconds tempo_float) (of_Z 60))
    by (vm_compute; reflexivity).
  reflexivity.
Qed.

Lemma seconds_to_ticks_nonneg (ticks_per_beat : Z) (seconds : float)
    (tempo : Z) (ticks : Z) :
  MIDIConverter._seconds_to_ticks ticks_per_beat seconds tempo = Ok ticks →
  0 ≤ ticks.
Proof.
  rewrite seconds_to_ticks_unfold.
  destruct (of_int tempo) as [tf|e]; [|discriminate].
  destruct (of_int ticks_per_beat) as [bf|e]; [|discriminate].
  cbn [mbind result_bind].
  destruct (int _) as [t|e]; [|discriminate].
  cbn [mbind result_bind]. intros [= <-]. lia.
Qed.

End ticks.



Section midi_track.
Import MIDIConverter.

Lemma insert_by_time_perm (x : MidiEvent) (l : list MidiEvent) :
  insert_by_time x l ≡ₚ x :: l.
Proof.
  induction l as [|y l IH]; cbn; [reflexivity|].
  destruct (Float64.ltb (ev_time y) (ev_time x)); [|reflexivity].
  rewrite IH. apply Permutation_swap.
Qed.

Lemma sorted_by_time_perm (l : list MidiEvent) : sorted_by_time l ≡ₚ l.
Proof.
  induction l as [|x l IH]; cbn; [reflexivity|].
  by rewrite insert_by_time_perm, IH.
Qed.

Lemma insert_by_time_hd (x y : MidiEvent) (l : list MidiEvent) :
  time_le64 y x → HdRel time_le64 y l →
  HdRel time_le64 y (insert_by_time x l).
Proof.
  intros Hyx Hl. destruct l as [|z l]; cbn; [by constructor|].
  destruct (Float64.ltb _ _); constructor; [|done].
  by inversion Hl.
Qed.

Lemma insert_by_time_sorted (x : MidiEvent) (l : list MidiEvent) :
  Float64.is_nan (ev_time x) = false →
  Forall (fun e => Float64.is_nan (ev_time e) = false) l →
  Sorted time_le64 l → Sorted time_le64 (insert_by_time x l).
Proof.
  intros Hx Hl. induction 1 as [|y l Hs IH Hhd]; cbn;
    [by repeat constructor|].
  apply Forall_cons in Hl as [Hy Hl].
  destruct (Float64.ltb (ev_time y) (ev_time x)) eqn:Hc.
  - constructor; [by apply IH|].
    apply insert_by_time_hd; [|exact Hhd]. by apply ltb_leb.
  - repeat constructor; try done. by apply not_ltb_leb.
Qed.

Lemma sorted_by_time_sorted (l : list MidiEvent) :
  Forall (fun e => Float64.is_nan (ev_time e) = false) l →
  Sorted time_le64 (sorted_by_time l).
Proof.
  induction 1 as [|x l Hx Hl IH]; cbn; [constructor|].
  apply insert_by_time_sorted; [exact Hx| |exact IH].
  by rewrite sorted_by_time_perm.
Qed.

Lemma notes_to_midi_events_app (notes : list Note64.t)
    (acc : list MidiEvent) :
  foldl (fun events note =>
           (events ++ [mkEvent (Note64.start_time note) note_on
                               (Note64.pitch note) (Note64.velocity note)])
           ++ [mkEvent (Note64.end_time note) note_off
                       (Note64.pitch note) 0])
        acc notes
  = acc ++ concat (map (fun note =>
                          [mkEvent (Note64.start_time note) note_on
                                   (Note64.pitch note) (Note64.velocity note);
                           mkEvent (Note64.end_time note) note_off
                                   (Note64.pitch note) 0])
                       notes).
Proof.
  revert acc. induction notes as [|n l IH]; intros acc; cbn.
  - by rewrite app_nil_r.
  - rewrite IH, <- !app_assoc. reflexivity.
Qed.

Lemma notes_to_midi_events_length (notes : list Note64.t) :
  length (_notes_to_midi_events notes) = (2 * length notes)%nat.
Proof.
  unfold _notes_to_midi_events. rewrite notes_to_midi_events_app.
  cbn [app]. induction notes as [|n l IH]; cbn; [reflexivity|].
  rewrite IH. lia.
Qed.

Lemma notes_to_midi_events_no_nan (notes : list Note64.t) :
  Forall no_nan_times notes →
  Forall (fun ev => Float64.is_nan (ev_time ev) = false)
         (_notes_to_midi_events notes).
Proof.
  intros Hn. unfold _notes_to_midi_events.
  rewrite notes_to_midi_events_app. cbn [app].
  induction Hn as [|n l [Hs He] _ IH]; cbn; [constructor|].
  constructor; [exact Hs|]. constructor; [exact He|exact IH].
Qed.

Section with_check.
Context (message_ok : NoteMessage → bool).

Lemma track_body_step (ticks_per_beat tempo : Z) (ev : MidiEvent)
    (current_time : Float64.float) (acc : list NoteMessage)
    (st : Float64.float * list NoteMessage) :
  track_body message_ok ticks_per_beat tempo (current_time, acc) ev = Ok st →
  ∃ m, st = (ev_time ev, acc ++ [m])
       ∧ message_of_event ticks_per_beat tempo current_time ev m.
Proof.
  unfold track_body, Message, message_of_event.
  pose proof (seconds_to_ticks_nonneg ticks_per_beat
                (Float64.sub (ev_time ev) current_time) tempo) as Hpos.
  destruct (_seconds_to_ticks ticks_per_beat _ tempo) as [ticks|e];
    [|discriminate].
  specialize (Hpos ticks eq_refl). cbn [mbind result_bind].
  destruct (ev_type ev) eqn:Hty;
    match goal with
    | |- context [message_ok ?m] => destruct (message_ok m)
    end; cbn; intros [= <-]; eexists; (split; [reflexivity|]); cbn;
    rewrite ?Hty; repeat split; exact Hpos.
Qed.

Lemma track_body_accepted (ticks_per_beat tempo : Z) (ev : MidiEvent)
    (current_time : Float64.float) (acc : list NoteMessage) (ticks : Z) :
  (∀ m, message_ok m = true) →
  _seconds_to_ticks ticks_per_beat (Float64.sub (ev_time ev) current_time)
                    tempo = Ok ticks →
  ∃ m, track_body message_ok ticks_per_beat tempo (current_time, acc) ev
       = Ok (ev_time ev, acc ++ [m]).
Proof.
  intros Hok Hticks. unfold track_body, Message. rewrite Hticks.
  cbn [mbind result_bind]. rewrite Hok. cbn [mbind result_bind].
  eexists. reflexivity.
Qed.

Lemma track_loop_messages (ticks_per_beat tempo : Z)
    (events : list MidiEvent) (current_time : Float64.float)
    (acc : list NoteMessage) (st : Float64.float * list NoteMessage) :
  for_each (track_body message_ok ticks_per_beat tempo) (current_time, acc)
           events = Ok st →
  ∃ new, st.2 = acc ++ new
         ∧ length new = length events
         ∧ ∀ (k : nat) (ev : MidiEvent) (m : NoteMessage),
             events !! k = Some ev → new !! k = Some m →
             message_of_event ticks_per_beat tempo
               match k with
               | O => current_time
               | S j => default Float64.zero (ev_time <$> events !! j)
               end ev m.
Proof.
  revert current_time acc.
  induction events as [|ev events IH]; intros cur acc; cbn [for_each].
  - intros [= <-]. exists []. cbn. rewrite app_nil_r.
    split; [reflexivity|]. split; [reflexivity|]. intros k ev m [=].
  - destruct (track_body message_ok ticks_per_beat tempo (cur, acc) ev)
      as [st'|e] eqn:Hstep; cbn [mbind result_bind]; [|discriminate].
    apply track_body_step in Hstep as (m & -> & Hmsg).
    intros Hloop. destruct (IH _ _ Hloop) as (new & -> & Hlen & Hall).
    exists (m :: new). rewrite <- app_assoc. split; [reflexivity|].
    split; [cbn; by rewrite Hlen|].
    intros [|k] ev' m' Hev Hm; cbn in Hev, Hm.
    + injection Hev as <-. injection Hm as <-. exact Hmsg.
    + specialize (Hall k ev' m' Hev Hm).
      destruct k as [|k]; exact Hall.
Qed.

Lemma track_loop_returns (ticks_per_beat tempo : Z)
    (events : list MidiEvent) (current_time : Float64.float)
    (acc : list NoteMessage) :
  (∀ m, message_ok m = true) →
  (∀ (k : nat) (ev : MidiEvent),
     events !! k = Some ev →
     ∃ ticks,
       _seconds_to_ticks ticks_per_beat
         (Float64.sub (ev_time ev)
            match k with
            | O => current_time
            | S j => default Float64.zero (ev_time <$> events !! j)
            end) tempo = Ok ticks) →
  ∃ st, for_each (track_body message_ok ticks_per_beat tempo)
                 (current_time, acc) events = Ok st.
Proof.
  intros Hok. revert current_time acc.
  induction events as [|ev events IH]; intros cur acc Hticks;
    cbn [for_each]; [by eexists|].
  destruct (Hticks O ev eq_refl) as [ticks Ht].
  destruct (track_body_accepted ticks_per_beat tempo ev cur acc ticks Hok Ht)
    as [m ->].
  cbn [mbind result_bind]. apply IH.
  intros k ev' Hev. specialize (Hticks (S k) ev' Hev).
  destruct k as [|k]; exact Hticks.
Qed.

End with_check.

End midi_track.



(** ** Staff positions of [music_utils.py] *)

Section music_utils.
Import MusicUtils.

Lemma scale_pattern_step (i : nat) (step : Z) :
  scale_pattern !! i = Some step → 1 ≤ step ≤ 2.
Proof.
  unfold scale_pattern.
  do 7 (destruct i as [|i]; [intros [= <-]; lia|]). discriminate.
Qed.

Lemma staff_loop_done (fuel : nat) (d pos rem : Z) :
  rem ≤ 0 → staff_loop fuel d pos rem = Some pos.
Proof.
  intros Hrem. destruct fuel; cbn [staff_loop]; [reflexivity|].
  by rewrite bool_decide_eq_false_2 by lia.
Qed.

(** More fuel than semitones left changes nothing. *)
Lemma staff_loop_enough (fuel fuel' : nat) (d pos rem : Z) :
  (Z.to_nat rem ≤ fuel)%nat → (Z.to_nat rem ≤ fuel')%nat →
  staff_loop fuel d pos rem = staff_loop fuel' d pos rem.
Proof.
  revert fuel' pos rem.
  induction fuel as [|fuel IH]; intros fuel' pos rem Hfuel Hfuel'.
  - rewrite !staff_loop_done by lia. reflexivity.
  - destruct (decide (0 < rem)) as [Hpos|Hneg];
      [|rewrite !staff_loop_done by lia; reflexivity].
    destruct fuel' as [|fuel']; [lia|].
    cbn [staff_loop]. rewrite bool_decide_eq_true_2 by done.
    destruct (scale_pattern !! Z.to_nat (pos `mod` 7)) as [step|] eqn:Hs;
      cbn; [|reflexivity].
    apply scale_pattern_step in Hs.
    case_bool_decide; [|reflexivity].
    apply IH; lia.
Qed.

Lemma staff_loop_fuel (fuel : nat) (d pos rem : Z) :
  (Z.to_nat rem ≤ fuel)%nat →
  staff_loop fuel d pos rem = staff_loop (Z.to_nat rem) d pos rem.
Proof. intros Hfuel. by apply staff_loop_enough. Qed.

Lemma staff_loop_step (d pos rem i step : Z) :
  0 < rem → pos `mod` 7 = i → scale_pattern !! Z.to_nat i = Some step →
  staff_loop (Z.to_nat rem) d pos rem
  = if bool_decide (step ≤ rem)
    then staff_loop (Z.to_nat (rem - step)) d (pos + d) (rem - step)
    else Some pos.
Proof.
  intros Hrem Hi Hs.
  destruct (Z.to_nat rem) as [|n] eqn:Hn; [lia|].
  cbn [staff_loop]. rewrite bool_decide_eq_true_2 by done.
  rewrite Hi, Hs. cbn.
  case_bool_decide; [|reflexivity].
  apply scale_pattern_step in Hs. apply staff_loop_fuel. lia.
Qed.

Ltac loop_side :=
  first [ lia | reflexivity | Z.to_euclidean_division_equations; lia ].

Ltac loop_decide :=
  first [ rewrite bool_decide_eq_true_2 by lia
        | rewrite bool_decide_eq_false_2 by lia ].

Ltac loop_step :=
  first [ rewrite staff_loop_done by lia
        | rewrite (staff_loop_step _ _ _ 0 2) by loop_side; loop_decide
        | rewrite (staff_loop_step _ _ _ 1 2) by loop_side; loop_decide
        | rewrite (staff_loop_step _ _ _ 2 1) by loop_side; loop_decide
        | rewrite (staff_loop_step _ _ _ 3 2) by loop_side; loop_decide
        | rewrite (staff_loop_step _ _ _ 4 2) by loop_side; loop_decide
        | rewrite (staff_loop_step _ _ _ 5 2) by loop_side; loop_decide
        | rewrite (staff_loop_step _ _ _ 6 1) by loop_side; loop_decide ].

Lemma staff_loop_octave_up (pos rem : Z) :
  pos `mod` 7 = 0 → 12 ≤ rem →
  staff_loop (Z.to_nat rem) 1 pos rem
  = staff_loop (Z.to_nat (rem - 12)) 1 (pos + 7) (rem - 12).
Proof.
  intros Hpos Hrem. do 7 loop_step.
  f_equal; [f_equal|..]; lia.
Qed.

Lemma staff_loop_octave_down (pos rem : Z) :
  pos `mod` 7 = 0 → 12 ≤ rem →
  staff_loop (Z.to_nat rem) (-1) pos rem
  = staff_loop (Z.to_nat (rem - 12)) (-1) (pos - 7) (rem - 12).
Proof.
  intros Hpos Hrem. do 7 loop_step.
  f_equal; [f_equal|..]; lia.
Qed.

Lemma twelve_cases (r : Z) :
  0 ≤ r < 12 →
  r = 0 ∨ r = 1 ∨ r = 2 ∨ r = 3 ∨ r = 4 ∨ r = 5 ∨ r = 6 ∨ r = 7 ∨ r = 8
  ∨ r = 9 ∨ r = 10 ∨ r = 11.
Proof. lia. Qed.

Lemma staff_loop_rest_up (pos r : Z) :
  pos `mod` 7 = 0 → 0 ≤ r < 12 →
  staff_loop (Z.to_nat r) 1 pos r = Some (pos + degrees_up r).
Proof.
  intros Hpos Hr. apply twelve_cases in Hr.
  repeat (destruct Hr as [->|Hr]); try subst r;
    repeat loop_step; f_equal;
    match goal with
    | |- context [degrees_up ?k] =>
        let v := eval vm_compute in (degrees_up k) in change (degrees_up k) with v
    end; lia.
Qed.

Lemma staff_loop_rest_down (pos r : Z) :
  pos `mod` 7 = 0 → 0 ≤ r < 12 →
  staff_loop (Z.to_nat r) (-1) pos r = Some (pos - degrees_down r).
Proof.
  intros Hpos Hr. apply twelve_cases in Hr.
  repeat (destruct Hr as [->|Hr]); try subst r;
    repeat loop_step; f_equal;
    match goal with
    | |- context [degrees_down ?k] =>
        let v := eval vm_compute in (degrees_down k) in change (degrees_down k) with v
    end; lia.
Qed.

Lemma staff_loop_up (q : nat) (pos r : Z) :
  pos `mod` 7 = 0 → 0 ≤ r < 12 →
  staff_loop (Z.to_nat (12 * Z.of_nat q + r)) 1 pos (12 * Z.of_nat q + r)
  = Some (pos + 7 * Z.of_nat q + degrees_up r).
Proof.
  revert pos. induction q as [|q IH]; intros pos Hpos Hr.
  - replace (12 * Z.of_nat 0 + r) with r by lia.
    rewrite staff_loop_rest_up by done. f_equal. lia.
  - rewrite staff_loop_octave_up by lia.
    replace (12 * Z.of_nat (S q) + r - 12) with (12 * Z.of_nat q + r) by lia.
    rewrite IH; [f_equal; lia| |done].
    Z.to_euclidean_division_equations; lia.
Qed.

Lemma staff_loop_down (q : nat) (pos r : Z) :
  pos `mod` 7 = 0 → 0 ≤ r < 12 →
  staff_loop (Z.to_nat (12 * Z.of_nat q + r)) (-1) pos (12 * Z.of_nat q + r)
  = Some (pos - 7 * Z.of_nat q - degrees_down r).
Proof.
  revert pos. induction q as [|q IH]; intros pos Hpos Hr.
  - replace (12 * Z.of_nat 0 + r) with r by lia.
    rewrite staff_loop_rest_down by done. f_equal. lia.
  - rewrite staff_loop_octave_down by lia.
    replace (12 * Z.of_nat (S q) + r - 12) with (12 * Z.of_nat q + r) by lia.
    rewrite IH; [f_equal; lia| |done].
    Z.to_euclidean_division_equations; lia.
Qed.

(** The loop from position 0, whatever fuel suffices. *)
Lemma staff_loop_from_c4 (fuel : nat) (midi_pitch : Z) :
  (Z.to_nat (Z.abs (midi_pitch - 60)) ≤ fuel)%nat →
  staff_loop fuel (if bool_decide (0 ≤ midi_pitch - 60) then 1 else -1) 0
             (Z.abs (midi_pitch - 60))
  = Some (degrees_from_c4 midi_pitch).
Proof.
  intros Hfuel. rewrite staff_loop_fuel by done.
  unfold degrees_from_c4.
  destruct (decide (60 ≤ midi_pitch)) as [Hup|Hdown].
  - rewrite !bool_decide_eq_true_2 by lia.
    rewrite Z.abs_eq by lia.
    set (s := midi_pitch - 60).
    rewrite (Z.div_mod s 12) at 1 2 by lia.
    rewrite <- (Z2Nat.id (s `div` 12)) at 1 2
      by (apply Z.div_pos; unfold s; lia).
    rewrite staff_loop_up; [| reflexivity | by apply Z.mod_pos_bound].
    rewrite Z2Nat.id by (apply Z.div_pos; unfold s; lia).
    f_equal.
  - rewrite !bool_decide_eq_false_2 by lia.
    rewrite Z.abs_neq by lia.
    replace (- (midi_pitch - 60)) with (60 - midi_pitch) by lia.
    set (s := 60 - midi_pitch).
    rewrite (Z.div_mod s 12) at 1 2 by lia.
    rewrite <- (Z2Nat.id (s `div` 12)) at 1 2
      by (apply Z.div_pos; unfold s; lia).
    rewrite staff_loop_down; [| reflexivity | by apply Z.mod_pos_bound].
    rewrite Z2Nat.id by (apply Z.div_pos; unfold s; lia).
    f_equal. lia.
Qed.

Lemma clef_offsets_known (clef_type : string) (offset : Z) :
  clef_offsets !! clef_type = Some offset →
  (clef_type, offset) ∈
    [ ("treble"%string, -6); ("alto"%string, 0); ("bass"%string, 6);
      ("tenor"%string, 2); ("soprano"%string, -8);
      ("mezzo"%string, -4); ("baritone"%string, 4) ].
Proof.
  unfold clef_offsets, py_dict. cbn [foldl fst snd].
  repeat (rewrite lookup_insert_Some;
          intros [[<- <-]|[_ H]]; [set_solver|revert H]).
  by rewrite lookup_empty.
Qed.

Lemma staff_position_value (midi_pitch : Z) (clef_type : string) :
  calculate_staff_position midi_pitch clef_type
  = degrees_from_c4 midi_pitch + clef_offset_or_treble clef_type.
Proof.
  unfold calculate_staff_position.
  rewrite staff_loop_from_c4 by done. cbn [mbind option_bind].
  unfold clef_offset_or_treble.
  case_bool_decide as Hknown.
  - destruct Hknown as [offset ->]. reflexivity.
  - destruct (clef_offsets !! clef_type) eqn:Hc;
      [exfalso; apply Hknown; eauto|].
    reflexivity.
Qed.

Lemma degrees_up_mono (r r' : Z) :
  0 ≤ r → r ≤ r' → r' < 12 →
  0 ≤ degrees_up r ∧ degrees_up r ≤ degrees_up r' ∧ degrees_up r' ≤ 6.
Proof.
  intros H0 Hle H12.
  assert (Hr : 0 ≤ r < 12) by lia. assert (Hr' : 0 ≤ r' < 12) by lia.
  apply twelve_cases in Hr, Hr'.
  repeat (destruct Hr as [->|Hr]); try subst r;
    repeat (destruct Hr' as [->|Hr']); try subst r';
    try lia; vm_compute; repeat split; discriminate.
Qed.

Lemma degrees_down_mono (r r' : Z) :
  0 ≤ r → r ≤ r' → r' < 12 →
  0 ≤ degrees_down r ∧ degrees_down r ≤ degrees_down r'
  ∧ degrees_down r' ≤ 6.
Proof.
  intros H0 Hle H12.
  assert (Hr : 0 ≤ r < 12) by lia. assert (Hr' : 0 ≤ r' < 12) by lia.
  apply twelve_cases in Hr, Hr'.
  repeat (destruct Hr as [->|Hr]); try subst r;
    repeat (destruct Hr' as [->|Hr']); try subst r';
    try lia; vm_compute; repeat split; discriminate.
Qed.

(** Seven positions per octave plus the degrees of the rest grow with the
    number of semitones. *)
Lemma octave_degrees_mono (degrees : Z → Z) (s t : Z) :
  (∀ r r', 0 ≤ r → r ≤ r' → r' < 12 →
           0 ≤ degrees r ∧ degrees r ≤ degrees r' ∧ degrees r' ≤ 6) →
  0 ≤ s → s ≤ t →
  0 ≤ 7 * (s `div` 12) + degrees (s `mod` 12)
  ∧ 7 * (s `div` 12) + degrees (s `mod` 12)
    ≤ 7 * (t `div` 12) + degrees (t `mod` 12).
Proof.
  intros Hd Hs Hst.
  pose proof (Z.mod_pos_bound s 12 ltac:(lia)) as Hrs.
  pose proof (Z.mod_pos_bound t 12 ltac:(lia)) as Hrt.
  pose proof (Z.div_mod s 12 ltac:(lia)) as Es.
  pose proof (Z.div_mod t 12 ltac:(lia)) as Et.
  assert (0 ≤ s `div` 12) by (apply Z.div_pos; lia).
  destruct (decide (s `div` 12 = t `div` 12)) as [Heq|Hne].
  - destruct (Hd (s `mod` 12) (t `mod` 12)) as (? & ? & ?); lia.
  - destruct (Hd (s `mod` 12) (s `mod` 12)) as (? & ? & ?); try lia.
    destruct (Hd (t `mod` 12) (t `mod` 12)) as (? & ? & ?); lia.
Qed.

Lemma degrees_from_c4_mono (p q : Z) :
  p ≤ q → degrees_from_c4 p ≤ degrees_from_c4 q.
Proof.
  intros Hpq. unfold degrees_from_c4.
  repeat case_bool_decide; try lia.
  - apply (octave_degrees_mono degrees_up); [apply degrees_up_mono|lia..].
  - pose proof (octave_degrees_mono degrees_down (60 - p) (60 - p)
                  degrees_down_mono) as Hp.
    pose proof (octave_degrees_mono degrees_up (q - 60) (q - 60)
                  degrees_up_mono) as Hq.
    lia.
  - pose proof (octave_degrees_mono degrees_down (60 - q) (60 - p)
                  degrees_down_mono) as Hp.
    lia.
Qed.

Lemma degrees_from_c4_octave_up (p : Z) :
  60 ≤ p → degrees_from_c4 (p + 12) = degrees_from_c4 p + 7.
Proof.
  intros Hp. unfold degrees_from_c4.
  rewrite !bool_decide_eq_true_2 by lia.
  replace (p + 12 - 60) with (p - 60 + 1 * 12) by lia.
  rewrite Z_div_plus_full, Z_mod_plus_full by lia. lia.
Qed.

Lemma degrees_from_c4_octave_down (p : Z) :
  p ≤ 60 → degrees_from_c4 (p - 12) = degrees_from_c4 p - 7.
Proof.
  intros Hp. unfold degrees_from_c4.
  rewrite (bool_decide_eq_false_2 (60 ≤ p - 12)) by lia.
  replace (60 - (p - 12)) with (60 - p + 1 * 12) by lia.
  rewrite Z_div_plus_full, Z_mod_plus_full by lia.
  case_bool_decide; [|lia].
  replace p with 60 by lia. vm_compute. reflexivity.
Qed.

End music_utils.

(** X19. [calculate_staff_position] of [music_utils.py] in closed form: the
    loop always ends, nothing in the [try] block raises, and the result is
    the clef's offset (that of treble for an unknown clef) plus the number
    of positions between the pitch and middle C: seven per whole octave,
    plus the scale degrees covered by the remaining semitones, counted with
    the steps 2 2 1 2 2 2 1 above middle C and with the steps 2 1 2 2 2 1 2
    below it. *)
Theorem music_utils_staff_position_closed_form (midi_pitch : Z)
    (clef_type : string) :
  MusicUtils.calculate_staff_position midi_pitch clef_type
  = degrees_from_c4 midi_pitch + clef_offset_or_treble clef_type.
Proof.
  unfold MusicUtils.calculate_staff_position.
  rewrite staff_loop_from_c4 by done. cbn [mbind option_bind].
  unfold clef_offset_or_treble.
  case_bool_decide as Hknown.
  - destruct Hknown as [offset ->]. reflexivity.
  - destruct (MusicUtils.clef_offsets !! clef_type) eqn:Hc;
      [exfalso; apply Hknown; eauto|].
    reflexivity.
Qed.

(** X20. Consequences for [calculate_staff_position] of [music_utils.py]:
    middle C sits at the clef's offset; from middle C upwards an octave up
    is seven positions up and from middle C downwards an octave down is
    seven positions down; a higher pitch never gets a lower position.
    Below middle C the first step down from a C is counted as a whole tone,
    so a B there (one semitone under a C) gets the position of that C,
    whereas from middle C upwards a B is one position under the C above
    it. *)
Theorem music_utils_staff_position_shape (p q : Z) (clef_type : string) :
  MusicUtils.calculate_staff_position 60 clef_type
  = clef_offset_or_treble clef_type
  ∧ (60 ≤ p →
     MusicUtils.calculate_staff_position (p + 12) clef_type
     = MusicUtils.calculate_staff_position p clef_type + 7)
  ∧ (p ≤ 60 →
     MusicUtils.calculate_staff_position (p - 12) clef_type
     = MusicUtils.calculate_staff_position p clef_type - 7)
  ∧ (p ≤ q →
     MusicUtils.calculate_staff_position p clef_type
     ≤ MusicUtils.calculate_staff_position q clef_type)
  ∧ (p < 60 → (60 - p) `mod` 12 = 1 →
     MusicUtils.calculate_staff_position p clef_type
     = MusicUtils.calculate_staff_position (p + 1) clef_type)
  ∧ (60 ≤ p → (p - 60) `mod` 12 = 11 →
     MusicUtils.calculate_staff_position p clef_type
     = MusicUtils.calculate_staff_position (p + 1) clef_type - 1).
Proof.
  rewrite !staff_position_value.
  split; [reflexivity|].
  split; [intros Hp; rewrite degrees_from_c4_octave_up by done; lia|].
  split; [intros Hp; rewrite degrees_from_c4_octave_down by done; lia|].
  split; [intros Hpq; apply degrees_from_c4_mono in Hpq; lia|].
  split.
  - intros Hp Hb. unfold degrees_from_c4.
    rewrite (bool_decide_eq_false_2 (60 ≤ p)) by lia.
    destruct (decide (p = 59)) as [->|Hne]; [reflexivity|].
    rewrite (bool_decide_eq_false_2 (60 ≤ p + 1)) by lia.
    assert (Hm : (60 - (p + 1)) `mod` 12 = 0)
      by (Z.to_euclidean_division_equations; lia).
    assert (Hd : (60 - (p + 1)) `div` 12 = (60 - p) `div` 12)
      by (Z.to_euclidean_division_equations; lia).
    rewrite Hb, Hm, Hd. reflexivity.
  - intros Hp Hb. unfold degrees_from_c4.
    rewrite !bool_decide_eq_true_2 by lia.
    assert (Hm : (p + 1 - 60) `mod` 12 = 0)
      by (Z.to_euclidean_division_equations; lia).
    assert (Hd : (p + 1 - 60) `div` 12 = (p - 60) `div` 12 + 1)
      by (Z.to_euclidean_division_equations; lia).
    rewrite Hb, Hm, Hd.
    change (degrees_up 11) with 6. change (degrees_up 0) with 0. lia.
Qed.

Lemma music_utils_staff_position_shape_witness :
  MusicUtils.calculate_staff_position 84 "alto"
  = MusicUtils.calculate_staff_position 72 "alto" + 7
  ∧ MusicUtils.calculate_staff_position 36 "alto"
    = MusicUtils.calculate_staff_position 48 "alto" - 7
  ∧ MusicUtils.calculate_staff_position 52 "bass"
    ≤ MusicUtils.calculate_staff_position 53 "bass"
  ∧ MusicUtils.calculate_staff_position 47 "treble"
    = MusicUtils.calculate_staff_position 48 "treble"
  ∧ MusicUtils.calculate_staff_position 71 "treble"
    = MusicUtils.calculate_staff_position 72 "treble" - 1.
Proof.
  destruct (music_utils_staff_position_shape 72 72 "alto")
    as (_ & Hup & _).
  destruct (music_utils_staff_position_shape 48 48 "alto")
    as (_ & _ & Hdown & _).
  destruct (music_utils_staff_position_shape 52 53 "bass")
    as (_ & _ & _ & Hmono & _).
  destruct (music_utils_staff_position_shape 47 47 "treble")
    as (_ & _ & _ & _ & Hbelow & _).
  destruct (music_utils_staff_position_shape 71 71 "treble")
    as (_ & _ & _ & _ & _ & Habove).
  split; [apply Hup; lia|].
  split; [apply Hdown; lia|].
  split; [apply Hmono; lia|].
  split; [apply Hbelow; [lia|reflexivity]|].
  apply Habove; [lia|reflexivity].
Defined.

(** ** Clef positions of [music_utils.py] *)

Lemma convert_clef_position_known (staff_position : Z)
    (from_clef to_clef : string) (a b : Z) :
  MusicUtils.clef_offsets !! from_clef = Some a →
  MusicUtils.clef_offsets !! to_clef = Some b →
  MusicUtils.convert_clef_position staff_position from_clef to_clef
  = staff_position - a + b.
Proof.
  intros Ha Hb. unfold MusicUtils.convert_clef_position.
  rewrite bool_decide_eq_false_2.
  - rewrite Ha, Hb. reflexivity.
  - rewrite Ha, Hb. intros [Hn|Hn]; apply Hn; eauto.
Qed.

Lemma convert_clef_position_unknown (staff_position : Z)
    (from_clef to_clef : string) :
  MusicUtils.clef_offsets !! from_clef = None
  ∨ MusicUtils.clef_offsets !! to_clef = None →
  MusicUtils.convert_clef_position staff_position from_clef to_clef
  = staff_position.
Proof.
  intros Hunknown. unfold MusicUtils.convert_clef_position.
  rewrite bool_decide_eq_true_2; [reflexivity|].
  destruct Hunknown as [-> | ->]; [left|right]; by intros [? [=]].
Qed.

(** X21. [convert_clef_position] of [music_utils.py]: with a clef name
    outside the seven known ones the position comes back unchanged;
    between two known clefs the position moves by the difference of their
    offsets.  Hence converting there and back restores every position for
    every pair of names, conversions through a known intermediate clef
    compose, and converting the position [calculate_staff_position] gives
    for one known clef yields the position it gives for the other.  On
    alto to treble and treble to alto it agrees with
    [ClefConverter._convert_staff_position]. *)
Theorem music_utils_convert_clef_position (staff_position midi_pitch : Z)
    (a b c : string) :
  (MusicUtils.clef_offsets !! a = None ∨ MusicUtils.clef_offsets !! b = None →
   MusicUtils.convert_clef_position staff_position a b = staff_position)
  ∧ (∀ oa ob, MusicUtils.clef_offsets !! a = Some oa →
              MusicUtils.clef_offsets !! b = Some ob →
              MusicUtils.convert_clef_position staff_position a b
              = staff_position - oa + ob)
  ∧ MusicUtils.convert_clef_position
      (MusicUtils.convert_clef_position staff_position a b) b a
    = staff_position
  ∧ (is_Some (MusicUtils.clef_offsets !! a) →
     is_Some (MusicUtils.clef_offsets !! b) →
     is_Some (MusicUtils.clef_offsets !! c) →
     MusicUtils.convert_clef_position
       (MusicUtils.convert_clef_position staff_position a b) b c
     = MusicUtils.convert_clef_position staff_position a c)
  ∧ (is_Some (MusicUtils.clef_offsets !! a) →
     is_Some (MusicUtils.clef_offsets !! b) →
     MusicUtils.convert_clef_position
       (MusicUtils.calculate_staff_position midi_pitch a) a b
     = MusicUtils.calculate_staff_position midi_pitch b)
  ∧ MusicUtils.convert_clef_position staff_position "alto" "treble"
    = ClefConverter._convert_staff_position staff_position "alto" "treble"
  ∧ MusicUtils.convert_clef_position staff_position "treble" "alto"
    = ClefConverter._convert_staff_position staff_position "treble" "alto".
Proof.
  split; [apply convert_clef_position_unknown|].
  split; [intros oa ob; apply convert_clef_position_known|].
  split.
  { destruct (MusicUtils.clef_offsets !! a) as [oa|] eqn:Ha;
      [|rewrite !convert_clef_position_unknown by auto; reflexivity].
    destruct (MusicUtils.clef_offsets !! b) as [ob|] eqn:Hb;
      [|rewrite !convert_clef_position_unknown by auto; reflexivity].
    rewrite (convert_clef_position_known _ a b oa ob) by done.
    rewrite (convert_clef_position_known _ b a ob oa) by done. lia. }
  split.
  { intros [oa Ha] [ob Hb] [oc Hc].
    rewrite (convert_clef_position_known _ a b oa ob) by done.
    rewrite (convert_clef_position_known _ b c ob oc) by done.
    rewrite (convert_clef_position_known _ a c oa oc) by done. lia. }
  split.
  { intros [oa Ha] [ob Hb].
    rewrite (convert_clef_position_known _ a b oa ob) by done.
    rewrite !staff_position_value. unfold clef_offset_or_treble.
    rewrite Ha, Hb. cbn -[degrees_from_c4]. lia. }
  split.
  - rewrite convert_alto_treble_shift.
    rewrite (convert_clef_position_known _ "alto" "treble" 0 (-6))
      by reflexivity. lia.
  - rewrite convert_treble_alto_shift.
    rewrite (convert_clef_position_known _ "treble" "alto" (-6) 0)
      by reflexivity. lia.
Qed.

Lemma music_utils_convert_clef_position_witness :
  MusicUtils.convert_clef_position 3 "alto" "clef" = 3
  ∧ MusicUtils.convert_clef_position 3 "bass" "tenor" = 3 - 6 + 2
  ∧ MusicUtils.convert_clef_position
      (MusicUtils.convert_clef_position 3 "bass" "tenor") "tenor" "mezzo"
    = MusicUtils.convert_clef_position 3 "bass" "mezzo"
  ∧ MusicUtils.convert_clef_position
      (MusicUtils.calculate_staff_position 67 "treble") "treble" "bass"
    = MusicUtils.calculate_staff_position 67 "bass".
Proof.
  split; [|split; [|split]].
  - destruct (music_utils_convert_clef_position 3 60 "alto" "clef" "alto")
      as (Hunknown & _).
    apply Hunknown. right. reflexivity.
  - destruct (music_utils_convert_clef_position 3 60 "bass" "tenor" "alto")
      as (_ & Hknown & _).
    apply Hknown; reflexivity.
  - destruct (music_utils_convert_clef_position 3 60 "bass" "tenor" "mezzo")
      as (_ & _ & _ & Hcompose & _).
    apply Hcompose; by eexists.
  - destruct (music_utils_convert_clef_position 3 67 "treble" "bass" "alto")
      as (_ & _ & _ & _ & Hpitch & _).
    apply Hpitch; by eexists.
Defined.

(** ** Time signatures *)

Lemma land_pred_power_of_two (d : Z) :
  0 < d → Z.land d (d - 1) = 0 ↔ ∃ k, 0 ≤ k ∧ d = 2 ^ k.
Proof.
  intros Hd. split.
  - intros Hland. exists (Z.log2 d).
    pose proof (Z.log2_nonneg d) as Hk.
    split; [exact Hk|].
    destruct (Z.log2_spec d Hd) as [Hlow Hhigh].
    destruct (decide (d = 2 ^ Z.log2 d)) as [Heq|Hne]; [exact Heq|].
    exfalso.
    assert (Hlog : Z.log2 (d - 1) = Z.log2 d).
    { apply Z.log2_unique; [exact Hk|].
      replace (Z.succ (Z.log2 d)) with (Z.log2 d + 1) in * by lia. lia. }
    assert (Hbit : Z.testbit (Z.land d (d - 1)) (Z.log2 d) = true).
    { rewrite Z.land_spec, Z.bit_log2 by done.
      rewrite <- Hlog. rewrite Z.bit_log2; [reflexivity|].
      pose proof (Z.pow_pos_nonneg 2 (Z.log2 d)). lia. }
    rewrite Hland, Z.bits_0 in Hbit. discriminate.
  - intros (k & Hk & ->).
    replace (2 ^ k - 1) with (Z.ones k) by (rewrite Z.ones_equiv; lia).
    rewrite Z.land_ones by done. apply Z.mod_same.
    pose proof (Z.pow_pos_nonneg 2 k). lia.
Qed.

(** X22. [validate_time_signature] accepts exactly the time signatures with
    a positive numerator and a denominator that is a power of two (1, 2, 4,
    8, ...); membership in [TIME_SIGNATURES] plays no part. *)
Theorem validate_time_signature_power_of_two (numerator denominator : Z) :
  MusicUtils.validate_time_signature numerator denominator = true
  ↔ 0 < numerator ∧ ∃ k, 0 ≤ k ∧ denominator = 2 ^ k.
Proof.
  unfold MusicUtils.validate_time_signature.
  destruct (decide (denominator ≤ 0)) as [Hd|Hd].
  - rewrite (bool_decide_eq_true_2 (denominator ≤ 0)) by done. cbn.
    split; [discriminate|]. intros (_ & k & Hk & ->).
    pose proof (Z.pow_pos_nonneg 2 k). lia.
  - rewrite (bool_decide_eq_false_2 (denominator ≤ 0)) by done. cbn [orb].
    pose proof (land_pred_power_of_two denominator ltac:(lia)) as Hpow.
    case_bool_decide as Hland; cbn [negb].
    + split; [discriminate|]. intros (_ & Hk). by apply Hpow in Hk.
    + assert (Hz : Z.land denominator (denominator - 1) = 0)
        by (destruct (decide (Z.land denominator (denominator - 1) = 0));
            [done|by exfalso; auto]).
      apply Hpow in Hz.
      case_bool_decide as Hn.
      * split; [discriminate|]. intros [? _]. lia.
      * rewrite orb_true_r. split; [intros _; split; [lia|done]|done].
Qed.

(** ** Beat durations and the timing grid of [music_utils.py] *)

Section integer_floats.
Import Float64.

Lemma shr_1_m (mrs : shr_record) :
  0 ≤ shr_m mrs → shr_m (shr_1 mrs) = Z.shiftr (shr_m mrs) 1.
Proof.
  destruct mrs as [m r s]. cbn [shr_m]. intros Hm.
  rewrite <- Z.div2_spec.
  destruct m as [|[p|p|]|p]; try reflexivity; lia.
Qed.

Lemma iter_pos_shr_1_m (p : positive) (mrs : shr_record) :
  0 ≤ shr_m mrs →
  shr_m (SpecFloat.iter_pos shr_1 p mrs) = Z.shiftr (shr_m mrs) (Z.pos p).
Proof.
  revert mrs. induction p as [p IH|p IH|]; intros mrs Hm;
    cbn [SpecFloat.iter_pos].
  - assert (H1 : 0 ≤ shr_m (shr_1 mrs))
      by (rewrite shr_1_m by done; by apply Z.shiftr_nonneg).
    assert (H2 : 0 ≤ shr_m (SpecFloat.iter_pos shr_1 p (shr_1 mrs)))
      by (rewrite IH by done; by apply Z.shiftr_nonneg).
    rewrite IH, IH, shr_1_m, !Z.shiftr_shiftr by (done || lia).
    f_equal. lia.
  - assert (H2 : 0 ≤ shr_m (SpecFloat.iter_pos shr_1 p mrs))
      by (rewrite IH by done; by apply Z.shiftr_nonneg).
    rewrite IH, IH, !Z.shiftr_shiftr by (done || lia).
    f_equal. lia.
  - by apply shr_1_m.
Qed.

(** A number of [d] binary digits is at least [2 ^ (d - 1)]. *)
Lemma digits2_pos_le (p : positive) :
  2 ^ (Z.pos (digits2_pos p) - 1) ≤ Z.pos p.
Proof.
  induction p as [p IH|p IH|]; cbn [digits2_pos]; [| |done].
  - rewrite Pos2Z.inj_succ.
    replace (Z.succ (Z.pos (digits2_pos p)) - 1)
      with (Z.succ (Z.pos (digits2_pos p) - 1)) by lia.
    rewrite Z.pow_succ_r by lia. lia.
  - rewrite Pos2Z.inj_succ.
    replace (Z.succ (Z.pos (digits2_pos p)) - 1)
      with (Z.succ (Z.pos (digits2_pos p) - 1)) by lia.
    rewrite Z.pow_succ_r by lia. lia.
Qed.

Lemma shiftr_digits_pos (m : positive) (n : Z) :
  n < Z.pos (digits2_pos m) → 0 < Z.shiftr (Z.pos m) n.
Proof.
  intros Hn. destruct (Z.le_gt_cases 0 n) as [Hpos|Hneg].
  - rewrite Z.shiftr_div_pow2 by done.
    apply Z.div_str_pos. split; [by apply Z.pow_pos_nonneg|].
    etrans; [|apply digits2_pos_le].
    apply Z.pow_le_mono_r; lia.
  - rewrite Z.shiftr_mul_pow2 by lia.
    apply Z.mul_pos_pos; [done|]. apply Z.pow_pos_nonneg; lia.
Qed.

(** Above the least exponent the shift that rounding makes leaves a digit
    of the mantissa. *)
Lemma shr_fexp_pos (m : positive) (e : Z) (l : location) :
  emin prec emax ≤ e →
  0 < shr_m (shr_fexp prec emax (Z.pos m) e l).1
  ∧ emin prec emax ≤ (shr_fexp prec emax (Z.pos m) e l).2.
Proof.
  intros He. unfold shr_fexp, shr, fexp, prec in *. cbn [Zdigits2].
  destruct (Z.max _ _ - e) as [|n|n] eqn:Hn; cbn [fst snd].
  - split; [|done]. by destruct l as [|[]].
  - split; [|lia]. rewrite iter_pos_shr_1_m by (by destruct l as [|[]]).
    assert (Hm : shr_m (shr_record_of_loc (Z.pos m) l) = Z.pos m)
      by (by destruct l as [|[]]).
    rewrite Hm. apply shiftr_digits_pos. lia.
  - split; [|done]. by destruct l as [|[]].
Qed.

Lemma round_nearest_even_pos (m : Z) (l : location) :
  0 < m → 0 < round_nearest_even m l.
Proof.
  intros Hm. destruct l as [|[]]; cbn; try lia.
  destruct (Z.even m); lia.
Qed.

Lemma binary_round_aux_not_zero (s : bool) (m : positive) (e : Z)
    (l : location) :
  emin prec emax ≤ e →
  is_zero (binary_round_aux prec emax s (Z.pos m) e l) = false.
Proof.
  intros He. unfold binary_round_aux.
  pose proof (shr_fexp_pos m e l He) as [Hm1 He1].
  destruct (shr_fexp prec emax (Z.pos m) e l) as [mrs' e'].
  cbn [fst snd] in Hm1, He1.
  pose proof (round_nearest_even_pos (shr_m mrs') (loc_of_shr_record mrs')
                Hm1) as Hr.
  destruct (round_nearest_even _ _) as [|m'|m'] eqn:Hm'; try lia.
  pose proof (shr_fexp_pos m' e' loc_Exact He1) as [Hm2 _].
  destruct (shr_fexp prec emax (Z.pos m') e' loc_Exact) as [mrs'' e''].
  cbn [fst snd] in Hm2.
  destruct (shr_m mrs''); try lia.
  by destruct (e'' <=? emax - prec)%Z.
Qed.

(** Only the integer 0 becomes a float zero. *)
Lemma of_Z_not_zero (z : Z) : z ≠ 0 → is_zero (of_Z z) = false.
Proof.
  intros Hz. unfold of_Z, binary_normalize, binary_round, shl_align.
  destruct z as [|m|m]; [done| |];
    (destruct (fexp prec emax (Z.pos (digits2_pos m) + 0) - 0)
       as [|d|d] eqn:Hd;
     apply binary_round_aux_not_zero;
     unfold fexp, emin, prec, emax in *; lia).
Qed.

Lemma of_int_zero : of_int 0 = Ok zero.
Proof. reflexivity. Qed.

Lemma of_int_not_zero (z : Z) (x : float) :
  z ≠ 0 → of_int z = Ok x → is_zero x = false.
Proof.
  unfold of_int. intros Hz.
  destruct (is_finite (of_Z z)); [|discriminate].
  intros [= <-]. by apply of_Z_not_zero.
Qed.

End integer_floats.

(** X23. [calculate_beat_duration] returns 0.5 when the tempo or the beat
    unit is zero or too large for a float, and otherwise the float product
    of [60.0 / tempo] and [4.0 / beat_unit].  [quantize_timing] of
    [music_utils.py] returns the timing unchanged when the subdivision is
    zero or too large for a float, when the grid step
    [beat_duration / subdivision] is a float zero and when the float
    quotient of the timing by the grid step is not finite; otherwise it
    returns the float product of the grid step and the integer nearest to
    that quotient (half-way quotients going to the even integer).  The
    integer is the one nearest to the rounded quotient: 0.15 on the grid of
    1.6 / 16 goes to 0.1, the quotient being just under 1.5. *)
Theorem music_utils_timing_grid (tempo beat_unit : Z)
    (timing beat_duration : Float64.float) (subdivision : Z) :
  (tempo = 0 ∨ beat_unit = 0 →
   MusicUtils.calculate_beat_duration tempo beat_unit
   = Float64.of_Q (1 # 2))
  ∧ (Float64.of_int tempo = Raise Float64.OverflowError
     ∨ Float64.of_int beat_unit = Raise Float64.OverflowError →
     MusicUtils.calculate_beat_duration tempo beat_unit
     = Float64.of_Q (1 # 2))
  ∧ (∀ tempo_float beat_unit_float,
       tempo ≠ 0 → beat_unit ≠ 0 →
       Float64.of_int tempo = Ok tempo_float →
       Float64.of_int beat_unit = Ok beat_unit_float →
       MusicUtils.calculate_beat_duration tempo beat_unit
       = Float64.mul (Float64.div (Float64.of_Z 60) tempo_float)
                     (Float64.div (Float64.of_Z 4) beat_unit_float))
  ∧ (subdivision = 0
     ∨ Float64.of_int subdivision = Raise Float64.OverflowError →
     MusicUtils.quantize_timing timing beat_duration subdivision = timing)
  ∧ (∀ subdivision_float,
       subdivision ≠ 0 →
       Float64.of_int subdivision = Ok subdivision_float →
       (Float64.is_zero (Float64.div beat_duration subdivision_float) = true
        → MusicUtils.quantize_timing timing beat_duration subdivision
          = timing)
       ∧ (Float64.is_zero (Float64.div beat_duration subdivision_float)
          = false →
          Float64.is_finite
            (Float64.div timing
               (Float64.div beat_duration subdivision_float)) = false →
          MusicUtils.quantize_timing timing beat_duration subdivision
          = timing)
       ∧ (Float64.is_zero (Float64.div beat_duration subdivision_float)
          = false →
          Float64.is_finite
            (Float64.div timing
               (Float64.div beat_duration subdivision_float)) = true →
          snapped (Float64.div beat_duration subdivision_float) timing
            (MusicUtils.quantize_timing timing beat_duration subdivision)))
  ∧ MusicUtils.quantize_timing (Float64.of_Q (15 # 100))
      (Float64.of_Q (16 # 10)) 16 = Float64.of_Q (1 # 10)
  ∧ MusicUtils.calculate_beat_duration 120 4 = Float64.of_Q (1 # 2).
Proof.
  split.
  { unfold MusicUtils.calculate_beat_duration.
    destruct (Z.eq_dec tempo 0) as [->|Ht].
    - intros _. reflexivity.
    - intros [Hc | ->]; [done|].
      destruct (Float64.of_int tempo) as [tf|e] eqn:Htf; [|reflexivity].
      cbn [mbind result_bind].
      rewrite (truediv_nonzero (Float64.of_Z 60) tf
                 (of_int_not_zero tempo tf Ht Htf)).
      reflexivity. }
  split.
  { unfold MusicUtils.calculate_beat_duration.
    intros [-> | Hb]; [reflexivity|].
    destruct (Float64.of_int tempo) as [tf|e]; [|reflexivity].
    cbn [mbind result_bind].
    destruct (Float64.truediv (Float64.of_Z 60) tf) as [q|e]; [|reflexivity].
    cbn [mbind result_bind]. rewrite Hb. reflexivity. }
  split.
  { intros tf bf Ht Hb Htf Hbf.
    unfold MusicUtils.calculate_beat_duration.
    rewrite Htf, Hbf. cbn [mbind result_bind].
    rewrite (truediv_nonzero (Float64.of_Z 60) tf
               (of_int_not_zero tempo tf Ht Htf)).
    cbn [mbind result_bind].
    rewrite (truediv_nonzero (Float64.of_Z 4) bf
               (of_int_not_zero beat_unit bf Hb Hbf)).
    reflexivity. }
  split.
  { unfold MusicUtils.quantize_timing. intros [-> | ->]; reflexivity. }
  split; [|split; vm_compute; reflexivity].
  intros sf Hs Hsf. unfold MusicUtils.quantize_timing.
  rewrite Hsf. cbn [mbind result_bind].
  rewrite (truediv_nonzero beat_duration sf
             (of_int_not_zero subdivision sf Hs Hsf)).
  cbn [mbind result_bind].
  split; [|split].
  - intros Hz. rewrite (truediv_zero timing _ Hz). reflexivity.
  - intros Hz Hfin. rewrite (truediv_nonzero timing _ Hz).
    cbn [mbind result_bind].
    destruct (round_not_finite _ Hfin) as [-> | ->]; reflexivity.
  - intros Hz Hfin. rewrite (truediv_nonzero timing _ Hz).
    cbn [mbind result_bind]. rewrite (round_finite _ Hfin).
    cbn [mbind result_bind].
    exists (py_round
              (Float64.value
                 (Float64.div timing (Float64.div beat_duration sf)))).
    split; [exact Hfin|]. split; [apply py_round_nearest|reflexivity].
Qed.

Lemma music_utils_timing_grid_witness :
  MusicUtils.calculate_beat_duration 0 4 = Float64.of_Q (1 # 2)
  ∧ MusicUtils.calculate_beat_duration 90 8
    = Float64.mul (Float64.div (Float64.of_Z 60) (Float64.of_Z 90))
                  (Float64.div (Float64.of_Z 4) (Float64.of_Z 8))
  ∧ MusicUtils.quantize_timing (Float64.of_Q (1 # 3)) (Float64.of_Q (1 # 2))
                               0 = Float64.of_Q (1 # 3)
  ∧ snapped (Float64.div (Float64.of_Q (1 # 2)) (Float64.of_Z 16))
      (Float64.of_Q (1 # 3))
      (MusicUtils.quantize_timing (Float64.of_Q (1 # 3))
                                  (Float64.of_Q (1 # 2)) 16).
Proof.
  destruct (music_utils_timing_grid 0 4 (Float64.of_Q (1 # 3))
              (Float64.of_Q (1 # 2)) 0)
    as (Hzero & _ & _ & Hsame & _).
  destruct (music_utils_timing_grid 90 8 (Float64.of_Q (1 # 3))
              (Float64.of_Q (1 # 2)) 16)
    as (_ & _ & Hbeat & _ & Hgrid & _).
  split; [apply Hzero; left; reflexivity|].
  split; [apply Hbeat; [lia|lia|reflexivity|reflexivity]|].
  split; [apply Hsame; left; reflexivity|].
  destruct (Hgrid (Float64.of_Z 16)) as (_ & _ & Hsnap);
    [lia|reflexivity|].
  apply Hsnap; reflexivity.
Defined.

(** ** Safe file names *)

Section file_utils.
Import FileUtils.

Lemma replace_each (chars : list ascii) (new : ascii) (s : str) :
  foldl (fun acc char => replace char new acc) s chars
  = map (fun c => foldl (fun x char => if bool_decide (x = char)
                                       then new else x) c chars) s.
Proof.
  revert s. induction chars as [|ch chars IH]; intros s; cbn [foldl].
  - by rewrite map_id.
  - rewrite IH. unfold replace. by rewrite map_map.
Qed.

Lemma replace_char (chars : list ascii) (new c : ascii) :
  new ∉ chars →
  foldl (fun x char => if bool_decide (x = char) then new else x) c chars
  = if bool_decide (c ∈ chars) then new else c.
Proof.
  revert c. induction chars as [|ch chars IH]; intros c Hnew; cbn [foldl].
  - rewrite bool_decide_eq_false_2; [reflexivity|]. apply not_elem_of_nil.
  - apply not_elem_of_cons in Hnew as [Hne Hnew].
    rewrite IH by done.
    destruct (decide (c = ch)) as [->|Hc].
    + rewrite (bool_decide_eq_true_2 (ch = ch)) by done.
      rewrite (bool_decide_eq_false_2 (new ∈ chars)) by done.
      rewrite bool_decide_eq_true_2; [reflexivity|]. left.
    + rewrite (bool_decide_eq_false_2 (c = ch)) by done.
      destruct (decide (c ∈ chars)) as [Hin|Hout].
      * rewrite !bool_decide_eq_true_2; [reflexivity| by right | done].
      * rewrite !bool_decide_eq_false_2; [reflexivity| |done].
        by apply not_elem_of_cons.
Qed.

Lemma replaced_unsafe (filename : str) :
  foldl (fun acc char => replace char "_"%char acc) filename unsafe_chars
  = map (fun c => if bool_decide (c ∈ unsafe_chars) then "_"%char else c)
        filename.
Proof.
  rewrite replace_each. apply map_ext. intros c.
  apply replace_char. unfold unsafe_chars.
  rewrite !not_elem_of_cons. repeat split; try discriminate.
  apply not_elem_of_nil.
Qed.

Lemma lstrip_suffix (chars : list ascii) (s : str) :
  ∃ removed, s = removed ++ lstrip chars s.
Proof.
  induction s as [|c s [removed IH]]; cbn [lstrip]; [by exists []|].
  case_bool_decide; [|by exists []].
  exists (c :: removed). cbn. by rewrite <- IH.
Qed.

Lemma rstrip_prefix (chars : list ascii) (s : str) :
  ∃ removed, s = rstrip chars s ++ removed.
Proof.
  induction s as [|c s [removed IH]]; cbn [rstrip]; [by exists []|].
  destruct (rstrip chars s) as [|k kept] eqn:Hk.
  - case_bool_decide; [exists (c :: s)|exists s]; reflexivity.
  - exists removed. cbn [app]. f_equal. exact IH.
Qed.

Lemma lstrip_head (chars : list ascii) (s : str) (c : ascii) :
  head (lstrip chars s) = Some c → c ∉ chars.
Proof.
  induction s as [|x s IH]; cbn [lstrip]; [discriminate|].
  case_bool_decide; [exact IH|]. by intros [= <-].
Qed.

Lemma rstrip_last (chars : list ascii) (s : str) (c : ascii) :
  last (rstrip chars s) = Some c → c ∉ chars.
Proof.
  induction s as [|x s IH]; cbn [rstrip]; [discriminate|].
  destruct (rstrip chars s) as [|k kept] eqn:Hk.
  - case_bool_decide; [discriminate|]. by intros [= <-].
  - intros Hlast. apply IH. exact Hlast.
Qed.

Lemma lstrip_same (chars : list ascii) (s : str) :
  (∀ c, head s = Some c → c ∉ chars) → lstrip chars s = s.
Proof.
  destruct s as [|x s]; [reflexivity|]. intros Hhead. cbn [lstrip].
  rewrite bool_decide_eq_false_2; [reflexivity|]. by apply Hhead.
Qed.

Lemma rstrip_same (chars : list ascii) (s : str) :
  (∀ c, last s = Some c → c ∉ chars) → rstrip chars s = s.
Proof.
  induction s as [|x s IH]; [reflexivity|]. intros Hlast. cbn [rstrip].
  destruct s as [|y s].
  - cbn. rewrite bool_decide_eq_false_2; [reflexivity|]. by apply Hlast.
  - rewrite IH by (intros c Hc; apply Hlast; exact Hc). reflexivity.
Qed.

Lemma rstrip_head (chars : list ascii) (s : str) :
  rstrip chars s ≠ [] → head (rstrip chars s) = head s.
Proof.
  destruct s as [|x s]; [done|]. cbn [rstrip].
  destruct (rstrip chars s); [case_bool_decide|]; done.
Qed.

Lemma strip_safe (s : str) :
  Forall (fun c => c ∉ unsafe_chars) s →
  strip [" "; "."]%char s ≠ [] →
  safe_name (strip [" "; "."]%char s).
Proof.
  intros Hs Hne. unfold strip in *.
  destruct (lstrip_suffix [" "; "."]%char s) as [front Hfront].
  destruct (rstrip_prefix [" "; "."]%char (lstrip [" "; "."]%char s))
    as [back Hback].
  split; [exact Hne|]. split.
  - rewrite Hfront, Hback in Hs.
    apply Forall_app in Hs as [_ Hs]. by apply Forall_app in Hs as [Hs _].
  - split.
    + intros c. rewrite rstrip_head by done. apply lstrip_head.
    + apply rstrip_last.
Qed.

Lemma safe_name_unchanged (name : str) :
  safe_name name → get_safe_filename name = name.
Proof.
  intros (Hne & Hchars & Hhead & Hlast). unfold get_safe_filename.
  rewrite replaced_unsafe.
  assert (Hmap : map (fun c => if bool_decide (c ∈ unsafe_chars)
                               then "_"%char else c) name = name).
  { clear Hne Hhead Hlast.
    induction Hchars as [|c l Hc _ IH]; cbn; [reflexivity|].
    by rewrite bool_decide_eq_false_2, IH. }
  rewrite Hmap. unfold strip.
  rewrite lstrip_same, rstrip_same by done.
  by rewrite bool_decide_eq_false_2.
Qed.

Lemma untitled_safe : safe_name (String.list_ascii_of_string "untitled").
Proof.
  split; [discriminate|]. split.
  - cbn. repeat constructor; unfold unsafe_chars;
      rewrite !not_elem_of_cons; repeat split; try discriminate;
      apply not_elem_of_nil.
  - split; intros c [= <-];
      rewrite !not_elem_of_cons; repeat split; try discriminate;
      apply not_elem_of_nil.
Qed.

Lemma get_safe_filename_safe (filename : str) :
  safe_name (get_safe_filename filename).
Proof.
  unfold get_safe_filename. case_bool_decide as Hempty;
    [apply untitled_safe|].
  apply strip_safe; [|exact Hempty].
  rewrite replaced_unsafe. apply Forall_map, Forall_forall.
  intros c _. cbn. case_bool_decide; [|done].
  unfold unsafe_chars. rewrite !not_elem_of_cons.
  repeat split; try discriminate. apply not_elem_of_nil.
Qed.

Lemma get_safe_filename_length (filename : str) :
  (length (get_safe_filename filename) ≤ length filename `max` 8)%nat.
Proof.
  unfold get_safe_filename. case_bool_decide; [cbn; lia|].
  unfold strip.
  set (s := foldl _ filename unsafe_chars).
  assert (Hlen : length s = length filename)
    by (unfold s; rewrite replaced_unsafe; apply length_map).
  destruct (lstrip_suffix [" "; "."]%char s) as [front Hfront].
  destruct (rstrip_prefix [" "; "."]%char (lstrip [" "; "."]%char s))
    as [back Hback].
  rewrite <- Hlen. rewrite Hfront at 2. rewrite Hback at 2.
  rewrite !length_app. lia.
Qed.

End file_utils.

(** X24. [get_safe_filename] always returns a usable name: it is never
    empty, holds none of the nine characters of [unsafe_chars], and neither
    begins nor ends with a space or a dot.  A name that already has these properties
    is returned as it is, so the function is idempotent; the result is no
    longer than the input, or than ['untitled'] when nothing is left of the
    input. *)
Theorem get_safe_filename_is_safe (filename : FileUtils.str) :
  safe_name (FileUtils.get_safe_filename filename)
  ∧ (safe_name filename → FileUtils.get_safe_filename filename = filename)
  ∧ FileUtils.get_safe_filename (FileUtils.get_safe_filename filename)
    = FileUtils.get_safe_filename filename
  ∧ (length (FileUtils.get_safe_filename filename)
     ≤ length filename `max` 8)%nat.
Proof.
  split; [apply get_safe_filename_safe|].
  split; [apply safe_name_unchanged|].
  split; [apply safe_name_unchanged, get_safe_filename_safe|].
  apply get_safe_filename_length.
Qed.

Lemma get_safe_filename_is_safe_witness :
  FileUtils.get_safe_filename (String.list_ascii_of_string "score_01.png")
  = String.list_ascii_of_string "score_01.png".
Proof.
  destruct (get_safe_filename_is_safe
              (String.list_ascii_of_string "score_01.png"))
    as (_ & Hsame & _).
  apply Hsame.
  split; [discriminate|]. split.
  - cbn. repeat constructor; unfold FileUtils.unsafe_chars;
      rewrite !not_elem_of_cons; repeat split; try discriminate;
      apply not_elem_of_nil.
  - split; intros c [= <-];
      rewrite !not_elem_of_cons; repeat split; try discriminate;
      apply not_elem_of_nil.
Defined.

Example get_safe_filename_sample :
  FileUtils.get_safe_filename (String.list_ascii_of_string " a<b>:c?.png. ")
  = String.list_ascii_of_string "a_b__c_.png"
  ∧ FileUtils.get_safe_filename (String.list_ascii_of_string " .. ")
    = String.list_ascii_of_string "untitled".
Proof. split; vm_compute; reflexivity. Qed.

(** ** Note heads and ledger lines of the basic renderer *)

Lemma note_y_value (b d : Z) :
  py_int (inject_Z b - inject_Z d * (inject_Z 20 / 4)) = b - 5 * d.
Proof.
  unfold py_int. cbn.
  change (Z.pos (1 * (1 * 4))) with 4.
  change (Z.pos (1 * (1 * (1 * 4)))) with 4.
  replace (b * 4 + - (d * (20 * 1)) * 1) with ((b - 5 * d) * 4) by lia.
  by apply Z.quot_mul.
Qed.

(** X25. In a renderer as [__init__] sets it up, [_calculate_note_y] puts
    the note head five pixels higher per semitone: pitch 64 on the bottom
    staff line under a treble clef, pitch 43 on the bottom line under a
    bass clef, and pitch 60 on the middle line under an alto clef or any
    other clef name.  A higher pitch is always drawn strictly higher, and
    the same pitch is drawn 60 pixels lower under a treble clef than under
    an alto clef. *)
Theorem note_y_five_pixels_per_semitone (width height dpi : Z)
    (note note' : Note) (staff_y : Z) (clef_type : string) :
  let self := ScoreRenderer.ScoreRenderer_init width height dpi in
  ScoreRenderer._calculate_note_y self note staff_y "treble"
  = staff_y + 80 - 5 * (pitch note - 64)
  ∧ ScoreRenderer._calculate_note_y self note staff_y "bass"
    = staff_y + 80 - 5 * (pitch note - 43)
  ∧ (clef_type ≠ "treble"%string → clef_type ≠ "bass"%string →
     ScoreRenderer._calculate_note_y self note staff_y clef_type
     = staff_y + 40 - 5 * (pitch note - 60))
  ∧ (pitch note < pitch note' →
     ScoreRenderer._calculate_note_y self note' staff_y clef_type
     < ScoreRenderer._calculate_note_y self note staff_y clef_type)
  ∧ ScoreRenderer._calculate_note_y self note staff_y "treble"
    = ScoreRenderer._calculate_note_y self note staff_y "alto" + 60.
Proof.
  intros self.
  assert (Hy : ∀ n clef,
             ScoreRenderer._calculate_note_y self n staff_y clef
             = if bool_decide (clef = "treble"%string)
               then staff_y + 80 - 5 * (pitch n - 64)
               else if bool_decide (clef = "bass"%string)
               then staff_y + 80 - 5 * (pitch n - 43)
               else staff_y + 40 - 5 * (pitch n - 60)).
  { intros n clef. unfold ScoreRenderer._calculate_note_y.
    cbn [self ScoreRenderer.ScoreRenderer_init
         ScoreRenderer.staff_line_spacing ScoreRenderer.staff_height].
    repeat case_bool_decide; subst; try discriminate;
      rewrite note_y_value; lia. }
  rewrite !Hy.
  split; [reflexivity|]. split; [reflexivity|].
  split.
  { intros Ht Hb. by rewrite !bool_decide_eq_false_2. }
  split; [|repeat case_bool_decide; try discriminate; try done; lia].
  intros Hp. repeat case_bool_decide; lia.
Qed.

Lemma note_y_five_pixels_per_semitone_witness :
  ScoreRenderer._calculate_note_y
    (ScoreRenderer.ScoreRenderer_init 800 600 300)
    (simple_note 0 1) 260 "tenor" = 260 + 40 - 5 * (60 - 60)
  ∧ ScoreRenderer._calculate_note_y
      (ScoreRenderer.ScoreRenderer_init 800 600 300)
      (sample_note 72 0 1 0 false false) 260 "alto"
    < ScoreRenderer._calculate_note_y
        (ScoreRenderer.ScoreRenderer_init 800 600 300)
        (simple_note 0 1) 260 "alto".
Proof.
  destruct (note_y_five_pixels_per_semitone 800 600 300 (simple_note 0 1)
              (sample_note 72 0 1 0 false false) 260 "tenor")
    as (_ & _ & Hother & _).
  destruct (note_y_five_pixels_per_semitone 800 600 300 (simple_note 0 1)
              (sample_note 72 0 1 0 false false) 260 "alto")
    as (_ & _ & _ & Hhigher & _).
  split; [apply Hother; discriminate|].
  apply Hhigher. cbn. lia.
Defined.

Lemma ledger_loop (cond : Z → Prop) `{!∀ i, Decision (cond i)}
    (mk : Z → ScoreRenderer.DrawCall) (l : list Z)
    (draw : list ScoreRenderer.DrawCall) :
  foldl (fun draw i => if bool_decide (cond i) then draw ++ [mk i] else draw)
        draw l
  = draw ++ map mk (filter cond l).
Proof.
  revert draw. induction l as [|i l IH]; intros draw; cbn [foldl].
  - by rewrite filter_nil, app_nil_r.
  - rewrite IH, filter_cons. case_bool_decide as Hc.
    + rewrite decide_True by done. cbn. by rewrite <- app_assoc.
    + rewrite decide_False by done. reflexivity.
Qed.

Lemma all_equal_short {A} (l : list A) :
  NoDup l → (∀ a b, a ∈ l → b ∈ l → a = b) → (length l ≤ 1)%nat.
Proof.
  intros Hnd Heq. destruct l as [|a [|b l]]; cbn; [lia..|].
  exfalso. apply NoDup_cons in Hnd as [Hnotin _]. apply Hnotin.
  rewrite (Heq a b); [left| left | right; left].
Qed.

Lemma only_element {A} (l : list A) (a : A) :
  NoDup l → a ∈ l → (∀ b, b ∈ l → b = a) → l = [a].
Proof.
  intros Hnd Hin Heq.
  pose proof (all_equal_short l Hnd) as Hlen.
  destruct l as [|b [|c l]].
  - by apply elem_of_nil in Hin.
  - f_equal. apply Heq. left.
  - cbn in Hlen. exfalso.
    assert (S (S (length l)) ≤ 1)%nat; [|lia].
    apply Hlen. intros u v Hu Hv. by rewrite (Heq u), (Heq v).
Qed.

(** Ledger positions are 20 pixels apart, so at most one of them is within
    ten pixels of the note head. *)
Lemma ledger_filter_short (y : Z) (line : Z → Z) (n : Z) :
  (∀ i j, i ≠ j → 20 ≤ Z.abs (line i - line j)) →
  (length (filter (fun i => (Z.abs (y - line i) < 10)%Z) (seqZ 1 n))
   ≤ 1)%nat.
Proof.
  intros Hapart. apply all_equal_short.
  - apply NoDup_filter, NoDup_seqZ.
  - intros a b [Ha _]%list_elem_of_filter [Hb _]%list_elem_of_filter.
    destruct (decide (a = b)) as [|Hne]; [done|].
    specialize (Hapart a b Hne). lia.
Qed.

Lemma ledger_filter_hit (y : Z) (line : Z → Z) (i n : Z) :
  (∀ i j, i ≠ j → 20 ≤ Z.abs (line i - line j)) →
  1 ≤ i ≤ n → Z.abs (y - line i) < 10 →
  filter (fun i => Z.abs (y - line i) < 10) (seqZ 1 n) = [i].
Proof.
  intros Hapart Hi Hnear. apply only_element.
  - apply NoDup_filter, NoDup_seqZ.
  - apply list_elem_of_filter. split; [exact Hnear|].
    apply elem_of_seqZ. lia.
  - intros b [Hb _]%list_elem_of_filter.
    destruct (decide (b = i)) as [|Hne]; [done|].
    specialize (Hapart b i Hne). lia.
Qed.

Lemma ledger_filter_miss (y : Z) (line : Z → Z) (n : Z) :
  (∀ i, 1 ≤ i ≤ n → 10 ≤ Z.abs (y - line i)) →
  filter (fun i => Z.abs (y - line i) < 10) (seqZ 1 n) = [].
Proof.
  intros Hfar.
  destruct (filter _ (seqZ 1 n)) as [|b l] eqn:Hf; [reflexivity|].
  assert (Hb : b ∈ filter (fun i => Z.abs (y - line i) < 10) (seqZ 1 n))
    by (rewrite Hf; left).
  apply list_elem_of_filter in Hb as [Hnear Hin].
  apply elem_of_seqZ in Hin. specialize (Hfar b). lia.
Qed.

(** [_draw_ledger_lines] in a renderer as [__init__] sets it up, with the
    filter made explicit. *)
Lemma draw_ledger_lines_filter (width height dpi : Z)
    (draw : list ScoreRenderer.DrawCall) (x : Q) (y staff_y : Z) :
  ScoreRenderer._draw_ledger_lines
    (ScoreRenderer.ScoreRenderer_init width height dpi) draw x y staff_y
  = if bool_decide (staff_y + 80 < y) then
      Ok (draw ++ map (fun i => ScoreRenderer.ledger_line x
                                  (staff_y + 80 + i * 20))
                      (filter (fun i => Z.abs (y - (staff_y + 80 + i * 20))
                                        < 10)
                              (seqZ 1 ((y - (staff_y + 80)) `quot` 20 + 1))))
    else if bool_decide (y < staff_y) then
      Ok (draw ++ map (fun i => ScoreRenderer.ledger_line x
                                  (staff_y - i * 20))
                      (filter (fun i => Z.abs (y - (staff_y - i * 20)) < 10)
                              (seqZ 1 ((staff_y - y) `quot` 20 + 1))))
    else Ok draw.
Proof.
  unfold ScoreRenderer._draw_ledger_lines.
  cbn [ScoreRenderer.ScoreRenderer_init ScoreRenderer.staff_line_spacing
       ScoreRenderer.staff_height].
  change (20 * 4) with 80. change (20 `div` 2) with 10.
  rewrite !(py_truediv_nonzero _ (inject_Z 20)) by discriminate.
  cbn [mbind result_bind]. rewrite !py_int_ratio by lia.
  repeat case_bool_decide; [| |reflexivity].
  - by rewrite (ledger_loop
                  (fun i => Z.abs (y - (staff_y + 80 + i * 20)) < 10)).
  - by rewrite (ledger_loop
                  (fun i => Z.abs (y - (staff_y - i * 20)) < 10)).
Qed.

Lemma ledger_below_apart (base : Z) (i j : Z) :
  i ≠ j → 20 ≤ Z.abs (base + i * 20 - (base + j * 20)).
Proof. lia. Qed.

Lemma ledger_above_apart (base : Z) (i j : Z) :
  i ≠ j → 20 ≤ Z.abs (base - i * 20 - (base - j * 20)).
Proof. lia. Qed.

(** X26. In a renderer as [__init__] sets it up, [_draw_ledger_lines] never
    raises and adds at most one line to the drawing, however far the note
    head is from the staff: the ledger line less than ten pixels from the
    head when there is one, and none of the ledger lines between that one
    and the staff.  Nothing is drawn for a head on the staff or up to ten
    pixels outside it, nor for a head exactly half-way between two ledger
    positions. *)
Theorem ledger_lines_nearest_only (width height dpi : Z)
    (draw : list ScoreRenderer.DrawCall) (x : Q) (y staff_y : Z) :
  let self := ScoreRenderer.ScoreRenderer_init width height dpi in
  (∃ lines,
     ScoreRenderer._draw_ledger_lines self draw x y staff_y
     = Ok (draw ++ lines)
     ∧ (length lines ≤ 1)%nat)
  ∧ (staff_y - 10 ≤ y ≤ staff_y + 90 →
     ScoreRenderer._draw_ledger_lines self draw x y staff_y = Ok draw)
  ∧ (∀ i, 1 ≤ i → Z.abs (y - (staff_y + 80 + 20 * i)) < 10 →
     ScoreRenderer._draw_ledger_lines self draw x y staff_y
     = Ok (draw ++ [ScoreRenderer.ledger_line x (staff_y + 80 + 20 * i)]))
  ∧ (∀ i, 1 ≤ i → Z.abs (y - (staff_y - 20 * i)) < 10 →
     ScoreRenderer._draw_ledger_lines self draw x y staff_y
     = Ok (draw ++ [ScoreRenderer.ledger_line x (staff_y - 20 * i)]))
  ∧ (∀ i, 1 ≤ i →
     y = staff_y + 90 + 20 * i ∨ y = staff_y - 10 - 20 * i →
     ScoreRenderer._draw_ledger_lines self draw x y staff_y = Ok draw).
Proof.
  intros self. unfold self. rewrite draw_ledger_lines_filter.
  pose proof (ledger_filter_miss y (fun i => staff_y + 80 + i * 20))
    as Hmiss_below.
  pose proof (ledger_filter_miss y (fun i => staff_y - i * 20))
    as Hmiss_above.
  pose proof (fun i => ledger_filter_hit y (fun i => staff_y + 80 + i * 20) i)
    as Hhit_below.
  pose proof (fun i => ledger_filter_hit y (fun i => staff_y - i * 20) i)
    as Hhit_above.
  cbn beta in Hmiss_below, Hmiss_above, Hhit_below, Hhit_above.
  split; [|split; [|split; [|split]]].
  - repeat case_bool_decide.
    + eexists. split; [reflexivity|]. rewrite length_map.
      apply (ledger_filter_short y (fun i => staff_y + 80 + i * 20)).
      apply ledger_below_apart.
    + eexists. split; [reflexivity|]. rewrite length_map.
      apply (ledger_filter_short y (fun i => staff_y - i * 20)).
      apply ledger_above_apart.
    + exists []. rewrite app_nil_r. split; [reflexivity|cbn; lia].
  - intros Hy. repeat case_bool_decide; [| |reflexivity].
    + rewrite Hmiss_below; [by rewrite app_nil_r|].
      intros i Hi. lia.
    + rewrite Hmiss_above; [by rewrite app_nil_r|].
      intros i Hi. lia.
  - intros i Hi Hnear.
    rewrite bool_decide_eq_true_2 by lia.
    rewrite (Hhit_below i); [|apply ledger_below_apart| |lia].
    + cbn [map].
      by replace (staff_y + 80 + i * 20) with (staff_y + 80 + 20 * i) by lia.
    + split; [lia|]. Z.to_euclidean_division_equations; lia.
  - intros i Hi Hnear.
    rewrite bool_decide_eq_false_2 by lia.
    rewrite bool_decide_eq_true_2 by lia.
    rewrite (Hhit_above i); [|apply ledger_above_apart| |lia].
    + cbn [map].
      by replace (staff_y - i * 20) with (staff_y - 20 * i) by lia.
    + split; [lia|]. Z.to_euclidean_division_equations; lia.
  - intros i Hi [Hy|Hy].
    + rewrite bool_decide_eq_true_2 by lia.
      rewrite Hmiss_below; [by rewrite app_nil_r|].
      intros j Hj. lia.
    + rewrite bool_decide_eq_false_2 by lia.
      rewrite bool_decide_eq_true_2 by lia.
      rewrite Hmiss_above; [by rewrite app_nil_r|].
      intros j Hj. lia.
Qed.

Lemma ledger_lines_nearest_only_witness :
  ScoreRenderer._draw_ledger_lines
    (ScoreRenderer.ScoreRenderer_init 800 600 300) [] 180 380 260
  = Ok ([] ++ [ScoreRenderer.ledger_line 180 (260 + 80 + 20 * 2)])
  ∧ ScoreRenderer._draw_ledger_lines
      (ScoreRenderer.ScoreRenderer_init 800 600 300) [] 180 180 260
    = Ok ([] ++ [ScoreRenderer.ledger_line 180 (260 - 20 * 4)])
  ∧ ScoreRenderer._draw_ledger_lines
      (ScoreRenderer.ScoreRenderer_init 800 600 300) [] 180 345 260
    = Ok []
  ∧ ScoreRenderer._draw_ledger_lines
      (ScoreRenderer.ScoreRenderer_init 800 600 300) [] 180 370 260
    = Ok [].
Proof.
  destruct (ledger_lines_nearest_only 800 600 300 [] 180 380 260)
    as (_ & _ & Hbelow & _).
  destruct (ledger_lines_nearest_only 800 600 300 [] 180 180 260)
    as (_ & _ & _ & Habove & _).
  destruct (ledger_lines_nearest_only 800 600 300 [] 180 345 260)
    as (_ & Hstaff & _).
  destruct (ledger_lines_nearest_only 800 600 300 [] 180 370 260)
    as (_ & _ & _ & _ & Hhalf).
  split; [apply Hbelow; [lia|cbn; lia]|].
  split; [apply Habove; [lia|cbn; lia]|].
  split; [apply Hstaff; lia|].
  apply (Hhalf 1); [lia|left; reflexivity].
Defined.
